(** * minicons: dependency graph resolution, freshness and scheduling

    A shallow embedding of the core of [minicons/execution.py] and of the
    registration and storage code of [minicons/__init__.py], together with
    the properties of the graph resolver, the dirty propagator, the serial
    scheduler, the builder registry and the metadata store. *)

From Stdlib Require Import String Ascii List Bool Arith Lia Permutation.
Import ListNotations.

Set Implicit Arguments.

(** ** Python values *)

(** Exceptions the modelled code can raise. *)
Inductive Exception : Type :=
| DependencyError (msg : string)
| KeyError
| TypeError
| ValueError
| FileNotFoundError
| OperationalError
| IntegrityError.

(** The outcome of running a piece of Python code: a returned value, a raised
    exception, or [Diverges] when the loop budget of the model is exhausted
    (Python itself would keep running). *)
Inductive outcome (A : Type) : Type :=
| Return (a : A)
| Raise (e : Exception)
| Diverges.
Arguments Raise {A} e.
Arguments Diverges {A}.

Definition bind {A B : Type} (m : outcome A) (k : A -> outcome B) : outcome B :=
  match m with
  | Return a => k a
  | Raise e => Raise e
  | Diverges => Diverges
  end.

Notation "'do' x <- m ; k" := (bind m (fun x => k))
  (at level 10, x pattern, m at level 100, k at level 200).

(** ** Insertion-ordered dictionaries

    A Python [dict] keeps its keys in insertion order; assigning to a key
    that is present replaces the value in place. *)
Module Dict.
Section Dict.
Variables K V : Type.
Variable K_eq_dec : forall a b : K, {a = b} + {a <> b}.

Definition t := list (K * V).

Fixpoint get (d : t) (k : K) : option V :=
  match d with
  | [] => None
  | (k', v) :: d' => if K_eq_dec k k' then Some v else get d' k
  end.

Fixpoint set (d : t) (k : K) (v : V) : t :=
  match d with
  | [] => [(k, v)]
  | (k', v') :: d' =>
      if K_eq_dec k k' then (k', v) :: d' else (k', v') :: set d' k v
  end.

Definition keys (d : t) : list K := map fst d.
Definition values (d : t) : list V := map snd d.

Lemma get_set_eq d k v : get (set d k v) k = Some v.
Proof.
  induction d as [|[k' v'] d IH]; simpl.
  - destruct (K_eq_dec k k); congruence.
  - destruct (K_eq_dec k k') as [->|Hne]; simpl.
    + destruct (K_eq_dec k' k'); congruence.
    + destruct (K_eq_dec k k'); congruence.
Qed.

Lemma get_set_neq d k k' v : k' <> k -> get (set d k v) k' = get d k'.
Proof.
  intros Hne. induction d as [|[k0 v0] d IH]; simpl.
  - destruct (K_eq_dec k' k); congruence.
  - destruct (K_eq_dec k k0) as [->|Hk]; simpl.
    + destruct (K_eq_dec k' k0); congruence.
    + destruct (K_eq_dec k' k0); congruence.
Qed.

Lemma get_set d k k' v :
  get (set d k v) k' = if K_eq_dec k' k then Some v else get d k'.
Proof.
  destruct (K_eq_dec k' k) as [->|Hne].
  - apply get_set_eq.
  - now apply get_set_neq.
Qed.

Lemma get_some_in d k v : get d k = Some v -> In (k, v) d.
Proof.
  induction d as [|[k' v'] d IH]; simpl; [discriminate|].
  destruct (K_eq_dec k k') as [->|Hne].
  - intros [= ->]. now left.
  - intros H. right. auto.
Qed.

Lemma in_get_some d k v : In (k, v) d -> exists v', get d k = Some v'.
Proof.
  induction d as [|[k' v'] d IH]; simpl; [tauto|].
  intros [[= -> ->]|H].
  - destruct (K_eq_dec k k); [eauto|congruence].
  - destruct (K_eq_dec k k'); eauto.
Qed.

Lemma keys_set d k v :
  forall k', In k' (keys (set d k v)) <-> k' = k \/ In k' (keys d).
Proof.
  unfold keys. induction d as [|[k0 v0] d IH]; simpl; intros k'.
  - intuition.
  - destruct (K_eq_dec k k0) as [->|Hne]; simpl.
    + intuition.
    + rewrite IH. intuition.
Qed.
End Dict.
End Dict.

(** ** Python sets

  A [set] is kept as a duplicate-free list.  Python does not specify the
  order in which a set is iterated, so every iteration over a set goes
  through an arbitrary reordering [set_order], fixed further down. *)
Section PySet.
Variable A : Type.
Variable A_eq_dec : forall a b : A, {a = b} + {a <> b}.

Definition set_mem (x : A) (s : list A) : bool :=
  if in_dec A_eq_dec x s then true else false.

Definition set_add (x : A) (s : list A) : list A :=
  if in_dec A_eq_dec x s then s else s ++ [x].

(** [s.update(xs)] *)
Definition set_update (s : list A) (xs : list A) : list A :=
  fold_left (fun acc x => set_add x acc) xs s.

(** [set(xs)] *)
Definition set_of (xs : list A) : list A := set_update [] xs.

(** [s.remove(x)] raises [KeyError] when [x] is absent. *)
Definition set_remove (x : A) (s : list A) : outcome (list A) :=
  if in_dec A_eq_dec x s then Return (remove A_eq_dec x s) else Raise KeyError.

Lemma set_mem_true x s : set_mem x s = true <-> In x s.
Proof. unfold set_mem. destruct (in_dec A_eq_dec x s); intuition congruence. Qed.

Lemma set_mem_false x s : set_mem x s = false <-> ~ In x s.
Proof. unfold set_mem. destruct (in_dec A_eq_dec x s); intuition congruence. Qed.

Lemma set_add_in x s y : In y (set_add x s) <-> y = x \/ In y s.
Proof.
  unfold set_add. destruct (in_dec A_eq_dec x s).
  - intuition (subst; auto).
  - rewrite in_app_iff. simpl. intuition.
Qed.

Lemma set_add_nodup x s : NoDup s -> NoDup (set_add x s).
Proof.
  unfold set_add. intros H. destruct (in_dec A_eq_dec x s); auto.
  apply NoDup_app; auto.
  - constructor; [intros []|constructor].
  - intros y Hy [<-|[]]. contradiction.
Qed.

Lemma set_update_in xs : forall s y, In y (set_update s xs) <-> In y s \/ In y xs.
Proof.
  unfold set_update. induction xs as [|x xs IH]; simpl; intros s y.
  - intuition.
  - rewrite IH, set_add_in. intuition.
Qed.

Lemma set_update_nodup xs : forall s, NoDup s -> NoDup (set_update s xs).
Proof.
  unfold set_update. induction xs as [|x xs IH]; simpl; intros s H; auto.
  apply IH. now apply set_add_nodup.
Qed.

Lemma set_of_in xs y : In y (set_of xs) <-> In y xs.
Proof. unfold set_of. rewrite set_update_in. simpl. intuition. Qed.

Lemma set_of_nodup xs : NoDup (set_of xs).
Proof. apply set_update_nodup. constructor. Qed.

Lemma remove_in x s y : In y (remove A_eq_dec x s) <-> In y s /\ y <> x.
Proof.
  split.
  - intros H. apply in_remove in H. tauto.
  - intros [H1 H2]. now apply in_in_remove.
Qed.

Lemma remove_nodup x s : NoDup s -> NoDup (remove A_eq_dec x s).
Proof.
  induction 1 as [|y s Hy Hs IH]; simpl; [constructor|].
  destruct (A_eq_dec x y); auto.
  constructor; auto. rewrite remove_in. tauto.
Qed.
End PySet.

(** ** The node model *)

(** A node is a [File] or a [Dir] (the two kinds of [Entry], identified by
    their path: [Entry.__eq__] compares the class and the path) or a
    [FileSet], which has no path and is identified by its instance. *)
Inductive Node : Type :=
| File (path : string)
| Dir (path : string)
| FileSet (ident : nat).

(** Builders are compared by identity. *)
Definition Builder : Type := nat.

Definition Node_eq_dec : forall a b : Node, {a = b} + {a <> b}.
Proof. decide equality; first [apply string_dec | apply Nat.eq_dec]. Defined.

(** [isinstance(node, Entry)] *)
Definition is_entry (n : Node) : bool :=
  match n with
  | File _ | Dir _ => true
  | FileSet _ => false
  end.

(** [isinstance(node, Dir)] *)
Definition is_dir (n : Node) : bool :=
  match n with
  | Dir _ => true
  | _ => false
  end.

(** The path of an entry, as a string. *)
Definition path_of (n : Node) : option string :=
  match n with
  | File p | Dir p => Some p
  | FileSet _ => None
  end.

(** The mutable attributes of a node object and of a builder object. *)
Record NodeObj : Type := mkNodeObj {
  depends : list Node;
  builder : option Builder
}.

Record BuilderObj : Type := mkBuilderObj {
  b_depends : list Node;
  builds : list Node
}.

(** The object heap: the attributes of every node and builder that has been
    touched.  An object that is absent has the attributes its constructor
    gives it: no dependencies, no builder, nothing built. *)
Record Heap : Type := mkHeap {
  node_objs : Dict.t Node NodeObj;
  builder_objs : Dict.t Builder BuilderObj
}.

Definition node_obj (h : Heap) (n : Node) : NodeObj :=
  match Dict.get Node_eq_dec (node_objs h) n with
  | Some o => o
  | None => mkNodeObj [] None
  end.

Definition builder_obj (h : Heap) (b : Builder) : BuilderObj :=
  match Dict.get Nat.eq_dec (builder_objs h) b with
  | Some o => o
  | None => mkBuilderObj [] []
  end.

Definition node_depends (h : Heap) (n : Node) : list Node := depends (node_obj h n).
Definition node_builder (h : Heap) (n : Node) : option Builder := builder (node_obj h n).
Definition builder_depends (h : Heap) (b : Builder) : list Node := b_depends (builder_obj h b).
Definition builder_builds (h : Heap) (b : Builder) : list Node := builds (builder_obj h b).

(** ** The graph resolver ([execution.py]) *)

(** A [defaultdict(list)]: reading a missing key gives the empty list. *)
Definition dd_get (d : Dict.t Node (list Node)) (k : Node) : list Node :=
  match Dict.get Node_eq_dec d k with
  | Some v => v
  | None => []
  end.

(** [d[k].append(v)] on a [defaultdict(list)] *)
Definition dd_append (d : Dict.t Node (list Node)) (k v : Node) : Dict.t Node (list Node) :=
  Dict.set Node_eq_dec d k (dd_get d k ++ [v]).

(** The set [dependencies] that [_traverse_node_graph] computes for the node
    it is visiting: its own [depends], the [depends] of its builder, and the
    [depends] of every output of that builder. *)
Definition dependencies (h : Heap) (visiting : Node) : list Node :=
  let own := set_of Node_eq_dec (node_depends h visiting) in
  match node_builder h visiting with
  | Some b =>
      fold_left (fun deps sibling => set_update Node_eq_dec deps (node_depends h sibling))
                (builder_builds h b)
                (set_update Node_eq_dec own (builder_depends h b))
  | None => own
  end.

(** The state of the traversal loop.  [to_visit] is a Python list used as a
    stack ([append] and [pop] at its end): it is kept here with its last
    element first. *)
Record TraverseState : Type := mkTraverse {
  reachable_entries : list Node;
  tr_edges : Dict.t Node (list Node);
  seen : list Node;
  to_visit : list Node
}.

(** The traversal loop is the same in [_traverse_node_graph] and in
    [_traverse_entry_graph] of [__init__.py]; the two differ in the
    dependencies [deps_of] they compute for the node they visit. *)
Section Traverse.

Variable deps_of : Node -> list Node.

(** The body of [for dep in dependencies]. *)
Definition traverse_dep (visiting : Node) (seen : list Node)
    (acc : Dict.t Node (list Node) * list Node) (dep : Node)
    : Dict.t Node (list Node) * list Node :=
  (dd_append (fst acc) visiting dep,
   if set_mem Node_eq_dec dep seen then snd acc else dep :: snd acc).

(** One turn of [while to_visit]. *)
Definition traverse_step (st : TraverseState) (visiting : Node)
    (rest : list Node) : TraverseState :=
  let reachable := reachable_entries st ++ [visiting] in
  let seen' := set_add Node_eq_dec visiting (seen st) in
  let acc :=
    fold_left (traverse_dep visiting seen') (deps_of visiting) (tr_edges st, rest) in
  mkTraverse reachable (fst acc) seen' (snd acc).

Fixpoint traverse_loop (fuel : nat) (st : TraverseState)
    : outcome (list Node * Dict.t Node (list Node)) :=
  match to_visit st with
  | [] => Return (reachable_entries st, tr_edges st)
  | visiting :: rest =>
      match fuel with
      | 0 => Diverges
      | S fuel' => traverse_loop fuel' (traverse_step st visiting rest)
      end
  end.

(** A bound on the number of turns of the loop, over the nodes [universe]
    that can be met: every target is popped once, and every visit of a node
    pushes at most its dependencies. *)
Definition traverse_budget (universe : list Node) (targets : list Node) : nat :=
  length targets
  + list_sum (map (fun n => length (deps_of n)) (nodup Node_eq_dec universe)).

Definition traverse (universe : list Node) (targets : list Node)
    : outcome (list Node * Dict.t Node (list Node)) :=
  traverse_loop (traverse_budget universe targets)
                (mkTraverse [] [] [] (rev targets)).

End Traverse.

(** Every node the heap mentions. *)
Definition heap_nodes (h : Heap) : list Node :=
  Dict.keys (node_objs h)
  ++ flat_map (fun o => depends o) (Dict.values (node_objs h))
  ++ flat_map (fun o => b_depends o ++ builds o) (Dict.values (builder_objs h)).

Section Resolver.

(** The order in which Python iterates over a set. *)
Variable set_order : list Node -> list Node.

Definition _traverse_node_graph (h : Heap) (targets : list Node)
    : outcome (list Node * Dict.t Node (list Node)) :=
  traverse (fun visiting => set_order (dependencies h visiting))
           (heap_nodes h) targets.

(** The state of the loop of [_sort_dag].  [leaf_nodes] is a stack like
    [to_visit] above, kept with its last element first.  [edges] and
    [reverse_edges] are [defaultdict(set)]s: reading a missing key gives the
    empty set (and inserts it, which no later read tells from a missing key,
    so the insertion is left out). *)
Record SortState : Type := mkSort {
  st_edges : Dict.t Node (list Node);
  st_reverse : Dict.t Node (list Node);
  sorted_nodes : list Node;
  leaf_nodes : list Node
}.

(** [edges = defaultdict(set, ((e, set(deps)) for e, deps in edges_orig.items()))] *)
Definition copy_edges (edges_orig : Dict.t Node (list Node)) : Dict.t Node (list Node) :=
  fold_left (fun d '(e, deps) => Dict.set Node_eq_dec d e (set_of Node_eq_dec deps))
            edges_orig [].

(** [reverse_edges[dep].add(e)] for every [dep] of every [e]. *)
Definition build_reverse (edges : Dict.t Node (list Node)) : Dict.t Node (list Node) :=
  fold_left
    (fun r '(e, deps) =>
       fold_left (fun r dep => Dict.set Node_eq_dec r dep (set_add Node_eq_dec e (dd_get r dep)))
                 (set_order deps) r)
    edges [].

(** The body of [for m in list(reverse_edges[node])]. *)
Definition sort_relax (node : Node) (acc : outcome SortState) (m : Node)
    : outcome SortState :=
  do st <- acc;
  do r <- set_remove Node_eq_dec m (dd_get (st_reverse st) node);
  do e <- set_remove Node_eq_dec node (dd_get (st_edges st) m);
  Return (mkSort (Dict.set Node_eq_dec (st_edges st) m e)
                 (Dict.set Node_eq_dec (st_reverse st) node r)
                 (sorted_nodes st)
                 (match e with [] => m :: leaf_nodes st | _ => leaf_nodes st end)).

(** One turn of [while leaf_nodes]. *)
Definition sort_step (st : SortState) (node : Node) (rest : list Node)
    : outcome SortState :=
  fold_left (sort_relax node)
            (set_order (dd_get (st_reverse st) node))
            (Return (mkSort (st_edges st) (st_reverse st)
                            (sorted_nodes st ++ [node]) rest)).

Fixpoint sort_loop (fuel : nat) (st : SortState) : outcome SortState :=
  match leaf_nodes st with
  | [] => Return st
  | node :: rest =>
      match fuel with
      | 0 => Diverges
      | S fuel' => do st' <- sort_step st node rest; sort_loop fuel' st'
      end
  end.

(** [str(node)] *)
Variable node_str : Node -> string.

Definition newline : string := String (ascii_of_nat 10) EmptyString.

(** The lines of the cycle message: one per edge that is left. *)
Definition cycle_lines (edges : Dict.t Node (list Node)) : list string :=
  flat_map (fun '(n, deps) =>
              map (fun dep => (node_str n ++ " → " ++ node_str dep)%string)
                  (set_order deps))
           (filter (fun '(_, deps) => match deps with [] => false | _ => true end) edges).

Definition cycle_message (edges : Dict.t Node (list Node)) : string :=
  ("Dependency graph has cycles:" ++ newline
   ++ String.concat newline (cycle_lines edges))%string.

(** The number of edges of a graph. *)
Definition edge_count (edges : Dict.t Node (list Node)) : nat :=
  list_sum (map (fun '(_, deps) => length deps) edges).

Definition _sort_dag (nodes : list Node) (edges_orig : Dict.t Node (list Node))
    : outcome (list Node) :=
  let edges := copy_edges edges_orig in
  let reverse_edges := build_reverse edges in
  let leaves :=
    filter (fun n => match Dict.get Node_eq_dec edges n with
                     | None | Some [] => true
                     | Some _ => false
                     end) nodes in
  do st <- sort_loop (length leaves + edge_count edges)
                     (mkSort edges reverse_edges [] (rev leaves));
  if existsb (fun deps => match deps with [] => false | _ => true end)
             (Dict.values (st_edges st))
  then Raise (DependencyError (cycle_message (st_edges st)))
  else Return (sorted_nodes st).

End Resolver.

#[local] Set Warnings "-register-all".

(** ** Signatures and the filesystem *)

(** The metadata of an entry and the signature of a node are JSON values:
    booleans, numbers and dictionaries with string keys. *)
Inductive Meta : Type :=
| MBool (b : bool)
| MNum (n : nat)
| MDict (items : list (string * Meta)).

(** Python's [==] on these values.  [bool] is a subclass of [int]: [True]
    equals [1] and [False] equals [0].  Two dictionaries are equal when they
    have the same keys with equal values, in any order. *)
Fixpoint meta_eqb (a b : Meta) {struct a} : bool :=
  match a, b with
  | MBool x, MBool y => Bool.eqb x y
  | MNum x, MNum y => Nat.eqb x y
  | MBool x, MNum y => Nat.eqb (Nat.b2n x) y
  | MNum x, MBool y => Nat.eqb x (Nat.b2n y)
  | MDict xs, MDict ys =>
      Nat.eqb (length xs) (length ys)
      && (fix all_in (l : list (string * Meta)) : bool :=
            match l with
            | [] => true
            | (k, v) :: l' =>
                match Dict.get string_dec ys k with
                | Some v' => meta_eqb v v'
                | None => false
                end && all_in l'
            end) xs
  | _, _ => false
  end.

(** [old_metadata == new_metadata] where [old_metadata] may be [None]. *)
Definition opt_meta_eqb (old : option Meta) (new : Meta) : bool :=
  match old with
  | Some m => meta_eqb m new
  | None => false
  end.

(** What [os.stat] reports. *)
Record StatResult : Type := mkStat {
  st_mtime : nat;
  is_reg : bool;
  is_directory : bool
}.

(** A snapshot of the filesystem.  [os_stat p] is [None] when nothing exists
    at [p] ([Path.exists] is false).  [entry_metadata n] is what
    [n.get_metadata()] returns on it: [execution.py] takes its entry classes
    from [minicons.entry], which is not among the sources, so the method is a
    parameter of the model and nothing is assumed about it. *)
Record FileSystem : Type := mkFS {
  os_stat : string -> option StatResult;
  entry_metadata : Node -> outcome Meta
}.

(** [path.exists()] *)
Definition path_exists (fs : FileSystem) (p : string) : bool :=
  match os_stat fs p with
  | Some _ => true
  | None => false
  end.

(** [entry.get_metadata()] *)
Definition get_metadata (fs : FileSystem) (n : Node) : outcome Meta :=
  entry_metadata fs n.

(** [node.path.exists()] *)
Definition node_exists (fs : FileSystem) (n : Node) : bool :=
  match path_of n with
  | Some p => path_exists fs p
  | None => false
  end.

(** ** The metadata store

    The table [file_metadata (path text PRIMARY KEY, metadata text)].  A row
    holds the JSON text of a signature; it is kept here as the value that
    text denotes. *)
Definition Table : Type := Dict.t string Meta.

(** The conflict clauses SQLite accepts after [INSERT OR]. *)
Inductive ConflictClause : Type := ROLLBACK | ABORT | FAIL | IGNORE | REPLACE.

Definition parse_conflict (keyword : string) : option ConflictClause :=
  if string_dec keyword "ROLLBACK" then Some ROLLBACK
  else if string_dec keyword "ABORT" then Some ABORT
  else if string_dec keyword "FAIL" then Some FAIL
  else if string_dec keyword "IGNORE" then Some IGNORE
  else if string_dec keyword "REPLACE" then Some REPLACE
  else None.

(** [DELETE FROM file_metadata WHERE path = ?] *)
Definition delete_row (t : Table) (path : string) : Table :=
  filter (fun row => if string_dec (fst row) path then false else true) t.

(** [INSERT OR <keyword> INTO file_metadata (path, metadata) VALUES (?, ?)]:
    a keyword that is no conflict clause is a syntax error, which [sqlite3]
    raises as [OperationalError]; a row that breaks the primary key is
    handled as the clause says ([REPLACE] deletes the old row first). *)
Definition insert_or (keyword : string) (t : Table) (path : string) (metadata : Meta)
    : outcome Table :=
  match parse_conflict keyword with
  | None => Raise OperationalError
  | Some REPLACE => Return (delete_row t path ++ [(path, metadata)])
  | Some IGNORE =>
      match Dict.get string_dec t path with
      | Some _ => Return t
      | None => Return (t ++ [(path, metadata)])
      end
  | Some _ =>
      match Dict.get string_dec t path with
      | Some _ => Raise IntegrityError
      | None => Return (t ++ [(path, metadata)])
      end
  end.

(** [SELECT metadata FROM file_metadata WHERE path=?], first row. *)
Definition select_metadata (t : Table) (path : string) : option Meta :=
  Dict.get string_dec t path.

(** [Execution._set_metadata] of [execution.py]: [INSERT OR REPLACE INTO ...] *)
Definition _set_metadata (db : Table) (path : string) (metadata : Meta) : outcome Table :=
  insert_or "REPLACE" db path metadata.

(** [Execution._get_metadata] of [execution.py] *)
Definition _get_metadata (db : Table) (path : string) : option Meta :=
  select_metadata db path.

(** ** Preparing a build ([execution.py]) *)

(** The fields of [Execution] the build reads. *)
Record Execution : Type := mkExecution {
  root : string;
  aliases : Dict.t string (list Node);
  entries : Dict.t string Node;
  metadata_db : Table
}.

(** What may be passed as targets: a [Path], a [Node], a string, an object
    with a [target] attribute, an iterable of those, or anything else. *)
Inductive Args : Type :=
| ArgPath (p : string)
| ArgNode (n : Node)
| ArgStr (s : string)
| ArgTarget (target : Args)
| ArgIter (items : list Args)
| ArgOther.

(** The text between the slashes of a path string. *)
Fixpoint split_slash (s : string) : list string :=
  match s with
  | EmptyString => [EmptyString]
  | String c rest =>
      if Ascii.eqb c "/"%char
      then EmptyString :: split_slash rest
      else match split_slash rest with
           | [] => [String c EmptyString]
           | part :: parts => String c part :: parts
           end
  end.

(** The parts of a POSIX path: empty components and [.] are dropped. *)
Definition path_parts (s : string) : list string :=
  filter (fun part => negb (String.eqb part ""%string || String.eqb part "."%string))
         (split_slash s).

(** The root of a POSIX path: [/], or [//] when the string starts with
    exactly two slashes, or nothing for a relative path. *)
Definition path_root (s : string) : string :=
  match s with
  | String "/"%char (String "/"%char (String "/"%char _)) => "/"%string
  | String "/"%char (String "/"%char _) => "//"%string
  | String "/"%char _ => "/"%string
  | _ => ""%string
  end.

(** [str] of the path with the given root and parts. *)
Definition path_text (root : string) (parts : list string) : string :=
  match root, parts with
  | EmptyString, [] => "."%string
  | _, _ => (root ++ String.concat "/" parts)%string
  end.

(** [str(root.joinpath(s))] with [pathlib]'s POSIX paths: an absolute [s]
    replaces [root], and the result is in normal form (no empty or [.]
    component, no slash at the end). *)
Definition joinpath (root s : string) : string :=
  match s with
  | String "/"%char _ => path_text (path_root s) (path_parts s)
  | _ => path_text (path_root root) (path_parts root ++ path_parts s)
  end.

(** [self.entries[p]] *)
Definition entries_item (e : Execution) (p : string) : outcome Node :=
  match Dict.get string_dec (entries e) p with
  | Some n => Return n
  | None => Raise KeyError
  end.

(** [list(self._args_to_nodes(args))].  An alias holds nodes, which resolve
    to themselves. *)
Fixpoint _args_to_nodes (e : Execution) (args : Args) : outcome (list Node) :=
  match args with
  | ArgPath p => do n <- entries_item e p; Return [n]
  | ArgNode n => Return [n]
  | ArgStr s =>
      match Dict.get string_dec (aliases e) s with
      | Some nodes => Return nodes
      | None => do n <- entries_item e (joinpath (root e) s); Return [n]
      end
  | ArgTarget target => _args_to_nodes e target
  | ArgIter items =>
      (fix each (l : list Args) : outcome (list Node) :=
         match l with
         | [] => Return []
         | item :: l' =>
             do ns <- _args_to_nodes e item;
             do ns' <- each l';
             Return (ns ++ ns')
         end) items
  | ArgOther => Raise TypeError
  end.

Record PreparedBuild : Type := mkPreparedBuild {
  ordered_nodes : list Node;
  buildable_entries : list Node;
  edges : Dict.t Node (list Node);
  out_of_date : list Node;
  changed : list Node;
  entry_dependencies : Dict.t Node (list Node);
  targets : list Node
}.

(** The walk that collects the entries below one node.  It keeps no set of
    visited nodes and takes one turn per dependency path; [fuel] bounds the
    turns. *)
Fixpoint dependency_walk (fuel : nat) (edges : Dict.t Node (list Node))
    (found : list Node) (to_visit : list Node) : outcome (list Node) :=
  match to_visit with
  | [] => Return found
  | v :: rest =>
      match fuel with
      | 0 => Diverges
      | S fuel' =>
          dependency_walk fuel' edges
            (if is_entry v then set_add Node_eq_dec v found else found)
            (rev (dd_get edges v) ++ rest)
      end
  end.

(** [all_dependencies], for every node of [all_nodes]. *)
Definition collect_dependencies (fuel : nat) (edges : Dict.t Node (list Node))
    (all_nodes : list Node) : outcome (Dict.t Node (list Node)) :=
  fold_left (fun acc node =>
               do all_dependencies <- acc;
               do found <- dependency_walk fuel edges [] (rev (dd_get edges node));
               Return (Dict.set Node_eq_dec all_dependencies node found))
            all_nodes (Return []).

(** [d[k]] on a plain [dict]: a missing key raises [KeyError]. *)
Definition dict_item (d : Dict.t Node (list Node)) (k : Node) : outcome (list Node) :=
  match Dict.get Node_eq_dec d k with
  | Some v => Return v
  | None => Raise KeyError
  end.

(** [{str(e.path): metadata[e] for e in nodes}] *)
Definition _metadata_signature (metadata : Dict.t Node Meta) (nodes : list Node)
    : outcome Meta :=
  do items <-
    fold_left (fun acc e =>
                 do sig <- acc;
                 match Dict.get Node_eq_dec metadata e, path_of e with
                 | Some m, Some p => Return (Dict.set string_dec sig p m)
                 | _, _ => Raise KeyError
                 end)
              nodes (Return []);
  Return (MDict items).

(** [d.get(key)] on a signature. *)
Definition meta_get (m : Meta) (key : string) : option Meta :=
  match m with
  | MDict items => Dict.get string_dec items key
  | _ => None
  end.

Definition opt_meta_neb (a b : option Meta) : bool :=
  match a, b with
  | Some x, Some y => negb (meta_eqb x y)
  | None, None => false
  | _, _ => true
  end.

Section Prepare.

Variable set_order : list Node -> list Node.
Variable node_str : Node -> string.

(** The loop that gathers the metadata of every entry. *)
Definition gather_metadata (h : Heap) (fs : FileSystem) (entry_nodes : list Node)
    : outcome (Dict.t Node Meta) :=
  fold_left (fun acc entry =>
               do metadata <- acc;
               match node_builder h entry with
               | None =>
                   if negb (node_exists fs entry)
                   then Raise (DependencyError
                     ("Path " ++ node_str entry
                      ++ " required but not present on filesystem and no builder defined"))
                   else do m <- get_metadata fs entry;
                        Return (Dict.set Node_eq_dec metadata entry m)
               | Some _ =>
                   do m <- get_metadata fs entry;
                   Return (Dict.set Node_eq_dec metadata entry m)
               end)
            (set_order entry_nodes) (Return []).

(** The body of the loop that compares signatures: the pair is
    [(outdated, changed)]. *)
Definition check_node (h : Heap) (e : Execution) (fs : FileSystem)
    (metadata : Dict.t Node Meta) (all_dependencies : Dict.t Node (list Node))
    (acc : outcome (list Node * list Node)) (node : Node)
    : outcome (list Node * list Node) :=
  do (outdated, changed) <- acc;
  match is_entry node, node_builder h node, path_of node with
  | true, Some _, Some path =>
      if negb (path_exists fs path)
      then Return (set_add Node_eq_dec node outdated, changed)
      else
        let old_metadata := _get_metadata (metadata_db e) path in
        do deps <- dict_item all_dependencies node;
        do new_metadata <- _metadata_signature metadata (set_order deps);
        if opt_meta_eqb old_metadata new_metadata
        then Return (outdated, changed)
        else
          Return (set_add Node_eq_dec node outdated,
                  fold_left (fun changed dep =>
                               match old_metadata, path_of dep with
                               | Some old, Some p =>
                                   if opt_meta_neb (meta_get old p) (meta_get new_metadata p)
                                   then set_add Node_eq_dec dep changed
                                   else changed
                               | _, _ => changed
                               end)
                            (set_order deps) changed)
  | _, _, _ => Return (outdated, changed)
  end.

Definition prepare_build (fuel : nat) (h : Heap) (e : Execution) (fs : FileSystem)
    (targets : Args) : outcome PreparedBuild :=
  do target_nodes <- _args_to_nodes e targets;
  do (all_nodes, edges) <- _traverse_node_graph set_order h target_nodes;
  do ordered_nodes <- _sort_dag set_order node_str all_nodes edges;
  let entry_nodes := set_of Node_eq_dec (filter is_entry all_nodes) in
  do all_dependencies <- collect_dependencies fuel edges all_nodes;
  do metadata <- gather_metadata h fs entry_nodes;
  do (outdated, changed) <-
    fold_left (check_node h e fs metadata all_dependencies) all_nodes (Return ([], []));
  Return (mkPreparedBuild
            ordered_nodes
            (set_of Node_eq_dec
               (filter (fun n => is_entry n
                                 && match node_builder h n with Some _ => true | None => false end)
                       ordered_nodes))
            edges outdated changed all_dependencies target_nodes).

End Prepare.

(** ** The dirty propagator ([PreparedBuild.get_to_build]) *)

(** The first loop: a node one of whose dependencies is to be built is to be
    built. *)
Definition downward_pass (edges : Dict.t Node (list Node)) (ordered : list Node)
    (to_build : list Node) : list Node :=
  fold_left (fun to_build node =>
               if existsb (fun d => set_mem Node_eq_dec d to_build) (dd_get edges node)
               then set_add Node_eq_dec node to_build
               else to_build)
            ordered to_build.

(** The second loop, over [reversed(self.ordered_nodes)]: the dependencies of
    a node to be built that are no entries are to be built. *)
Definition upward_pass (edges : Dict.t Node (list Node)) (ordered : list Node)
    (to_build : list Node) : list Node :=
  fold_left (fun to_build node =>
               if set_mem Node_eq_dec node to_build
               then set_update Node_eq_dec to_build
                      (filter (fun d => negb (is_entry d)) (dd_get edges node))
               else to_build)
            (rev ordered) to_build.

Definition get_to_build (pb : PreparedBuild) : list Node :=
  let to_build := set_of Node_eq_dec (out_of_date pb) in
  let to_build := downward_pass (edges pb) (ordered_nodes pb) to_build in
  upward_pass (edges pb) (ordered_nodes pb) to_build.

(** ** The serial scheduler ([Execution.build_targets]) *)

(** What a build has done so far: the filesystem and the metadata table it
    has reached, the metadata cache, the nodes that count as built, and the
    builders [_call_builder] was called with, oldest first. *)
Record BuildState : Type := mkBuild {
  bs_fs : FileSystem;
  bs_db : Table;
  metadata_cache : Dict.t Node Meta;
  built_nodes : list Node;
  calls : list Builder
}.

Section Scheduler.

Variable set_order : list Node -> list Node.
Variable node_str : Node -> string.

(** [entry.remove()] and [entry.prepare()] *)
Variable remove_entry : FileSystem -> Node -> FileSystem.
Variable prepare_entry : FileSystem -> Node -> FileSystem.

(** [builder.build()], the recipe of the user: the filesystem it leaves and
    how it ended. *)
Variable run_build : Builder -> FileSystem -> FileSystem * outcome unit.

(** [str(builder)] *)
Variable builder_str : Builder -> string.

(** [self._call_builder(builder, dry_run)] *)
Definition _call_builder (h : Heap) (builder : Builder) (dry_run : bool)
    (st : BuildState) : BuildState * outcome unit :=
  let outputs := filter is_entry (builder_builds h builder) in
  let fs1 :=
    if dry_run then bs_fs st
    else fold_left prepare_entry outputs (fold_left remove_entry outputs (bs_fs st)) in
  let called fs := mkBuild fs (bs_db st) (metadata_cache st) (built_nodes st)
                           (calls st ++ [builder]) in
  if dry_run then (called fs1, Return tt)
  else
    match run_build builder fs1 with
    | (fs2, Raise e) => (called fs2, Raise e)
    | (fs2, Diverges) => (called fs2, Diverges)
    | (fs2, Return _) =>
        match find (fun entry => negb (node_exists fs2 entry)) outputs with
        | Some entry =>
            (called fs2,
             Raise (DependencyError ("Builder " ++ builder_str builder
                                     ++ " didn't output " ++ node_str entry)))
        | None => (called fs2, Return tt)
        end
    end.

(** The body of [for built_entry in builder.builds] in
    [_update_builder_metadata]. *)
Definition update_entry_metadata (entry_dependencies : Dict.t Node (list Node))
    (acc : BuildState * outcome unit) (built_entry : Node)
    : BuildState * outcome unit :=
  match acc, path_of built_entry, dict_item entry_dependencies built_entry with
  | (st, Return _), Some path, Raise e => (st, Raise e)
  | (st, Return _), Some path, Diverges => (st, Diverges)
  | (st, Return _), Some path, Return found =>
      let deps := set_order found in
      let filled :=
        fold_left (fun acc dep =>
                     do cache <- acc;
                     match Dict.get Node_eq_dec cache dep with
                     | Some _ => Return cache
                     | None => do m <- get_metadata (bs_fs st) dep;
                               Return (Dict.set Node_eq_dec cache dep m)
                     end)
                  deps (Return (metadata_cache st)) in
      match filled with
      | Return cache =>
          match do sig <- _metadata_signature cache deps;
                _set_metadata (bs_db st) path sig with
          | Return db => (mkBuild (bs_fs st) db cache (built_nodes st) (calls st), Return tt)
          | Raise e => (mkBuild (bs_fs st) (bs_db st) cache (built_nodes st) (calls st), Raise e)
          | Diverges => (st, Diverges)
          end
      | Raise e => (st, Raise e)
      | Diverges => (st, Diverges)
      end
  | _, _, _ => acc
  end.

Definition _update_builder_metadata (h : Heap) (builder : Builder)
    (entry_dependencies : Dict.t Node (list Node)) (st : BuildState)
    : BuildState * outcome unit :=
  fold_left (update_entry_metadata entry_dependencies) (builder_builds h builder) (st, Return tt).

(** The body of [for node in ordered_nodes] when there is no executor. *)
Definition serial_step (h : Heap) (dry_run : bool) (to_build : list Node)
    (entry_dependencies : Dict.t Node (list Node))
    (acc : BuildState * outcome unit) (node : Node)
    : BuildState * outcome unit :=
  match acc with
  | (st, Raise e) => (st, Raise e)
  | (st, Diverges) => (st, Diverges)
  | (st, Return _) =>
      match node_builder h node with
      | Some builder =>
          if set_mem Node_eq_dec node to_build
             && negb (set_mem Node_eq_dec node (built_nodes st))
          then
            match _call_builder h builder dry_run st with
            | (st1, Raise e) => (st1, Raise e)
            | (st1, Diverges) => (st1, Diverges)
            | (st1, Return _) =>
                let st2 := mkBuild (bs_fs st1) (bs_db st1) (metadata_cache st1)
                             (set_update Node_eq_dec (built_nodes st1) (builder_builds h builder))
                             (calls st1) in
                if dry_run then (st2, Return tt)
                else _update_builder_metadata h builder entry_dependencies st2
            end
          else (st, Return tt)
      | None => (st, Return tt)
      end
  end.

(** [build_targets(prepared_build=pb, dry_run=dry_run)] with [parallel] left
    at [False]: the state the build ends in, and how it ended. *)
Definition build_prepared (h : Heap) (e : Execution) (fs : FileSystem)
    (pb : PreparedBuild) (dry_run : bool) : BuildState * outcome unit :=
  let to_build := get_to_build pb in
  let st0 := mkBuild fs (metadata_db e) [] [] [] in
  match to_build with
  | [] => (st0, Return tt)
  | _ => fold_left (serial_step h dry_run to_build (entry_dependencies pb))
                   (ordered_nodes pb) (st0, Return tt)
  end.

(** [build_targets(targets, prepared_build, dry_run)], serial. *)
Definition build_targets (fuel : nat) (h : Heap) (e : Execution) (fs : FileSystem)
    (targets : option Args) (prepared_build : option PreparedBuild) (dry_run : bool)
    : BuildState * outcome unit :=
  let st0 := mkBuild fs (metadata_db e) [] [] [] in
  match prepared_build, targets with
  | None, None => (st0, Raise ValueError)
  | Some _, Some _ => (st0, Raise ValueError)
  | Some pb, None => build_prepared h e fs pb dry_run
  | None, Some targets =>
      match prepare_build set_order node_str fuel h e fs targets with
      | Return pb => build_prepared h e fs pb dry_run
      | Raise ex => (st0, Raise ex)
      | Diverges => (st0, Diverges)
      end
  end.

End Scheduler.

(** ** [minicons/__init__.py]: the builder registry, the store and the
    resolution of targets *)
Module Init.

(** What [Builder.get_targets] returns: one entry, or several items. *)
Inductive Targets : Type :=
| OneEntry (e : Node)
| Several (items : list Node).

(** The registry: the object heap and [Execution.builders], which memoizes
    [get_targets]. *)
Record Registry : Type := mkRegistry {
  heap : Heap;
  builders : Dict.t Builder (list Node)
}.

(** [entry.builder = b] *)
Definition set_builder (h : Heap) (entry : Node) (b : Builder) : Heap :=
  mkHeap (Dict.set Node_eq_dec (node_objs h) entry
            (mkNodeObj (node_depends h entry) (Some b)))
         (builder_objs h).

(** [b.builds.append(entry)] *)
Definition append_builds (h : Heap) (b : Builder) (entry : Node) : Heap :=
  mkHeap (node_objs h)
         (Dict.set Nat.eq_dec (builder_objs h) b
            (mkBuilderObj (builder_depends h b) (builder_builds h b ++ [entry]))).

(** Whether [entry.builder] is a builder other than [b]. *)
Definition built_by_other (h : Heap) (entry : Node) (b : Builder) : bool :=
  match node_builder h entry with
  | Some b' => negb (Nat.eqb b' b)
  | None => false
  end.

(** [Builder.side_effect], on the entries given (one entry is wrapped in a
    list): the heap it leaves and how it ended. *)
Fixpoint side_effect (h : Heap) (self : Builder) (entries : list Node)
    : Heap * outcome unit :=
  match entries with
  | [] => (h, Return tt)
  | entry :: rest =>
      if built_by_other h entry self then (h, Raise ValueError)
      else side_effect (append_builds (set_builder h entry self) self entry) self rest
  end.

(** The loop [for entry in entries] of [_resolve_builder]. *)
Fixpoint register_targets (h : Heap) (b : Builder) (entries : list Node)
    : Heap * outcome unit :=
  match entries with
  | [] => (h, Return tt)
  | entry :: rest =>
      if negb (is_entry entry) then (h, Raise TypeError)
      else if built_by_other h entry b then (h, Raise ValueError)
      else register_targets (append_builds (set_builder h entry b) b entry) b rest
  end.

Section Registry.

(** [builder.get_targets()], the declaration of the user. *)
Variable get_targets : Builder -> Targets.

(** [Execution._resolve_builder] *)
Definition _resolve_builder (r : Registry) (b : Builder)
    : Registry * outcome (list Node) :=
  match Dict.get Nat.eq_dec (builders r) b with
  | Some entries => (r, Return entries)
  | None =>
      let entries :=
        match get_targets b with
        | OneEntry _ => []
        | Several items => items
        end in
      if existsb is_dir entries && negb (length entries =? 1)
      then (r, Raise ValueError)
      else
        match register_targets (heap r) b entries with
        | (h, Return _) =>
            (mkRegistry h (Dict.set Nat.eq_dec (builders r) b entries), Return entries)
        | (h, Raise e) => (mkRegistry h (builders r), Raise e)
        | (h, Diverges) => (mkRegistry h (builders r), Diverges)
        end
  end.

(** A registration: a call of [_resolve_builder] or of [side_effect]. *)
Inductive Registration : Type :=
| Resolve (b : Builder)
| SideEffect (b : Builder) (entries : list Node).

(** The registry a registration leaves, whether it returned or raised. *)
Definition register (r : Registry) (c : Registration) : Registry :=
  match c with
  | Resolve b => fst (_resolve_builder r b)
  | SideEffect b entries => mkRegistry (fst (side_effect (heap r) b entries)) (builders r)
  end.

Definition register_all (r : Registry) (cs : list Registration) : Registry :=
  fold_left register cs r.

End Registry.

(** [Execution._set_metadata] of [__init__.py]: [INSERT OR UPDATE INTO ...] *)
Definition _set_metadata (db : Table) (path : string) (metadata : Meta) : outcome Table :=
  insert_or "UPDATE" db path metadata.

(** [Execution._get_metadata] of [__init__.py]: no row gives [{}]. *)
Definition _get_metadata (db : Table) (path : string) : Meta :=
  match select_metadata db path with
  | Some m => m
  | None => MDict []
  end.

(** The dependencies [_traverse_entry_graph] computes for the node it
    visits: its own [depends], then those of its builder. *)
Definition entry_dependencies_of (h : Heap) (visiting : Node) : list Node :=
  node_depends h visiting
  ++ match node_builder h visiting with
     | Some b => builder_depends h b
     | None => []
     end.

Definition _traverse_entry_graph (h : Heap) (targets : list Node)
    : outcome (list Node * Dict.t Node (list Node)) :=
  traverse (entry_dependencies_of h) (heap_nodes h) targets.

(** What [__init__.py] accepts as targets. *)
Inductive Arg : Type :=
| APath (p : string)
| AEntry (e : Node)
| AStr (s : string)
| ABuilder (b : Builder)
| AIter (items : list Arg)
| AOther.

Section Targets.

Variable get_targets : Builder -> Targets.
Variable cwd : string.
Variable aliases : Dict.t string (list string).

(** [list(self._args_to_paths(arg))]; resolving a builder registers it. *)
Fixpoint _args_to_paths (r : Registry) (arg : Arg) : Registry * outcome (list string) :=
  match arg with
  | APath p => (r, Return [p])
  | AEntry e =>
      match path_of e with
      | Some p => (r, Return [p])
      | None => (r, Raise TypeError)
      end
  | AStr s =>
      match Dict.get string_dec aliases s with
      | Some paths => (r, Return paths)
      | None => (r, Return [joinpath cwd s])
      end
  | ABuilder b =>
      match _resolve_builder get_targets r b with
      | (r', Return entries) =>
          (r', Return (flat_map (fun e => match path_of e with
                                          | Some p => [p]
                                          | None => []
                                          end) entries))
      | (r', Raise e) => (r', Raise e)
      | (r', Diverges) => (r', Diverges)
      end
  | AIter items =>
      (fix each (r : Registry) (l : list Arg) : Registry * outcome (list string) :=
         match l with
         | [] => (r, Return [])
         | item :: l' =>
             match _args_to_paths r item with
             | (r1, Return ps) =>
                 match each r1 l' with
                 | (r2, Return ps') => (r2, Return (ps ++ ps'))
                 | other => other
                 end
             | other => other
             end
         end) r items
  | AOther => (r, Raise TypeError)
  end.

End Targets.

(** The start of [build_targets]: the paths of the targets are looked up in
    [entries], and a missing one is reported as a [DependencyError].
    [key_str p] is the text of the [KeyError] caught for the path [p], as the
    f-string formats it. *)
Definition target_entries (key_str : string -> string) (entries : Dict.t string Node)
    (target_paths : list string) : outcome (list Node) :=
  fold_left (fun acc p =>
               do found <- acc;
               match Dict.get string_dec entries p with
               | Some n => Return (found ++ [n])
               | None => Raise (DependencyError ("Target not found: " ++ key_str p))
               end)
            target_paths (Return []).

End Init.

(** * Properties *)

(** ** The metadata store *)

Lemma get_delete_row_eq (t : Table) (path : string) :
  Dict.get string_dec (delete_row t path) path = None.
Proof.
  induction t as [|[k v] t IH]; simpl; auto.
  destruct (string_dec k path) as [->|Hne]; simpl; auto.
  destruct (string_dec path k); congruence.
Qed.

Lemma get_delete_row_neq (t : Table) (path other : string) :
  other <> path ->
  Dict.get string_dec (delete_row t path) other = Dict.get string_dec t other.
Proof.
  intros Hne. induction t as [|[k v] t IH]; simpl; auto.
  destruct (string_dec k path) as [->|Hk]; simpl.
  - destruct (string_dec other path); congruence.
  - destruct (string_dec other k); auto.
Qed.

Lemma get_app_new (t : Table) (path k : string) (m : Meta) :
  Dict.get string_dec (t ++ [(path, m)]) k =
  match Dict.get string_dec t k with
  | Some v => Some v
  | None => if string_dec k path then Some m else None
  end.
Proof.
  induction t as [|[k' v'] t IH]; simpl.
  - reflexivity.
  - destruct (string_dec k k'); auto.
Qed.

(** The store of [execution.py] is an upsert: writing a signature succeeds
    whatever the table holds, the path then reads back that signature, and
    no other path changes. *)
Lemma set_metadata_upsert (db : Table) (path : string) (metadata : Meta) :
  exists db',
    _set_metadata db path metadata = Return db'
    /\ _get_metadata db' path = Some metadata
    /\ forall other, other <> path -> _get_metadata db' other = _get_metadata db other.
Proof.
  exists (delete_row db path ++ [(path, metadata)]).
  unfold _set_metadata, _get_metadata, select_metadata, insert_or. simpl.
  split; [reflexivity|split].
  - rewrite get_app_new, get_delete_row_eq.
    destruct (string_dec path path); congruence.
  - intros other Hne. rewrite get_app_new, get_delete_row_neq by assumption.
    destruct (Dict.get string_dec db other); auto.
    destruct (string_dec other path); congruence.
Qed.

(** C7: the claim says that [put] succeeds on every prior state of the store
    and that the path then reads back the signature.  [_set_metadata] of
    [__init__.py] sends [INSERT OR UPDATE], which is no statement of SQLite:
    it raises on every path, signature and table, and stores nothing, where
    [_set_metadata] of [execution.py] stores the signature. *)
Theorem init_set_metadata_raises (db : Table) (path : string) (metadata : Meta) :
  Init._set_metadata db path metadata = Raise OperationalError
  /\ exists db',
       _set_metadata db path metadata = Return db'
       /\ _get_metadata db' path = Some metadata.
Proof.
  split.
  - unfold Init._set_metadata, insert_or. reflexivity.
  - destruct (set_metadata_upsert db path metadata) as [db' [Hput [Hget _]]].
    exists db'. split; assumption.
Qed.

(** ** The resolution of targets *)

(** C8: the claim says that a target that is no alias and has no entry
    fails as a [DependencyError].  In [execution.py] the lookup
    [self.entries[...]] of [_args_to_nodes] raises [KeyError], and
    [prepare_build] lets it through. *)
Theorem prepare_build_unknown_target_KeyError
    (set_order : list Node -> list Node) (node_str : Node -> string)
    (fuel : nat) (h : Heap) (e : Execution) (fs : FileSystem) (s : string) :
  Dict.get string_dec (aliases e) s = None ->
  Dict.get string_dec (entries e) (joinpath (root e) s) = None ->
  prepare_build set_order node_str fuel h e fs (ArgStr s) = Raise KeyError.
Proof.
  intros Halias Hentry. unfold prepare_build. simpl.
  rewrite Halias. unfold entries_item. rewrite Hentry. reflexivity.
Qed.

Lemma prepare_build_unknown_target_KeyError_witness :
  prepare_build (fun l => l) (fun _ => "n"%string) 0 (mkHeap [] [])
                (mkExecution "/src" [] [] []) (mkFS (fun _ => None) (fun _ => Return (MDict [])))
                (ArgStr "missing.txt") = Raise KeyError.
Proof.
  apply prepare_build_unknown_target_KeyError; reflexivity.
Defined.

(** The same target in [__init__.py]: [build_targets] catches the
    [KeyError] and raises [DependencyError]. *)
Lemma init_target_entries_not_found (key_str : string -> string)
    (entries : Dict.t string Node) (p : string) :
  Dict.get string_dec entries p = None ->
  Init.target_entries key_str entries [p]
  = Raise (DependencyError ("Target not found: " ++ key_str p)).
Proof. intros H. unfold Init.target_entries. cbn [fold_left bind]. now rewrite H. Qed.

(** ** The iteration order of sets *)

Section OrderFacts.

Variable set_order : list Node -> list Node.
Hypothesis set_order_perm : forall l, Permutation (set_order l) l.

Lemma set_order_nil : set_order [] = [].
Proof. apply Permutation_nil. apply Permutation_sym, set_order_perm. Qed.

Lemma set_order_one x : set_order [x] = [x].
Proof. apply Permutation_length_1_inv. apply Permutation_sym, set_order_perm. Qed.

Lemma set_order_in l x : In x (set_order l) <-> In x l.
Proof.
  split; apply Permutation_in; [apply set_order_perm | apply Permutation_sym, set_order_perm].
Qed.

Lemma set_order_nodup l : NoDup l -> NoDup (set_order l).
Proof. intros H. eapply Permutation_NoDup; [apply Permutation_sym, set_order_perm | exact H]. Qed.

Lemma set_order_length l : length (set_order l) = length l.
Proof. apply Permutation_length, set_order_perm. Qed.

End OrderFacts.


(** ** A target that is also a dependency of a later target *)

(** Two files: [b.o] depends on [c.h], and both are targets. *)
Definition twice_c : Node := File "c.h".
Definition twice_b : Node := File "b.o".
Definition twice_heap : Heap := mkHeap [(twice_b, mkNodeObj [twice_c] None)] [].

(** C10: the claim says that every reachable node is once in [all_nodes] and
    once in [ordered_nodes].  With the targets [c.h] and [b.o] over an
    acyclic graph of two nodes, [c.h] is pushed a second time while its first
    copy waits on the stack ([seen] only holds the nodes already popped): it
    is visited twice, and sorted twice. *)
Theorem traverse_visits_target_twice
    (set_order : list Node -> list Node) (node_str : Node -> string) :
  (forall l, Permutation (set_order l) l) ->
  _traverse_node_graph set_order twice_heap [twice_c; twice_b]
    = Return ([twice_b; twice_c; twice_c], [(twice_b, [twice_c])])
  /\ _sort_dag set_order node_str [twice_b; twice_c; twice_c] [(twice_b, [twice_c])]
    = Return [twice_c; twice_b; twice_c].
Proof.
  intros Hp. split.
  - unfold _traverse_node_graph, traverse, traverse_budget. cbv.
    repeat (rewrite ?(set_order_one _ Hp), ?(set_order_nil _ Hp); cbv).
    reflexivity.
  - unfold _sort_dag. cbv.
    repeat (rewrite ?(set_order_one _ Hp), ?(set_order_nil _ Hp); cbv).
    reflexivity.
Qed.

Lemma traverse_visits_target_twice_witness :
  _traverse_node_graph (fun l => l) twice_heap [twice_c; twice_b]
    = Return ([twice_b; twice_c; twice_c], [(twice_b, [twice_c])])
  /\ _sort_dag (fun l => l) (fun _ => "n"%string)
       [twice_b; twice_c; twice_c] [(twice_b, [twice_c])]
    = Return [twice_c; twice_b; twice_c].
Proof.
  apply traverse_visits_target_twice. intros l. apply Permutation_refl.
Defined.

(** ** A first build *)

(** One file [out.txt] made by builder [0] from nothing, not built yet, on
    an empty disk and with an empty store. *)
Definition cold_out : Node := File "/src/out.txt".
Definition cold_heap : Heap :=
  mkHeap [(cold_out, mkNodeObj [] (Some 0))] [(0, mkBuilderObj [] [cold_out])].
Definition cold_execution : Execution := mkExecution "/src" [] [] [].
Definition empty_disk : FileSystem := mkFS (fun _ => None) (fun _ => Return (MDict [])).

(** ** The builder registry *)

(** Every node that has a builder is among the outputs of that builder. *)
Definition registered (h : Heap) : Prop :=
  forall n b, node_builder h n = Some b -> In n (builder_builds h b).

(** Every output of a builder has that builder, and is listed once. *)
Definition owned (h : Heap) : Prop :=
  (forall n b, In n (builder_builds h b) -> node_builder h n = Some b)
  /\ forall b, NoDup (builder_builds h b).

(** A heap on which nothing was registered yet. *)
Definition unregistered (h : Heap) : Prop :=
  (forall n, node_builder h n = None) /\ forall b, builder_builds h b = [].

Lemma node_builder_bind (h : Heap) (e : Node) (b : Builder) (n : Node) :
  node_builder (Init.append_builds (Init.set_builder h e b) b e) n
  = if Node_eq_dec n e then Some b else node_builder h n.
Proof.
  unfold node_builder, node_obj, Init.append_builds, Init.set_builder. simpl.
  rewrite Dict.get_set. destruct (Node_eq_dec n e); reflexivity.
Qed.

Lemma builder_builds_bind (h : Heap) (e : Node) (b b' : Builder) :
  builder_builds (Init.append_builds (Init.set_builder h e b) b e) b'
  = if Nat.eq_dec b' b then builder_builds h b ++ [e] else builder_builds h b'.
Proof.
  unfold builder_builds, builder_obj, Init.append_builds, Init.set_builder. simpl.
  rewrite Dict.get_set. destruct (Nat.eq_dec b' b); reflexivity.
Qed.

Lemma built_by_other_false (h : Heap) (e : Node) (b : Builder) :
  Init.built_by_other h e b = false ->
  node_builder h e = None \/ node_builder h e = Some b.
Proof.
  unfold Init.built_by_other. destruct (node_builder h e) as [b'|]; auto.
  intros H. apply negb_false_iff, Nat.eqb_eq in H. subst. auto.
Qed.

Lemma registered_bind (h : Heap) (e : Node) (b : Builder) :
  Init.built_by_other h e b = false ->
  registered h -> registered (Init.append_builds (Init.set_builder h e b) b e).
Proof.
  intros Hother Hreg n b'. rewrite node_builder_bind, builder_builds_bind.
  destruct (Node_eq_dec n e) as [->|Hne].
  - intros [= <-]. destruct (Nat.eq_dec b b); [|congruence].
    apply in_or_app. right. now left.
  - intros Hn. apply Hreg in Hn.
    destruct (Nat.eq_dec b' b) as [->|]; auto. apply in_or_app. now left.
Qed.

Lemma owned_bind (h : Heap) (e : Node) (b : Builder) :
  node_builder h e = None ->
  owned h -> owned (Init.append_builds (Init.set_builder h e b) b e).
Proof.
  intros Hnone [Hown Hnodup]. split.
  - intros n b'. rewrite node_builder_bind, builder_builds_bind.
    destruct (Nat.eq_dec b' b) as [->|Hb].
    + rewrite in_app_iff. simpl. intros [Hin|[<-|[]]].
      * destruct (Node_eq_dec n e); auto.
      * destruct (Node_eq_dec e e); congruence.
    + intros Hin. destruct (Node_eq_dec n e) as [->|]; auto.
      apply Hown in Hin. congruence.
  - intros b'. rewrite builder_builds_bind.
    destruct (Nat.eq_dec b' b) as [->|Hb]; auto.
    apply NoDup_app; auto.
    + constructor; [intros []|constructor].
    + intros x Hx [<-|[]]. apply Hown in Hx. congruence.
Qed.

Lemma side_effect_registered (b : Builder) (entries : list Node) :
  forall h, registered h -> registered (fst (Init.side_effect h b entries)).
Proof.
  induction entries as [|e rest IH]; simpl; intros h Hreg; auto.
  destruct (Init.built_by_other h e b) eqn:Hother; simpl; auto.
  apply IH. now apply registered_bind.
Qed.

Lemma register_targets_registered (b : Builder) (entries : list Node) :
  forall h, registered h -> registered (fst (Init.register_targets h b entries)).
Proof.
  induction entries as [|e rest IH]; simpl; intros h Hreg; auto.
  destruct (is_entry e); simpl; auto.
  destruct (Init.built_by_other h e b) eqn:Hother; simpl; auto.
  apply IH. now apply registered_bind.
Qed.

Lemma register_registered (get_targets : Builder -> Init.Targets)
    (r : Init.Registry) (c : Init.Registration) :
  registered (Init.heap r) -> registered (Init.heap (Init.register get_targets r c)).
Proof.
  intros Hreg. destruct c as [b|b entries]; simpl.
  - unfold Init._resolve_builder.
    destruct (Dict.get Nat.eq_dec (Init.builders r) b); simpl; auto.
    match goal with |- context [if ?c then _ else _] => destruct c end; simpl; auto.
    match goal with |- context [Init.register_targets ?h ?b ?l] =>
      pose proof (register_targets_registered b l Hreg) as H;
      destruct (Init.register_targets h b l) as [h' [u|ex|]]
    end; simpl in *; auto.
  - now apply side_effect_registered.
Qed.

Lemma register_all_registered (get_targets : Builder -> Init.Targets)
    (cs : list Init.Registration) :
  forall r, registered (Init.heap r) ->
            registered (Init.heap (Init.register_all get_targets r cs)).
Proof.
  unfold Init.register_all.
  induction cs as [|c cs IH]; simpl; intros r Hreg; auto.
  apply IH. now apply register_registered.
Qed.

(** The entries a registration for the builder [b] names are not outputs of
    [b] yet, and none is named twice.  An entry that has another builder is
    allowed: the registration raises when it comes to it. *)
Definition unlisted_outputs (h : Heap) (b : Builder) (entries : list Node) : Prop :=
  NoDup entries /\ forall e, In e entries -> node_builder h e <> Some b.

Definition registers_unlisted (get_targets : Builder -> Init.Targets)
    (r : Init.Registry) (c : Init.Registration) : Prop :=
  match c with
  | Init.SideEffect b entries => unlisted_outputs (Init.heap r) b entries
  | Init.Resolve b =>
      match Dict.get Nat.eq_dec (Init.builders r) b, get_targets b with
      | None, Init.Several items => unlisted_outputs (Init.heap r) b items
      | _, _ => True
      end
  end.

Fixpoint all_register_unlisted (get_targets : Builder -> Init.Targets)
    (r : Init.Registry) (cs : list Init.Registration) : Prop :=
  match cs with
  | [] => True
  | c :: cs' =>
      registers_unlisted get_targets r c
      /\ all_register_unlisted get_targets (Init.register get_targets r c) cs'
  end.

Lemma unlisted_outputs_bind (h : Heap) (e : Node) (rest : list Node) (b : Builder) :
  unlisted_outputs h b (e :: rest) ->
  unlisted_outputs (Init.append_builds (Init.set_builder h e b) b e) b rest.
Proof.
  intros [Hnodup Hnot]. inversion Hnodup as [|? ? Hnotin Hrest]; subst.
  split; auto. intros x Hx. rewrite node_builder_bind.
  destruct (Node_eq_dec x e) as [->|]; [contradiction|].
  apply Hnot. now right.
Qed.

Lemma unlisted_outputs_free (h : Heap) (e : Node) (rest : list Node) (b : Builder) :
  unlisted_outputs h b (e :: rest) -> Init.built_by_other h e b = false ->
  node_builder h e = None.
Proof.
  intros [_ Hnot] Hother.
  destruct (built_by_other_false h e b Hother) as [H|H]; [exact H|].
  exfalso. apply (Hnot e); [now left|exact H].
Qed.

Lemma side_effect_owned (b : Builder) (entries : list Node) :
  forall h, unlisted_outputs h b entries -> owned h ->
            owned (fst (Init.side_effect h b entries)).
Proof.
  induction entries as [|e rest IH]; simpl; intros h Hnew Hown; auto.
  destruct (Init.built_by_other h e b) eqn:Hother; simpl; auto.
  apply IH.
  - now apply unlisted_outputs_bind.
  - apply owned_bind; auto. eapply unlisted_outputs_free; eassumption.
Qed.

Lemma register_targets_owned (b : Builder) (entries : list Node) :
  forall h, unlisted_outputs h b entries -> owned h ->
            owned (fst (Init.register_targets h b entries)).
Proof.
  induction entries as [|e rest IH]; simpl; intros h Hnew Hown; auto.
  destruct (is_entry e); simpl; auto.
  destruct (Init.built_by_other h e b) eqn:Hother; simpl; auto.
  apply IH.
  - now apply unlisted_outputs_bind.
  - apply owned_bind; auto. eapply unlisted_outputs_free; eassumption.
Qed.

Lemma register_owned (get_targets : Builder -> Init.Targets)
    (r : Init.Registry) (c : Init.Registration) :
  registers_unlisted get_targets r c ->
  owned (Init.heap r) -> owned (Init.heap (Init.register get_targets r c)).
Proof.
  intros Hnew Hown. destruct c as [b|b entries]; simpl in *.
  - unfold Init._resolve_builder.
    destruct (Dict.get Nat.eq_dec (Init.builders r) b); simpl; auto.
    destruct (get_targets b) as [e|items].
    + simpl. exact Hown.
    + match goal with |- context [if ?c then _ else _] => destruct c end; simpl; auto.
      pose proof (register_targets_owned Hnew Hown) as H.
      destruct (Init.register_targets (Init.heap r) b items) as [h' [u|ex|]];
        simpl in *; auto.
  - now apply side_effect_owned.
Qed.

Lemma register_all_owned (get_targets : Builder -> Init.Targets)
    (cs : list Init.Registration) :
  forall r, all_register_unlisted get_targets r cs -> owned (Init.heap r) ->
            owned (Init.heap (Init.register_all get_targets r cs)).
Proof.
  unfold Init.register_all.
  induction cs as [|c cs IH]; simpl; intros r Hnew Hown; auto.
  destruct Hnew as [Hc Hcs]. apply IH; auto. now apply register_owned.
Qed.

(** C9, the claim as it stands fails: registering the same entry twice as a
    side effect of the same builder is accepted ([entry.builder is not self]
    is false) and appends it to [builds] a second time. *)
Lemma builds_listed_twice :
  let r := Init.register_all (fun _ => Init.Several []) (Init.mkRegistry (mkHeap [] []) [])
             [Init.SideEffect 0 [File "a.o"]; Init.SideEffect 0 [File "a.o"]] in
  node_builder (Init.heap r) (File "a.o") = Some 0
  /\ builder_builds (Init.heap r) 0 = [File "a.o"; File "a.o"]
  /\ ~ NoDup (builder_builds (Init.heap r) 0).
Proof.
  cbv zeta. split; [reflexivity|split; [reflexivity|]].
  intros H. vm_compute in H. inversion H as [|? ? Hnotin _]; subst.
  apply Hnotin. now left.
Qed.

(** C9, amended: after any sequence of registrations on a fresh heap, every
    node that has a builder is among the [builds] of that builder; and
    [builds] has no duplicates when no registration names an entry that is
    already an output of the builder it registers for, or names an entry
    twice.  A registration may name an entry of another builder: it raises
    there, and what it registered before stays. *)
Theorem registration_invariant (get_targets : Builder -> Init.Targets)
    (r : Init.Registry) (cs : list Init.Registration) :
  unregistered (Init.heap r) ->
  (forall n b,
      node_builder (Init.heap (Init.register_all get_targets r cs)) n = Some b ->
      In n (builder_builds (Init.heap (Init.register_all get_targets r cs)) b))
  /\ (all_register_unlisted get_targets r cs ->
      forall b, NoDup (builder_builds (Init.heap (Init.register_all get_targets r cs)) b)).
Proof.
  intros [Hnone Hempty]. split.
  - apply register_all_registered. intros n b Hn. rewrite Hnone in Hn. discriminate.
  - intros Hnew. apply register_all_owned; auto. split.
    + intros n b Hin. rewrite Hempty in Hin. destruct Hin.
    + intros b. rewrite Hempty. constructor.
Qed.

Definition two_outputs (b : Builder) : Init.Targets :=
  Init.Several [File "a.o"; File "b.o"].

(** Builder [1] takes [a.o]; builder [2] then names [b.o] and [a.o]: [b.o]
    becomes its output and the call raises at [a.o]. *)
Lemma registration_invariant_witness :
  unregistered (mkHeap [] [])
  /\ all_register_unlisted two_outputs (Init.mkRegistry (mkHeap [] []) [])
       [Init.SideEffect 1 [File "a.o"]; Init.SideEffect 2 [File "b.o"; File "a.o"]]
  /\ builder_builds (Init.heap (Init.register_all two_outputs
                        (Init.mkRegistry (mkHeap [] []) [])
                        [Init.SideEffect 1 [File "a.o"];
                         Init.SideEffect 2 [File "b.o"; File "a.o"]])) 2
     = [File "b.o"]
  /\ (forall n b,
        node_builder (Init.heap (Init.register_all two_outputs
                        (Init.mkRegistry (mkHeap [] []) [])
                        [Init.SideEffect 1 [File "a.o"];
                         Init.SideEffect 2 [File "b.o"; File "a.o"]])) n = Some b ->
        In n (builder_builds (Init.heap (Init.register_all two_outputs
                        (Init.mkRegistry (mkHeap [] []) [])
                        [Init.SideEffect 1 [File "a.o"];
                         Init.SideEffect 2 [File "b.o"; File "a.o"]])) b))
  /\ forall b,
       NoDup (builder_builds (Init.heap (Init.register_all two_outputs
                        (Init.mkRegistry (mkHeap [] []) [])
                        [Init.SideEffect 1 [File "a.o"];
                         Init.SideEffect 2 [File "b.o"; File "a.o"]])) b).
Proof.
  assert (Hfresh : unregistered (mkHeap [] [])).
  { split; intros; reflexivity. }
  assert (Hnew : all_register_unlisted two_outputs (Init.mkRegistry (mkHeap [] []) [])
                   [Init.SideEffect 1 [File "a.o"];
                    Init.SideEffect 2 [File "b.o"; File "a.o"]]).
  { simpl. split; [|split; [|exact I]].
    - split; [repeat constructor; simpl; intuition discriminate|].
      intros e _. vm_compute. discriminate.
    - split; [repeat constructor; simpl; intuition discriminate|].
      intros e [<-|[<-|[]]]; vm_compute; discriminate. }
  destruct (registration_invariant two_outputs (Init.mkRegistry (mkHeap [] []) [])
              [Init.SideEffect 1 [File "a.o"];
               Init.SideEffect 2 [File "b.o"; File "a.o"]] Hfresh) as [Hreg Hnodup].
  split; [exact Hfresh|]. split; [exact Hnew|]. split; [reflexivity|].
  split; [exact Hreg|exact (Hnodup Hnew)].
Defined.

(** ** The dirty propagator *)

(** A list of nodes is in topological order for [edges] when, wherever a
    node stands in it, each of its dependencies stands somewhere before. *)
Definition topological (edges : Dict.t Node (list Node)) (l : list Node) : Prop :=
  forall l1 n l2, l = l1 ++ n :: l2 ->
  forall d, In d (dd_get edges n) -> In d l1.

Section Propagator.

Variable edges : Dict.t Node (list Node).

Lemma topological_prefix (l1 l2 : list Node) :
  topological edges (l1 ++ l2) -> topological edges l1.
Proof.
  intros H a n b E d Hd. apply (H a n (b ++ l2)); auto.
  rewrite E, <- app_assoc. reflexivity.
Qed.

Lemma downward_pass_app (l1 l2 to_build : list Node) :
  downward_pass edges (l1 ++ l2) to_build
  = downward_pass edges l2 (downward_pass edges l1 to_build).
Proof. unfold downward_pass. apply fold_left_app. Qed.

Lemma downward_pass_mono (l : list Node) :
  forall to_build x, In x to_build -> In x (downward_pass edges l to_build).
Proof.
  unfold downward_pass. induction l as [|n l IH]; simpl; intros S x Hx; auto.
  apply IH. destruct (existsb _ _); auto. apply set_add_in. auto.
Qed.

Lemma downward_pass_last (l : list Node) (n : Node) (to_build : list Node) (x : Node) :
  In x (downward_pass edges (l ++ [n]) to_build) <->
  In x (downward_pass edges l to_build)
  \/ (x = n /\ exists d, In d (dd_get edges n) /\ In d (downward_pass edges l to_build)).
Proof.
  rewrite downward_pass_app. unfold downward_pass at 1. simpl.
  destruct (existsb _ _) eqn:Hex.
  - rewrite set_add_in. apply existsb_exists in Hex. destruct Hex as [d [Hd Hm]].
    apply set_mem_true in Hm. split.
    + intros [->|H]; eauto.
    + intros [H|[-> _]]; auto.
  - split; auto. intros [H|[-> [d [Hd Hin]]]]; auto.
    assert (Ht : existsb (fun d => set_mem Node_eq_dec d (downward_pass edges l to_build))
                         (dd_get edges n) = true).
    { apply existsb_exists. exists d. split; auto. now apply set_mem_true. }
    congruence.
Qed.

(** Whether a node is to be built is settled once it has been passed. *)
Lemma downward_pass_settled (to_build : list Node) (l : list Node) :
  topological edges l ->
  forall l1 rest, l = l1 ++ rest ->
  forall d, In d l1 -> In d (downward_pass edges l to_build) ->
            In d (downward_pass edges l1 to_build).
Proof.
  induction l as [|x l' IH] using rev_ind; intros Htopo l1 rest E d Hd Hin.
  - destruct l1; [destruct Hd|discriminate].
  - destruct rest as [|y rest'] using rev_ind.
    + rewrite app_nil_r in E. now subst.
    + clear IHrest'. rewrite app_assoc in E. apply app_inj_tail in E.
      destruct E as [E <-].
      assert (Htopo' : topological edges l') by (eapply topological_prefix; exact Htopo).
      apply downward_pass_last in Hin. destruct Hin as [Hin|[-> [e [He Hin]]]].
      * now apply (IH Htopo' l1 rest').
      * apply in_split in Hd. destruct Hd as [a [b Hl1]].
        assert (Hea : In e a).
        { apply (Htopo a x (b ++ rest' ++ [x])); auto.
          rewrite E, Hl1, <- !app_assoc. reflexivity. }
        assert (Hdown : In e (downward_pass edges a to_build)).
        { apply (IH Htopo' a (x :: b ++ rest')); auto.
          rewrite E, Hl1, <- app_assoc. reflexivity. }
        rewrite Hl1.
        replace (a ++ x :: b) with ((a ++ [x]) ++ b) by (rewrite <- app_assoc; reflexivity).
        rewrite downward_pass_app. apply downward_pass_mono.
        apply downward_pass_last. right. eauto.
Qed.

(** After the first loop, a node of the list with a dependency to build is
    to be built. *)
Lemma downward_pass_closed (to_build : list Node) (l : list Node) :
  topological edges l ->
  forall n d, In n l -> In d (dd_get edges n) ->
              In d (downward_pass edges l to_build) ->
              In n (downward_pass edges l to_build).
Proof.
  intros Htopo n d Hn Hd Hin.
  apply in_split in Hn. destruct Hn as [a [b E]].
  assert (Hda : In d a) by (apply (Htopo a n b); auto).
  assert (Hdown : In d (downward_pass edges a to_build)).
  { eapply downward_pass_settled with (l1 := a) (rest := n :: b); eauto. }
  rewrite E.
  replace (a ++ n :: b) with ((a ++ [n]) ++ b) by (rewrite <- app_assoc; reflexivity).
  rewrite downward_pass_app. apply downward_pass_mono.
  apply downward_pass_last. right. eauto.
Qed.

End Propagator.

Section Upward.

Variable edges : Dict.t Node (list Node).

(** The second loop, on the list it walks. *)
Definition upward_from (walked : list Node) (to_build : list Node) : list Node :=
  fold_left (fun to_build node =>
               if set_mem Node_eq_dec node to_build
               then set_update Node_eq_dec to_build
                      (filter (fun d => negb (is_entry d)) (dd_get edges node))
               else to_build)
            walked to_build.

Lemma upward_pass_from (l to_build : list Node) :
  upward_pass edges l to_build = upward_from (rev l) to_build.
Proof. reflexivity. Qed.

Lemma upward_from_app (r1 r2 to_build : list Node) :
  upward_from (r1 ++ r2) to_build = upward_from r2 (upward_from r1 to_build).
Proof. unfold upward_from. apply fold_left_app. Qed.

Lemma upward_from_mono (r : list Node) :
  forall to_build x, In x to_build -> In x (upward_from r to_build).
Proof.
  unfold upward_from. induction r as [|n r IH]; simpl; intros S x Hx; auto.
  apply IH. destruct (set_mem _ _ _); auto. apply set_update_in. auto.
Qed.

Lemma upward_from_last (r : list Node) (n : Node) (to_build : list Node) (x : Node) :
  In x (upward_from (r ++ [n]) to_build) <->
  In x (upward_from r to_build)
  \/ (In n (upward_from r to_build) /\ In x (dd_get edges n) /\ is_entry x = false).
Proof.
  rewrite upward_from_app. unfold upward_from at 1. simpl.
  destruct (set_mem Node_eq_dec n (upward_from r to_build)) eqn:Hmem.
  - apply set_mem_true in Hmem. rewrite set_update_in, filter_In, negb_true_iff.
    tauto.
  - apply set_mem_false in Hmem. tauto.
Qed.

(** A node to be built after the second loop was to be built before it, or
    was added as a dependency of a node that was to be built when walked. *)
Lemma upward_from_origin (to_build : list Node) (r : list Node) (x : Node) :
  In x (upward_from r to_build) ->
  In x to_build
  \/ exists r1 m r2, r = r1 ++ m :: r2
                     /\ In m (upward_from r1 to_build)
                     /\ In x (dd_get edges m) /\ is_entry x = false.
Proof.
  induction r as [|n r IH] using rev_ind; intros Hin.
  - now left.
  - apply upward_from_last in Hin. destruct Hin as [Hin|[Hn [Hx He]]].
    + destruct (IH Hin) as [H|[r1 [m [r2 [E H]]]]]; auto.
      right. exists r1, m, (r2 ++ [n]). split; auto.
      rewrite E, <- app_assoc. reflexivity.
    + right. exists r, n, []. auto.
Qed.

(** The list walked by the second loop: wherever a node stands, each of its
    dependencies stands somewhere after. *)
Definition dependents_first (r : list Node) : Prop :=
  forall r1 m r2, r = r1 ++ m :: r2 ->
  forall d, In d (dd_get edges m) -> In d r2.

Lemma topological_rev (l : list Node) :
  topological edges l -> dependents_first (rev l).
Proof.
  intros Htopo r1 m r2 E d Hd. apply in_rev.
  apply (Htopo (rev r2) m (rev r1)); auto.
  rewrite <- (rev_involutive l), E, rev_app_distr. simpl.
  rewrite <- app_assoc. reflexivity.
Qed.

Lemma upward_from_walked (to_build : list Node) (a : list Node) (n : Node) (b : list Node) :
  In n (upward_from a to_build) ->
  forall d, In d (dd_get edges n) -> is_entry d = false ->
            In d (upward_from (a ++ n :: b) to_build).
Proof.
  intros Hn d Hd He.
  replace (a ++ n :: b) with ((a ++ [n]) ++ b) by (rewrite <- app_assoc; reflexivity).
  rewrite upward_from_app. apply upward_from_mono.
  apply upward_from_last. right. auto.
Qed.

(** After the second loop, the dependencies of a node of the list that is to
    be built are to be built when they are no entries. *)
Lemma upward_from_closed (to_build : list Node) (r : list Node) :
  dependents_first r ->
  forall n d, In n r -> In n (upward_from r to_build) ->
              In d (dd_get edges n) -> is_entry d = false ->
              In d (upward_from r to_build).
Proof.
  intros Hfirst n d Hn Hin Hd He.
  destruct (upward_from_origin to_build r n Hin) as [H0|[r1 [m [r2 [E [Hm [Hnm Hen]]]]]]].
  - apply in_split in Hn. destruct Hn as [a [b E]]. rewrite E.
    apply upward_from_walked; auto. now apply upward_from_mono.
  - assert (Hn2 : In n r2) by (apply (Hfirst r1 m r2); auto).
    apply in_split in Hn2. destruct Hn2 as [a [b E2]].
    rewrite E, E2.
    replace (r1 ++ m :: a ++ n :: b) with ((r1 ++ m :: a) ++ n :: b)
      by (rewrite <- app_assoc; reflexivity).
    apply upward_from_walked; auto.
    apply upward_from_walked; auto.
Qed.

End Upward.

(** A check of [topological] that computes. *)
Fixpoint topologicalb (edges : Dict.t Node (list Node)) (before l : list Node) : bool :=
  match l with
  | [] => true
  | n :: l' =>
      forallb (fun d => set_mem Node_eq_dec d before) (dd_get edges n)
      && topologicalb edges (before ++ [n]) l'
  end.

Lemma topologicalb_sound (edges : Dict.t Node (list Node)) (l : list Node) :
  forall before, topologicalb edges before l = true ->
  forall l1 n l2, l = l1 ++ n :: l2 ->
  forall d, In d (dd_get edges n) -> In d (before ++ l1).
Proof.
  induction l as [|x l IH]; simpl; intros before Hb l1 n l2 E d Hd.
  - destruct l1; discriminate.
  - apply andb_true_iff in Hb. destruct Hb as [Hx Hl].
    destruct l1 as [|y l1]; simpl in E; injection E as -> E.
    + rewrite app_nil_r. rewrite forallb_forall in Hx.
      apply set_mem_true with (A_eq_dec := Node_eq_dec). auto.
    + specialize (IH _ Hl l1 n l2 E d Hd).
      rewrite <- app_assoc in IH. exact IH.
Qed.

Lemma topologicalb_topological (edges : Dict.t Node (list Node)) (l : list Node) :
  topologicalb edges [] l = true -> topological edges l.
Proof.
  intros Hb l1 n l2 E d Hd.
  exact (@topologicalb_sound edges l [] Hb l1 n l2 E d Hd).
Qed.

(** What does hold of the set [get_to_build] returns, for a prepared build
    whose node list is in topological order: it contains every out-of-date
    node; the set reached after the first, leaves-first loop is part of it
    and holds every node of the list that has a dependency in it; and every
    dependency that is no entry of a node of the list in the returned set is
    in the returned set. *)
Theorem get_to_build_closed (pb : PreparedBuild) :
  topological (edges pb) (ordered_nodes pb) ->
  (forall n, In n (out_of_date pb) -> In n (get_to_build pb))
  /\ (forall n d,
        In n (ordered_nodes pb) -> In d (dd_get (edges pb) n) ->
        In d (downward_pass (edges pb) (ordered_nodes pb)
                (set_of Node_eq_dec (out_of_date pb))) ->
        In n (downward_pass (edges pb) (ordered_nodes pb)
                (set_of Node_eq_dec (out_of_date pb))))
  /\ (forall n,
        In n (downward_pass (edges pb) (ordered_nodes pb)
                (set_of Node_eq_dec (out_of_date pb))) ->
        In n (get_to_build pb))
  /\ (forall n d,
        In n (ordered_nodes pb) -> In n (get_to_build pb) ->
        In d (dd_get (edges pb) n) -> is_entry d = false ->
        In d (get_to_build pb)).
Proof.
  intros Htopo. unfold get_to_build. rewrite upward_pass_from.
  split; [|split; [|split]].
  - intros n Hn. apply upward_from_mono, downward_pass_mono. now apply set_of_in.
  - intros n d Hn Hd Hin. eapply downward_pass_closed; eauto.
  - intros n Hn. now apply upward_from_mono.
  - intros n d Hn Hin Hd He.
    eapply upward_from_closed; eauto.
    + now apply topological_rev.
    + now apply in_rev in Hn.
Qed.

(** A file set [FileSet 1] made from [a.c], and [b.o] made from the file
    set; [a.c] is out of date. *)
Definition small_build : PreparedBuild :=
  mkPreparedBuild
    [File "a.c"; FileSet 1; File "b.o"] [File "b.o"]
    [(FileSet 1, [File "a.c"]); (File "b.o", [FileSet 1])]
    [File "a.c"] [] [] [File "b.o"].

Lemma get_to_build_closed_witness :
  (forall n, In n (out_of_date small_build) -> In n (get_to_build small_build))
  /\ (forall n d,
        In n (ordered_nodes small_build) -> In d (dd_get (edges small_build) n) ->
        In d (downward_pass (edges small_build) (ordered_nodes small_build)
                (set_of Node_eq_dec (out_of_date small_build))) ->
        In n (downward_pass (edges small_build) (ordered_nodes small_build)
                (set_of Node_eq_dec (out_of_date small_build))))
  /\ (forall n,
        In n (downward_pass (edges small_build) (ordered_nodes small_build)
                (set_of Node_eq_dec (out_of_date small_build))) ->
        In n (get_to_build small_build))
  /\ (forall n d,
        In n (ordered_nodes small_build) -> In n (get_to_build small_build) ->
        In d (dd_get (edges small_build) n) -> is_entry d = false ->
        In d (get_to_build small_build)).
Proof.
  apply get_to_build_closed. apply topologicalb_topological. reflexivity.
Defined.

(** A file set [FileSet 1] made by builder [0], and two files made from it:
    [x.o] by builder [1] and [y.o] by builder [2].  Only [y.o] is out of
    date. *)
Definition fan_heap : Heap :=
  mkHeap [(FileSet 1, mkNodeObj [] (Some 0));
          (File "x.o", mkNodeObj [] (Some 1));
          (File "y.o", mkNodeObj [] (Some 2))]
         [(0, mkBuilderObj [] [FileSet 1]);
          (1, mkBuilderObj [FileSet 1] [File "x.o"]);
          (2, mkBuilderObj [FileSet 1] [File "y.o"])].

Definition fan_build : PreparedBuild :=
  mkPreparedBuild
    [FileSet 1; File "x.o"; File "y.o"] [File "x.o"; File "y.o"]
    [(File "x.o", [FileSet 1]); (File "y.o", [FileSet 1])]
    [File "y.o"] [] [(FileSet 1, []); (File "x.o", []); (File "y.o", [])]
    [File "x.o"; File "y.o"].

(** C4: the claim says that the set [get_to_build] returns holds every node
    one of whose dependencies is in it, as the comment in [get_to_build]
    does (if a builder runs, all descendent builders are also run).  The
    second loop adds the file set [FileSet 1], because [y.o], which is out
    of date, depends on it; the first loop is over by then, and [x.o], which
    depends on the file set too, is not added.  In a build the builder of
    the file set is called and the builder of [x.o] is not. *)
Theorem get_to_build_misses_dependent
    (set_order : list Node -> list Node) (node_str : Node -> string)
    (remove_entry prepare_entry : FileSystem -> Node -> FileSystem)
    (run_build : Builder -> FileSystem -> FileSystem * outcome unit)
    (builder_str : Builder -> string) (fuel : nat) (e : Execution) (fs : FileSystem) :
  topological (edges fan_build) (ordered_nodes fan_build)
  /\ get_to_build fan_build = [File "y.o"; FileSet 1]
  /\ In (File "x.o") (ordered_nodes fan_build)
  /\ In (FileSet 1) (dd_get (edges fan_build) (File "x.o"))
  /\ In (FileSet 1) (get_to_build fan_build)
  /\ ~ In (File "x.o") (get_to_build fan_build)
  /\ calls (fst (build_targets set_order node_str remove_entry prepare_entry run_build
                   builder_str fuel fan_heap e fs None (Some fan_build) true))
     = [0; 2].
Proof.
  split; [apply topologicalb_topological; reflexivity|].
  split; [reflexivity|]. split; [simpl; auto|]. split; [simpl; auto|].
  split; [simpl; auto|]. split.
  - intros [H|[H|[]]]; discriminate.
  - reflexivity.
Qed.

(** ** The serial scheduler *)

Section SchedulerFacts.

Variable set_order : list Node -> list Node.
Variable node_str : Node -> string.
Variable remove_entry : FileSystem -> Node -> FileSystem.
Variable prepare_entry : FileSystem -> Node -> FileSystem.
Variable run_build : Builder -> FileSystem -> FileSystem * outcome unit.
Variable builder_str : Builder -> string.
Variable h : Heap.

Let call_builder := _call_builder node_str remove_entry prepare_entry run_build builder_str h.
Let update_metadata := _update_builder_metadata set_order h.
Let step := serial_step set_order node_str remove_entry prepare_entry run_build builder_str h.

Lemma call_builder_calls (b : Builder) (dry_run : bool) (st : BuildState) :
  calls (fst (call_builder b dry_run st)) = calls st ++ [b]
  /\ built_nodes (fst (call_builder b dry_run st)) = built_nodes st.
Proof.
  unfold call_builder, _call_builder. destruct dry_run; simpl; auto.
  destruct (run_build _ _) as [fs2 [u|ex|]]; simpl; auto.
  destruct (find _ _); simpl; auto.
Qed.

Lemma update_entry_metadata_calls (deps : Dict.t Node (list Node))
    (acc : BuildState * outcome unit) (n : Node) :
  calls (fst (update_entry_metadata set_order deps acc n)) = calls (fst acc)
  /\ built_nodes (fst (update_entry_metadata set_order deps acc n)) = built_nodes (fst acc).
Proof.
  unfold update_entry_metadata. destruct acc as [st [u|ex|]]; simpl; auto;
    destruct (path_of n); simpl; auto.
  destruct (dict_item deps n) as [found|ex|]; simpl; auto.
  destruct (fold_left _ _ _) as [cache|ex|]; simpl; auto.
  destruct (bind _ _) as [db|ex|]; simpl; auto.
Qed.

Lemma update_metadata_calls (b : Builder) (deps : Dict.t Node (list Node))
    (st : BuildState) :
  calls (fst (update_metadata b deps st)) = calls st
  /\ built_nodes (fst (update_metadata b deps st)) = built_nodes st.
Proof.
  unfold update_metadata, _update_builder_metadata.
  assert (H : forall l acc,
             calls (fst (fold_left (update_entry_metadata set_order deps) l acc))
             = calls (fst acc)
             /\ built_nodes (fst (fold_left (update_entry_metadata set_order deps) l acc))
                = built_nodes (fst acc)).
  { induction l as [|n l IH]; simpl; intros acc; auto.
    destruct (IH (update_entry_metadata set_order deps acc n)) as [H1 H2].
    destruct (update_entry_metadata_calls deps acc n) as [H3 H4].
    split; congruence. }
  exact (H (builder_builds h b) (st, Return tt)).
Qed.

(** What the serial loop keeps true: no builder was called twice, and while
    the build goes on, every output of a builder that was called counts as
    built. *)
Definition called_once (acc : BuildState * outcome unit) : Prop :=
  NoDup (calls (fst acc))
  /\ (snd acc = Return tt ->
      forall b, In b (calls (fst acc)) ->
      forall n, In n (builder_builds h b) -> In n (built_nodes (fst acc))).

Lemma serial_step_called_once (dry_run : bool) (to_build : list Node)
    (deps : Dict.t Node (list Node)) (acc : BuildState * outcome unit) (node : Node) :
  registered h -> called_once acc ->
  called_once (step dry_run to_build deps acc node).
Proof.
  intros Hreg [Hnodup Hbuilt]. unfold step, serial_step.
  destruct acc as [st [[]|ex|]]; simpl in *;
    try (split; simpl; [assumption|discriminate]).
  destruct (node_builder h node) as [b|] eqn:Hb; [|split; simpl; auto].
  destruct (set_mem Node_eq_dec node to_build
            && negb (set_mem Node_eq_dec node (built_nodes st))) eqn:Hcond;
    [|split; simpl; auto].
  apply andb_true_iff in Hcond. destruct Hcond as [_ Hnot].
  apply negb_true_iff, set_mem_false in Hnot.
  assert (Hfresh : ~ In b (calls st)).
  { intros Hin. apply Hnot. apply (Hbuilt eq_refl b Hin). now apply Hreg. }
  destruct (call_builder_calls b dry_run st) as [Hcalls Hnodes].
  fold call_builder.
  assert (Hnodup' : NoDup (calls st ++ [b])).
  { apply NoDup_app; auto.
    - constructor; [intros []|constructor].
    - intros x Hx [<-|[]]. contradiction. }
  destruct (call_builder b dry_run st) as [st1 [[]|ex|]]; simpl in *;
    try (split; simpl; [congruence|discriminate]).
  assert (Hall : forall b', In b' (calls st ++ [b]) ->
                 forall n, In n (builder_builds h b') ->
                 In n (set_update Node_eq_dec (built_nodes st1) (builder_builds h b))).
  { intros b' Hb' n Hn. apply set_update_in. apply in_app_or in Hb'.
    destruct Hb' as [Hb'|[<-|[]]]; auto.
    left. rewrite Hnodes. now apply (Hbuilt eq_refl b'). }
  destruct dry_run.
  - split; simpl; [congruence|]. intros _. rewrite Hcalls. exact Hall.
  - fold update_metadata.
    match goal with |- called_once (update_metadata b deps ?s) =>
      destruct (update_metadata_calls b deps s) as [Hc2 Hn2] end.
    split; simpl in *.
    + rewrite Hc2, Hcalls. exact Hnodup'.
    + intros _. rewrite Hc2, Hn2, Hcalls. exact Hall.
Qed.

Lemma serial_loop_called_once (dry_run : bool) (to_build : list Node)
    (deps : Dict.t Node (list Node)) (nodes : list Node) :
  registered h ->
  forall acc, called_once acc ->
              called_once (fold_left (step dry_run to_build deps) nodes acc).
Proof.
  intros Hreg. induction nodes as [|n nodes IH]; simpl; intros acc Hacc; auto.
  apply IH. now apply serial_step_called_once.
Qed.

End SchedulerFacts.

(** C6: in a serial [build_targets], on a heap where every node that has a
    builder is among the outputs of that builder, no builder is called
    twice; and as long as nothing has raised, every output of a builder that
    was called counts as built, so that no sibling output calls it again. *)
Theorem serial_build_calls_builder_once
    (set_order : list Node -> list Node) (node_str : Node -> string)
    (remove_entry prepare_entry : FileSystem -> Node -> FileSystem)
    (run_build : Builder -> FileSystem -> FileSystem * outcome unit)
    (builder_str : Builder -> string)
    (fuel : nat) (h : Heap) (e : Execution) (fs : FileSystem)
    (targets : option Args) (prepared_build : option PreparedBuild) (dry_run : bool) :
  registered h ->
  NoDup (calls (fst (build_targets set_order node_str remove_entry prepare_entry
                       run_build builder_str fuel h e fs targets prepared_build dry_run)))
  /\ (snd (build_targets set_order node_str remove_entry prepare_entry
             run_build builder_str fuel h e fs targets prepared_build dry_run) = Return tt ->
      forall b,
        In b (calls (fst (build_targets set_order node_str remove_entry prepare_entry
                            run_build builder_str fuel h e fs targets prepared_build dry_run))) ->
        forall n, In n (builder_builds h b) ->
        In n (built_nodes (fst (build_targets set_order node_str remove_entry prepare_entry
                                  run_build builder_str fuel h e fs targets prepared_build
                                  dry_run)))).
Proof.
  intros Hreg.
  assert (Hstart : called_once h (mkBuild fs (metadata_db e) [] [] [], Return tt)).
  { split; simpl; [constructor|]. intros _ b []. }
  assert (Hidle : forall o, called_once h (mkBuild fs (metadata_db e) [] [] [], o)).
  { intros o. split; simpl; [constructor|]. intros _ b []. }
  assert (Hprepared : forall pb,
             called_once h (build_prepared set_order node_str remove_entry prepare_entry
                              run_build builder_str h e fs pb dry_run)).
  { intros pb. unfold build_prepared. destruct (get_to_build pb) eqn:Hto; auto.
    apply serial_loop_called_once; auto. }
  assert (Hall : called_once h (build_targets set_order node_str remove_entry prepare_entry
                   run_build builder_str fuel h e fs targets prepared_build dry_run)).
  { unfold build_targets. destruct prepared_build as [pb|], targets as [t|]; auto.
    destruct (prepare_build set_order node_str fuel h e fs t); auto. }
  exact Hall.
Qed.

(** One builder, [0], with the two outputs [a.o] and [b.o], both out of date. *)
Definition pair_heap : Heap :=
  mkHeap [(File "a.o", mkNodeObj [] (Some 0)); (File "b.o", mkNodeObj [] (Some 0))]
         [(0, mkBuilderObj [] [File "a.o"; File "b.o"])].

Definition pair_build : PreparedBuild :=
  mkPreparedBuild [File "a.o"; File "b.o"] [File "a.o"; File "b.o"] []
                  [File "a.o"; File "b.o"] [] [] [File "a.o"; File "b.o"].

Lemma pair_heap_registered : registered pair_heap.
Proof.
  intros n b. unfold node_builder, node_obj, builder_builds, builder_obj. simpl.
  destruct (Node_eq_dec n (File "a.o")) as [->|Ha].
  - simpl. intros [= <-]. simpl. auto.
  - destruct (Node_eq_dec n (File "b.o")) as [->|Hb].
    + simpl. intros [= <-]. simpl. auto.
    + simpl. discriminate.
Qed.

Lemma serial_build_calls_builder_once_witness :
  calls (fst (build_targets (fun l => l) (fun _ => "n"%string) (fun fs _ => fs) (fun fs _ => fs)
                (fun _ fs => (fs, Return tt)) (fun _ => "b"%string)
                0 pair_heap (mkExecution "/src" [] [] []) empty_disk
                None (Some pair_build) true)) = [0]
  /\ NoDup (calls (fst (build_targets (fun l => l) (fun _ => "n"%string)
                (fun fs _ => fs) (fun fs _ => fs)
                (fun _ fs => (fs, Return tt)) (fun _ => "b"%string)
                0 pair_heap (mkExecution "/src" [] [] []) empty_disk
                None (Some pair_build) true))).
Proof.
  split; [reflexivity|].
  apply (serial_build_calls_builder_once (fun l => l) (fun _ => "n"%string)
           (fun fs _ => fs) (fun fs _ => fs) (fun _ fs => (fs, Return tt))
           (fun _ => "b"%string) 0 (mkExecution "/src" [] [] []) empty_disk
           None (Some pair_build) true pair_heap_registered).
Defined.

(** ** The traversal *)

Lemma dd_get_append (d : Dict.t Node (list Node)) (k v n : Node) :
  dd_get (dd_append d k v) n = if Node_eq_dec n k then dd_get d k ++ [v] else dd_get d n.
Proof.
  unfold dd_append, dd_get at 1. rewrite Dict.get_set.
  destruct (Node_eq_dec n k); reflexivity.
Qed.

Section TraverseFacts.

Variable deps_of : Node -> list Node.

(** What one visit does to [edges] and [to_visit]. *)
Lemma traverse_deps_fold (visiting : Node) (seen : list Node) (deps : list Node) :
  forall edges to_visit,
    fold_left (traverse_dep visiting seen) deps (edges, to_visit)
    = (fold_left (fun e d => dd_append e visiting d) deps edges,
       rev (filter (fun d => negb (set_mem Node_eq_dec d seen)) deps) ++ to_visit).
Proof.
  induction deps as [|d deps IH]; simpl; intros edges to_visit; auto.
  unfold traverse_dep at 2. simpl. rewrite IH.
  destruct (set_mem Node_eq_dec d seen); simpl; auto.
  rewrite <- app_assoc. reflexivity.
Qed.

Lemma dd_get_fold_append (visiting : Node) (deps : list Node) :
  forall edges n,
    dd_get (fold_left (fun e d => dd_append e visiting d) deps edges) n
    = if Node_eq_dec n visiting then dd_get edges visiting ++ deps else dd_get edges n.
Proof.
  induction deps as [|d deps IH]; simpl; intros edges n.
  - rewrite app_nil_r. destruct (Node_eq_dec n visiting); congruence.
  - rewrite IH, !dd_get_append.
    destruct (Node_eq_dec n visiting) as [->|Hne].
    + destruct (Node_eq_dec visiting visiting); [|congruence].
      rewrite <- app_assoc. reflexivity.
    + reflexivity.
Qed.

Lemma keys_fold_append (visiting : Node) (deps : list Node) :
  forall edges k,
    In k (Dict.keys (fold_left (fun e d => dd_append e visiting d) deps edges)) ->
    k = visiting \/ In k (Dict.keys edges).
Proof.
  induction deps as [|d deps IH]; simpl; intros edges k Hk; auto.
  apply IH in Hk. destruct Hk as [Hk|Hk]; auto.
  unfold dd_append in Hk. apply Dict.keys_set in Hk. exact Hk.
Qed.

(** The state after one visit, spelled out. *)
Lemma traverse_step_eq (st : TraverseState) (visiting : Node) (rest : list Node) :
  traverse_step deps_of st visiting rest
  = mkTraverse
      (reachable_entries st ++ [visiting])
      (fold_left (fun e d => dd_append e visiting d) (deps_of visiting) (tr_edges st))
      (set_add Node_eq_dec visiting (seen st))
      (rev (filter (fun d => negb (set_mem Node_eq_dec d
                                     (set_add Node_eq_dec visiting (seen st))))
                   (deps_of visiting)) ++ rest).
Proof. unfold traverse_step. rewrite traverse_deps_fold. reflexivity. Qed.

(** The number of pushes that are still to come from the nodes of [universe]
    that were not visited. *)
Definition pending (universe : list Node) (seen : list Node) : nat :=
  list_sum (map (fun n => length (deps_of n))
                (filter (fun n => negb (set_mem Node_eq_dec n seen)) universe)).

Lemma pending_visit (seen : list Node) (v : Node) (universe : list Node) :
  NoDup universe -> ~ In v seen ->
  pending universe seen
  = pending universe (set_add Node_eq_dec v seen)
    + (if in_dec Node_eq_dec v universe then length (deps_of v) else 0).
Proof.
  intros Hnodup Hv. unfold pending.
  induction Hnodup as [|x l Hx Hl IH]; simpl; auto.
  destruct (Node_eq_dec x v) as [->|Hne].
  - assert (E1 : set_mem Node_eq_dec v seen = false) by now apply set_mem_false.
    assert (E2 : set_mem Node_eq_dec v (set_add Node_eq_dec v seen) = true).
    { apply set_mem_true, set_add_in. auto. }
    rewrite E1, E2. simpl. rewrite IH.
    destruct (in_dec Node_eq_dec v l); [contradiction|]. lia.
  - assert (E : set_mem Node_eq_dec x (set_add Node_eq_dec v seen)
               = set_mem Node_eq_dec x seen).
    { destruct (set_mem Node_eq_dec x seen) eqn:Hm.
      - apply set_mem_true, set_add_in. right. now apply set_mem_true in Hm.
      - apply set_mem_false. rewrite set_add_in. apply set_mem_false in Hm.
        intros [H|H]; congruence. }
    rewrite E.
    destruct (in_dec Node_eq_dec v l) as [Hin|Hnin];
      destruct (set_mem Node_eq_dec x seen); simpl; rewrite IH; lia.
Qed.

End TraverseFacts.

(** The nodes that can be reached from the targets along [deps_of]. *)
Inductive reachable (deps_of : Node -> list Node) (targets : list Node) : Node -> Prop :=
| reach_target t : In t targets -> reachable deps_of targets t
| reach_dep n d :
    reachable deps_of targets n -> In d (deps_of n) -> reachable deps_of targets d.

Lemma app_split_right (A : Type) (p rest l1 l2 : list A) (w : A) :
  p ++ rest = l1 ++ w :: l2 -> ~ In w p ->
  exists l1', l1 = p ++ l1' /\ rest = l1' ++ w :: l2.
Proof.
  revert l1. induction p as [|x p IH]; simpl; intros l1 E Hw.
  - exists l1. auto.
  - destruct l1 as [|y l1]; simpl in E; injection E as -> E.
    + exfalso. apply Hw. now left.
    + destruct (IH l1 E) as [l1' [-> ->]]; [tauto|].
      exists l1'. auto.
Qed.

Lemma filter_nil (A : Type) (f : A -> bool) (l : list A) :
  (forall x, In x l -> f x = false) -> filter f l = [].
Proof.
  induction l as [|x l IH]; simpl; intros H; auto.
  rewrite (H x) by auto. apply IH. auto.
Qed.

Section TraverseInvariant.

Variable deps_of : Node -> list Node.
Variable universe : list Node.
Variable targets : list Node.

(** Every node that has dependencies is in the universe. *)
Hypothesis universe_covers : forall x, deps_of x <> [] -> In x universe.

Record traverse_inv (st : TraverseState) : Prop := mkTraverseInv {
  inv_seen : forall x, In x (seen st) <-> In x (reachable_entries st);
  inv_edges : forall n d,
      In d (dd_get (tr_edges st) n) <-> In n (seen st) /\ In d (deps_of n);
  inv_keys : forall k, In k (Dict.keys (tr_edges st)) -> In k (seen st);
  inv_closed : forall n d,
      In n (seen st) -> In d (deps_of n) -> In d (seen st) \/ In d (to_visit st);
  inv_stack : forall w d,
      In w (seen st) -> In d (deps_of w) -> ~ In d (seen st) ->
      forall l1 l2, to_visit st = l1 ++ w :: l2 -> In d l1;
  inv_reach : forall x,
      In x (seen st) \/ In x (to_visit st) -> reachable deps_of targets x;
  inv_targets : forall t, In t targets -> In t (seen st) \/ In t (to_visit st)
}.

Lemma traverse_inv_start : traverse_inv (mkTraverse [] [] [] (rev targets)).
Proof.
  constructor; simpl.
  - tauto.
  - intros n d. unfold dd_get. simpl. tauto.
  - tauto.
  - tauto.
  - tauto.
  - intros x [[]|H]. apply reach_target. now apply in_rev.
  - intros t Ht. right. now apply in_rev in Ht.
Qed.

Lemma pushed_in (v : Node) (seen' : list Node) (d : Node) :
  In d (rev (filter (fun d => negb (set_mem Node_eq_dec d seen')) (deps_of v)))
  <-> In d (deps_of v) /\ ~ In d seen'.
Proof.
  rewrite <- in_rev, filter_In, negb_true_iff, set_mem_false. tauto.
Qed.

Lemma traverse_inv_step (st : TraverseState) (v : Node) (rest : list Node) :
  to_visit st = v :: rest -> traverse_inv st ->
  traverse_inv (traverse_step deps_of st v rest).
Proof.
  intros Hstack Hinv. rewrite traverse_step_eq.
  destruct Hinv as [Hseen Hedges Hkeys Hclosed Hst Hreach Htargets].
  rewrite Hstack in *.
  constructor; simpl.
  - intros x. rewrite set_add_in, in_app_iff, Hseen. simpl. intuition.
  - intros n d. rewrite dd_get_fold_append, set_add_in.
    destruct (Node_eq_dec n v) as [->|Hne].
    + rewrite in_app_iff, Hedges. tauto.
    + rewrite Hedges. intuition.
  - intros k Hk. apply set_add_in. apply keys_fold_append in Hk.
    destruct Hk as [Hk|Hk]; auto.
  - intros n d Hn Hd. rewrite set_add_in, in_app_iff, pushed_in, set_add_in.
    apply set_add_in in Hn.
    destruct (in_dec Node_eq_dec d (seen st)) as [Hds|Hds]; [tauto|].
    destruct (Node_eq_dec d v) as [->|Hdv]; [tauto|].
    destruct Hn as [->|Hn].
    + right. left. tauto.
    + destruct (Hclosed n d Hn Hd) as [H|[H|H]]; [tauto|congruence|tauto].
  - intros w d Hw Hd Hnot l1 l2 E.
    apply app_split_right in E.
    + destruct E as [l1' [-> Erest]]. apply in_or_app.
      rewrite set_add_in in Hnot, Hw.
      destruct (Node_eq_dec w v) as [->|Hwv].
      * left. apply pushed_in. rewrite set_add_in. tauto.
      * right. destruct Hw as [Hw|Hw]; [congruence|].
        assert (Hin : In d (v :: l1')).
        { apply (Hst w d Hw Hd) with (l2 := l2); [tauto|].
          rewrite Erest. reflexivity. }
        destruct Hin as [<-|Hin]; [tauto|exact Hin].
    + rewrite pushed_in. tauto.
  - intros x. rewrite set_add_in, in_app_iff, pushed_in.
    intros [[->|Hx]|[[Hx _]|Hx]].
    + apply Hreach. right. now left.
    + apply Hreach. now left.
    + apply reach_dep with (n := v); auto. apply Hreach. right. now left.
    + apply Hreach. right. now right.
  - intros t Ht. rewrite set_add_in, in_app_iff.
    destruct (Htargets t Ht) as [H|[H|H]]; auto.
Qed.

End TraverseInvariant.

Section TraverseTermination.

Variable deps_of : Node -> list Node.
Variable universe : list Node.
Variable targets : list Node.

Hypothesis universe_covers : forall x, deps_of x <> [] -> In x universe.

(** The turns the loop still has to take, at most. *)
Definition turns_left (st : TraverseState) : nat :=
  length (to_visit st) + pending deps_of (nodup Node_eq_dec universe) (seen st).

Lemma turns_left_step (st : TraverseState) (v : Node) (rest : list Node) :
  to_visit st = v :: rest -> traverse_inv deps_of targets st ->
  turns_left (traverse_step deps_of st v rest) < turns_left st.
Proof.
  intros Hstack Hinv. rewrite traverse_step_eq. unfold turns_left. simpl.
  rewrite Hstack. simpl. rewrite length_app, length_rev.
  destruct (in_dec Node_eq_dec v (seen st)) as [Hv|Hv].
  - replace (set_add Node_eq_dec v (seen st)) with (seen st)
      by (unfold set_add; destruct (in_dec Node_eq_dec v (seen st)); tauto).
    rewrite filter_nil; [simpl; lia|].
    intros d Hd. apply negb_false_iff, set_mem_true.
    destruct (in_dec Node_eq_dec d (seen st)) as [|Hnot]; auto.
    exfalso. apply (@inv_stack deps_of targets st Hinv v d Hv Hd Hnot [] rest). exact Hstack.
  - rewrite (@pending_visit deps_of (seen st) v (nodup Node_eq_dec universe)
               (NoDup_nodup Node_eq_dec universe) Hv).
    pose proof (filter_length_le
                  (fun d => negb (set_mem Node_eq_dec d (set_add Node_eq_dec v (seen st))))
                  (deps_of v)) as Hle.
    destruct (in_dec Node_eq_dec v (nodup Node_eq_dec universe)) as [Hu|Hu]; [lia|].
    destruct (deps_of v) as [|d ds] eqn:Hdeps; [simpl; lia|].
    exfalso. apply Hu, nodup_In, universe_covers. congruence.
Qed.

(** The loop returns within its budget, and what it returns: the nodes
    visited are the reachable ones, and the edges recorded for a node are
    its dependencies. *)
Lemma traverse_loop_returns (fuel : nat) :
  forall st, traverse_inv deps_of targets st -> turns_left st <= fuel ->
  exists all_nodes edges,
    traverse_loop deps_of fuel st = Return (all_nodes, edges)
    /\ (forall x, In x all_nodes <-> reachable deps_of targets x)
    /\ (forall n d, In d (dd_get edges n) <-> In n all_nodes /\ In d (deps_of n))
    /\ (forall k, In k (Dict.keys edges) -> In k all_nodes).
Proof.
  induction fuel as [|fuel IH]; intros st Hinv Hfuel.
  - destruct (to_visit st) as [|v rest] eqn:Hstack.
    + exists (reachable_entries st), (tr_edges st).
      split; [simpl; now rewrite Hstack|].
      destruct Hinv as [Hseen Hedges Hkeys Hclosed _ Hreach Htargets].
      rewrite Hstack in *. split; [|split].
      * intros x. rewrite <- Hseen. split; [auto|].
        induction 1 as [t Ht|n d _ IHn Hd].
        -- destruct (Htargets t Ht) as [H|[]]; auto.
        -- destruct (Hclosed n d IHn Hd) as [H|[]]; auto.
      * intros n d. rewrite Hedges, Hseen. tauto.
      * intros k Hk. apply Hseen. auto.
    + unfold turns_left in Hfuel. rewrite Hstack in Hfuel. simpl in Hfuel. lia.
  - destruct (to_visit st) as [|v rest] eqn:Hstack.
    + exists (reachable_entries st), (tr_edges st).
      split; [simpl; now rewrite Hstack|].
      destruct Hinv as [Hseen Hedges Hkeys Hclosed _ Hreach Htargets].
      rewrite Hstack in *. split; [|split].
      * intros x. rewrite <- Hseen. split; [auto|].
        induction 1 as [t Ht|n d _ IHn Hd].
        -- destruct (Htargets t Ht) as [H|[]]; auto.
        -- destruct (Hclosed n d IHn Hd) as [H|[]]; auto.
      * intros n d. rewrite Hedges, Hseen. tauto.
      * intros k Hk. apply Hseen. auto.
    + simpl. rewrite Hstack. apply IH.
      * now apply traverse_inv_step.
      * pose proof (turns_left_step Hstack Hinv). lia.
Qed.

(** The traversal returns, with the reachable nodes and their edges. *)
Lemma traverse_returns :
  exists all_nodes edges,
    traverse deps_of universe targets = Return (all_nodes, edges)
    /\ (forall x, In x all_nodes <-> reachable deps_of targets x)
    /\ (forall n d, In d (dd_get edges n) <-> In n all_nodes /\ In d (deps_of n))
    /\ (forall k, In k (Dict.keys edges) -> In k all_nodes).
Proof.
  unfold traverse. apply traverse_loop_returns.
  - apply traverse_inv_start.
  - unfold turns_left, traverse_budget, pending. simpl.
    rewrite length_rev. apply Nat.add_le_mono_l.
    assert (E : forall l : list Node,
               filter (fun n => negb (set_mem Node_eq_dec n [])) l = l)
      by (induction l as [|x l IHl]; [reflexivity|];
          change (x :: filter (fun n => negb (set_mem Node_eq_dec n [])) l = x :: l);
          now rewrite IHl).
    rewrite E. apply Nat.le_refl.
Qed.

End TraverseTermination.

(** ** The effective dependencies of a node *)

Lemma fold_set_update_in (f : Node -> list Node) (l : list Node) :
  forall acc d,
    In d (fold_left (fun deps s => set_update Node_eq_dec deps (f s)) l acc)
    <-> In d acc \/ exists s, In s l /\ In d (f s).
Proof.
  induction l as [|x l IH]; simpl; intros acc d.
  - split; [auto|]. intros [H|[s [[] _]]]. exact H.
  - rewrite IH, set_update_in. split.
    + intros [[H|H]|[s [Hs Hd]]]; eauto.
    + intros [H|[s [[<-|Hs] Hd]]]; eauto.
Qed.

(** The dependencies computed for a node are its own [depends], the
    [depends] of its builder, and the [depends] of every output of that
    builder. *)
Lemma dependencies_in (h : Heap) (n d : Node) :
  In d (dependencies h n) <->
  In d (node_depends h n)
  \/ exists b, node_builder h n = Some b
               /\ (In d (builder_depends h b)
                   \/ exists sibling, In sibling (builder_builds h b)
                                      /\ In d (node_depends h sibling)).
Proof.
  unfold dependencies. destruct (node_builder h n) as [b|].
  - rewrite fold_set_update_in, set_update_in, set_of_in. split.
    + intros [[H|H]|H]; eauto.
    + intros [H|[b' [[= <-] [H|H]]]]; auto.
  - rewrite set_of_in. split; auto. intros [H|[b [Hb _]]]; [auto|discriminate].
Qed.

Lemma get_none_or_key (V : Type) (d : Dict.t Node V) (k : Node) :
  Dict.get Node_eq_dec d k = None \/ In k (Dict.keys d).
Proof.
  destruct (Dict.get Node_eq_dec d k) as [v|] eqn:E; auto.
  right. apply Dict.get_some_in in E. unfold Dict.keys.
  apply in_map_iff. exists (k, v). auto.
Qed.

Lemma dependencies_heap_nodes (h : Heap) (n : Node) :
  dependencies h n <> [] -> In n (heap_nodes h).
Proof.
  intros Hne. unfold heap_nodes. apply in_or_app.
  destruct (get_none_or_key (node_objs h) n) as [E|H]; auto.
  exfalso. apply Hne. unfold dependencies, node_builder, node_depends, node_obj.
  rewrite E. reflexivity.
Qed.

Lemma reachable_ext (f g : Node -> list Node) (targets : list Node) :
  (forall n d, In d (f n) <-> In d (g n)) ->
  forall x, reachable f targets x <-> reachable g targets x.
Proof.
  intros Hfg x. split; induction 1 as [t Ht|n d _ IH Hd].
  - now apply reach_target.
  - apply reach_dep with (n := n); auto. now apply Hfg.
  - now apply reach_target.
  - apply reach_dep with (n := n); auto. now apply Hfg.
Qed.

Section NodeGraph.

Variable set_order : list Node -> list Node.
Hypothesis set_order_perm : forall l, Permutation (set_order l) l.

(** [_traverse_node_graph] returns; the nodes it lists are the nodes
    reachable from the targets, and the edges it records for a node are the
    effective dependencies of that node. *)
Lemma traverse_node_graph_returns (h : Heap) (targets : list Node) :
  exists all_nodes edges,
    _traverse_node_graph set_order h targets = Return (all_nodes, edges)
    /\ (forall x, In x all_nodes <-> reachable (dependencies h) targets x)
    /\ (forall n d, In d (dd_get edges n) <-> In n all_nodes /\ In d (dependencies h n))
    /\ (forall k, In k (Dict.keys edges) -> In k all_nodes).
Proof.
  unfold _traverse_node_graph.
  destruct (@traverse_returns (fun v => set_order (dependencies h v))
              (heap_nodes h) targets) as [all_nodes [edges [E [H1 [H2 H3]]]]].
  - intros x Hx. apply dependencies_heap_nodes. intros Hnil. apply Hx.
    rewrite Hnil. apply Permutation_nil. apply Permutation_sym, set_order_perm.
  - exists all_nodes, edges. split; [exact E|]. split; [|split; [|exact H3]].
    + intros x. rewrite H1. apply reachable_ext.
      intros n d. now apply set_order_in.
    + intros n d. rewrite H2. rewrite (set_order_in set_order set_order_perm). tauto.
Qed.

End NodeGraph.

Unset Implicit Arguments.

(** For [_traverse_node_graph], the edges recorded for a reachable node are
    the union the resolver is to build: its own [depends], the [depends] of
    its builder and the [depends] of every output of that builder. *)
Lemma traverse_node_graph_edges (set_order : list Node -> list Node)
    (h : Heap) (targets : list Node) :
  (forall l, Permutation (set_order l) l) ->
  exists all_nodes edges,
    _traverse_node_graph set_order h targets = Return (all_nodes, edges)
    /\ forall n, reachable (dependencies h) targets n ->
       forall d, In d (dd_get edges n) <->
         In d (node_depends h n)
         \/ exists b, node_builder h n = Some b
                      /\ (In d (builder_depends h b)
                          \/ exists sibling, In sibling (builder_builds h b)
                                             /\ In d (node_depends h sibling)).
Proof.
  intros Hp.
  destruct (@traverse_node_graph_returns set_order Hp h targets)
    as [all_nodes [edges [E [H1 [H2 _]]]]].
  exists all_nodes, edges. split; [exact E|].
  intros n Hn d. rewrite H2, <- dependencies_in. apply H1 in Hn. tauto.
Qed.

(** A compiler run, builder [0], makes [a.o] from [a.c] and writes the
    dependency file [a.d] as a side effect; [a.d] depends on the generated
    header [gen.h]. *)
Definition sibling_heap : Heap :=
  mkHeap [(File "a.o", mkNodeObj [] (Some 0));
          (File "a.d", mkNodeObj [File "gen.h"] (Some 0))]
         [(0, mkBuilderObj [File "a.c"] [File "a.o"; File "a.d"])].

(** C5: the claim says that the edges of a node hold the [depends] of every
    sibling output of its builder.  [_traverse_entry_graph] of
    [__init__.py] only takes the [depends] of the node and of its builder:
    for the target [a.o] it records [a.c] alone, and [gen.h], a dependency
    of the sibling [a.d], is neither an edge of [a.o] nor visited. *)
Theorem traverse_entry_graph_misses_sibling :
  Init._traverse_entry_graph sibling_heap [File "a.o"]
    = Return ([File "a.o"; File "a.c"], [(File "a.o", [File "a.c"])])
  /\ node_builder sibling_heap (File "a.o") = Some 0
  /\ In (File "a.d") (builder_builds sibling_heap 0)
  /\ In (File "gen.h") (node_depends sibling_heap (File "a.d"))
  /\ ~ In (File "gen.h") (dd_get [(File "a.o", [File "a.c"])] (File "a.o")).
Proof.
  split; [reflexivity|]. split; [reflexivity|].
  split; [simpl; auto|]. split; [simpl; auto|].
  simpl. intros [H|[]]. discriminate.
Qed.

(** ** Dictionaries of edges *)

Lemma get_not_key (V : Type) (d : Dict.t Node V) (k : Node) :
  ~ In k (Dict.keys d) -> Dict.get Node_eq_dec d k = None.
Proof.
  intros H. destruct (get_none_or_key d k) as [E|E]; [exact E|contradiction].
Qed.

Lemma in_nodup_get (V : Type) (d : Dict.t Node V) (k : Node) (v : V) :
  NoDup (Dict.keys d) -> In (k, v) d -> Dict.get Node_eq_dec d k = Some v.
Proof.
  induction d as [|[k' v'] d IH]; simpl; intros Hnodup Hin; [destruct Hin|].
  inversion Hnodup as [|? ? Hnot Hrest]; subst.
  destruct Hin as [[= -> ->]|Hin].
  - destruct (Node_eq_dec k k); congruence.
  - destruct (Node_eq_dec k k') as [->|Hne]; auto.
    exfalso. apply Hnot. unfold Dict.keys. apply in_map_iff. exists (k', v). auto.
Qed.

Lemma keys_set_nodup (V : Type) (d : Dict.t Node V) (k : Node) (v : V) :
  NoDup (Dict.keys d) -> NoDup (Dict.keys (Dict.set Node_eq_dec d k v)).
Proof.
  induction d as [|[k' v'] d IH]; simpl; intros Hnodup.
  - constructor; [intros []|constructor].
  - inversion Hnodup as [|? ? Hnot Hrest]; subst.
    destruct (Node_eq_dec k k') as [->|Hne]; simpl.
    + constructor; auto.
    + constructor; auto. intros Hin.
      apply (Dict.keys_set Node_eq_dec d k v k') in Hin. destruct Hin; congruence.
Qed.

Lemma dd_get_set (d : Dict.t Node (list Node)) (k : Node) (v : list Node) (n : Node) :
  dd_get (Dict.set Node_eq_dec d k v) n = if Node_eq_dec n k then v else dd_get d n.
Proof.
  unfold dd_get. rewrite Dict.get_set. destruct (Node_eq_dec n k); reflexivity.
Qed.

Lemma dd_get_in (d : Dict.t Node (list Node)) (n x : Node) :
  In x (dd_get d n) -> exists deps, Dict.get Node_eq_dec d n = Some deps /\ In x deps.
Proof.
  unfold dd_get. destruct (Dict.get Node_eq_dec d n) as [deps|]; [eauto|intros []].
Qed.

Lemma copy_edges_fold (orig : Dict.t Node (list Node)) :
  NoDup (Dict.keys orig) ->
  forall acc n,
    Dict.get Node_eq_dec
      (fold_left (fun d '(e, deps) => Dict.set Node_eq_dec d e (set_of Node_eq_dec deps))
                 orig acc) n
    = match Dict.get Node_eq_dec orig n with
      | Some deps => Some (set_of Node_eq_dec deps)
      | None => Dict.get Node_eq_dec acc n
      end.
Proof.
  induction orig as [|[k v] orig IH]; simpl; intros Hnodup acc n; auto.
  inversion Hnodup as [|? ? Hnot Hrest]; subst.
  rewrite (IH Hrest), Dict.get_set.
  destruct (Node_eq_dec n k) as [->|Hne]; auto.
  now rewrite (get_not_key _ orig k Hnot).
Qed.

Lemma copy_edges_keys_nodup (orig : Dict.t Node (list Node)) :
  NoDup (Dict.keys (copy_edges orig)).
Proof.
  unfold copy_edges.
  assert (H : forall acc, NoDup (Dict.keys acc) ->
            NoDup (Dict.keys (fold_left
              (fun d '(e, deps) => Dict.set Node_eq_dec d e (set_of Node_eq_dec deps))
              orig acc))).
  { induction orig as [|[k v] orig IH]; simpl; intros acc Hacc; auto.
    apply IH. now apply keys_set_nodup. }
  apply H. constructor.
Qed.

(** The copy [_sort_dag] works on has the edges it was given. *)
Lemma copy_edges_in (orig : Dict.t Node (list Node)) (n d : Node) :
  NoDup (Dict.keys orig) ->
  (In d (dd_get (copy_edges orig) n) <-> In d (dd_get orig n)).
Proof.
  intros Hnodup. unfold dd_get, copy_edges. rewrite (copy_edges_fold orig Hnodup).
  destruct (Dict.get Node_eq_dec orig n) as [deps|]; simpl.
  - apply set_of_in.
  - tauto.
Qed.

Section ReverseEdges.

Variable set_order : list Node -> list Node.
Hypothesis set_order_perm : forall l, Permutation (set_order l) l.

Lemma reverse_add_fold (e : Node) (ds : list Node) :
  forall r,
    (forall n, NoDup (dd_get r n)) ->
    (forall n x,
        In x (dd_get (fold_left
                (fun r dep => Dict.set Node_eq_dec r dep
                                (set_add Node_eq_dec e (dd_get r dep))) ds r) n)
        <-> In x (dd_get r n) \/ (x = e /\ In n ds))
    /\ forall n, NoDup (dd_get (fold_left
                (fun r dep => Dict.set Node_eq_dec r dep
                                (set_add Node_eq_dec e (dd_get r dep))) ds r) n).
Proof.
  induction ds as [|dep ds IH]; simpl; intros r Hnodup.
  - split; [|exact Hnodup]. intros n x. tauto.
  - destruct (IH (Dict.set Node_eq_dec r dep (set_add Node_eq_dec e (dd_get r dep))))
      as [Hin Hnd].
    + intros n. rewrite dd_get_set. destruct (Node_eq_dec n dep); auto.
      now apply set_add_nodup.
    + split; [|exact Hnd]. intros n x. rewrite Hin, dd_get_set.
      destruct (Node_eq_dec n dep) as [->|Hne].
      * rewrite set_add_in. intuition.
      * intuition. congruence.
Qed.

Lemma build_reverse_fold (items : Dict.t Node (list Node)) :
  forall r,
    (forall n, NoDup (dd_get r n)) ->
    (forall n x,
        In x (dd_get (fold_left
                (fun r '(e, deps) =>
                   fold_left (fun r dep => Dict.set Node_eq_dec r dep
                                             (set_add Node_eq_dec e (dd_get r dep)))
                             (set_order deps) r) items r) n)
        <-> In x (dd_get r n) \/ exists deps, In (x, deps) items /\ In n deps)
    /\ forall n, NoDup (dd_get (fold_left
                (fun r '(e, deps) =>
                   fold_left (fun r dep => Dict.set Node_eq_dec r dep
                                             (set_add Node_eq_dec e (dd_get r dep)))
                             (set_order deps) r) items r) n).
Proof.
  induction items as [|[e deps] items IH]; simpl; intros r Hnodup.
  - split; [|exact Hnodup]. intros n x. split; [auto|]. intros [H|[deps [[] _]]]. exact H.
  - destruct (reverse_add_fold e (set_order deps) r Hnodup) as [Hin1 Hnd1].
    destruct (IH _ Hnd1) as [Hin Hnd]. split; [|exact Hnd].
    intros n x. rewrite Hin, Hin1, (set_order_in set_order set_order_perm). split.
    + intros [[H|[-> H]]|[deps' [H1 H2]]]; eauto.
    + intros [H|[deps' [[[= -> ->]|H1] H2]]]; eauto.
Qed.

(** [reverse_edges] holds the edges of [edges], turned round, each once. *)
Lemma build_reverse_in (edges : Dict.t Node (list Node)) :
  NoDup (Dict.keys edges) ->
  (forall n m, In m (dd_get (build_reverse set_order edges) n) <-> In n (dd_get edges m))
  /\ forall n, NoDup (dd_get (build_reverse set_order edges) n).
Proof.
  intros Hkeys. unfold build_reverse.
  destruct (build_reverse_fold edges []) as [Hin Hnd].
  { intros n. unfold dd_get. simpl. constructor. }
  split; [|exact Hnd]. intros n m. rewrite Hin. split.
  - intros [[]|[deps [H1 H2]]]. unfold dd_get.
    now rewrite (in_nodup_get _ edges m deps Hkeys H1).
  - intros H. right. apply dd_get_in in H. destruct H as [deps [E H]].
    exists deps. split; auto. now apply Dict.get_some_in in E.
Qed.

End ReverseEdges.

(** ** The loop of [_sort_dag] *)

Lemma edge_count_set (edges : Dict.t Node (list Node)) (m : Node) (old new : list Node) :
  Dict.get Node_eq_dec edges m = Some old ->
  edge_count (Dict.set Node_eq_dec edges m new) + length old
  = edge_count edges + length new.
Proof.
  unfold edge_count. induction edges as [|[k v] edges IH]; simpl; [discriminate|].
  destruct (Node_eq_dec m k) as [->|Hne].
  - intros [= ->]. simpl. lia.
  - intros H. simpl. specialize (IH H). lia.
Qed.

Lemma nil_no_elements (l : list Node) : l = [] <-> forall d, ~ In d l.
Proof.
  split.
  - intros -> d [].
  - destruct l as [|x l]; auto. intros H. exfalso. apply (H x). now left.
Qed.

(** [reverse_edges] and [edges] describe the same edges. *)
Definition consistent (st : SortState) : Prop :=
  forall m n, In m (dd_get (st_reverse st) n) <-> In n (dd_get (st_edges st) m).

(** Removing the edge from [m] to [node]. *)
Definition relaxed (node : Node) (st : SortState) (m : Node) : SortState :=
  mkSort (Dict.set Node_eq_dec (st_edges st) m
            (remove Node_eq_dec node (dd_get (st_edges st) m)))
         (Dict.set Node_eq_dec (st_reverse st) node
            (remove Node_eq_dec m (dd_get (st_reverse st) node)))
         (sorted_nodes st)
         (match remove Node_eq_dec node (dd_get (st_edges st) m) with
          | [] => m :: leaf_nodes st
          | _ => leaf_nodes st
          end).

Lemma sort_relax_returns (node : Node) (st : SortState) (m : Node) :
  In m (dd_get (st_reverse st) node) -> In node (dd_get (st_edges st) m) ->
  sort_relax node (Return st) m = Return (relaxed node st m).
Proof.
  intros Hm Hnode. unfold sort_relax, set_remove. simpl.
  destruct (in_dec Node_eq_dec m (dd_get (st_reverse st) node)); [|contradiction].
  simpl.
  destruct (in_dec Node_eq_dec node (dd_get (st_edges st) m)); [|contradiction].
  reflexivity.
Qed.

Lemma relaxed_edges (node : Node) (st : SortState) (m : Node) (x d : Node) :
  In d (dd_get (st_edges (relaxed node st m)) x)
  <-> In d (dd_get (st_edges st) x) /\ ~ (x = m /\ d = node).
Proof.
  simpl. rewrite dd_get_set. destruct (Node_eq_dec x m) as [->|Hne].
  - rewrite remove_in. tauto.
  - tauto.
Qed.

Lemma relaxed_reverse (node : Node) (st : SortState) (m : Node) (n x : Node) :
  In x (dd_get (st_reverse (relaxed node st m)) n)
  <-> In x (dd_get (st_reverse st) n) /\ ~ (n = node /\ x = m).
Proof.
  simpl. rewrite dd_get_set. destruct (Node_eq_dec n node) as [->|Hne].
  - rewrite remove_in. tauto.
  - tauto.
Qed.

Lemma relaxed_consistent (node : Node) (st : SortState) (m : Node) :
  consistent st -> consistent (relaxed node st m).
Proof.
  intros H x n. rewrite relaxed_reverse, relaxed_edges, (H x n). tauto.
Qed.

Lemma relaxed_reverse_nodup (node : Node) (st : SortState) (m : Node) :
  (forall n, NoDup (dd_get (st_reverse st) n)) ->
  forall n, NoDup (dd_get (st_reverse (relaxed node st m)) n).
Proof.
  intros H n. simpl. rewrite dd_get_set. destruct (Node_eq_dec n node); auto.
  apply remove_nodup. auto.
Qed.

Lemma relaxed_count (node : Node) (st : SortState) (m : Node) :
  In node (dd_get (st_edges st) m) ->
  edge_count (st_edges (relaxed node st m)) < edge_count (st_edges st).
Proof.
  intros Hnode. simpl.
  destruct (dd_get_in _ _ _ Hnode) as [old [E Hold]].
  pose proof (edge_count_set (st_edges st) m old
                (remove Node_eq_dec node (dd_get (st_edges st) m)) E) as Hc.
  assert (Hd : dd_get (st_edges st) m = old) by (unfold dd_get; now rewrite E).
  rewrite Hd in *.
  pose proof (remove_length_lt Node_eq_dec old node Hold). lia.
Qed.

(** What the loop over the dependents [ms] of [node] does: it removes the
    edges from them to [node], and pushes those that have no edge left. *)
Lemma sort_relax_fold (node : Node) (ms : list Node) :
  forall st,
    NoDup ms ->
    (forall m, In m ms -> In m (dd_get (st_reverse st) node)) ->
    consistent st ->
    exists st' pushed,
      fold_left (sort_relax node) ms (Return st) = Return st'
      /\ consistent st'
      /\ (forall x d, In d (dd_get (st_edges st') x)
                      <-> In d (dd_get (st_edges st) x) /\ ~ (In x ms /\ d = node))
      /\ (forall n x, In x (dd_get (st_reverse st') n)
                      <-> In x (dd_get (st_reverse st) n) /\ ~ (n = node /\ In x ms))
      /\ ((forall n, NoDup (dd_get (st_reverse st) n)) ->
          forall n, NoDup (dd_get (st_reverse st') n))
      /\ sorted_nodes st' = sorted_nodes st
      /\ leaf_nodes st' = pushed ++ leaf_nodes st
      /\ NoDup pushed
      /\ (forall x, In x pushed <-> In x ms /\ dd_get (st_edges st') x = [])
      /\ length pushed + edge_count (st_edges st') <= edge_count (st_edges st).
Proof.
  induction ms as [|m ms IH]; intros st Hnodup Hms Hcons.
  - exists st, [].
    split; [reflexivity|]. split; [exact Hcons|].
    split; [intros; simpl; tauto|]. split; [intros; simpl; tauto|].
    split; [auto|]. split; [reflexivity|]. split; [reflexivity|].
    split; [constructor|]. split; [intros x; simpl; tauto|]. simpl; lia.
  - inversion Hnodup as [|? ? Hnot Hrest]; subst.
    assert (Hm : In m (dd_get (st_reverse st) node)) by (apply Hms; now left).
    assert (Hnode : In node (dd_get (st_edges st) m)) by now apply Hcons.
    cbn [fold_left]. rewrite (sort_relax_returns node st m Hm Hnode).
    destruct (IH (relaxed node st m) Hrest) as
      [st' [pushed [Hfold [Hcons' [He [Hr [Hnd [Hs [Hl [Hpn [Hp Hc]]]]]]]]]]].
    { intros m' Hm'. apply relaxed_reverse. split.
      - apply Hms. now right.
      - intros [_ ->]. contradiction. }
    { now apply relaxed_consistent. }
    assert (Hem : forall d, In d (dd_get (st_edges st') m)
                            <-> In d (dd_get (st_edges (relaxed node st m)) m)).
    { intros d. rewrite He. tauto. }
    assert (Hnil : dd_get (st_edges st') m = []
                   <-> remove Node_eq_dec node (dd_get (st_edges st) m) = []).
    { rewrite !nil_no_elements. simpl in Hem.
      rewrite dd_get_set in Hem. destruct (Node_eq_dec m m); [|congruence].
      split; intros H d Hd; apply (H d); now apply Hem. }
    pose proof (relaxed_count node st m Hnode) as Hlt.
    exists st'.
    exists (pushed ++ match remove Node_eq_dec node (dd_get (st_edges st) m) with
                      | [] => [m]
                      | _ => []
                      end).
    split; [exact Hfold|]. split; [exact Hcons'|].
    split; [|split; [|split; [|split; [|split; [|split; [|split]]]]]].
    + intros x d. rewrite He, relaxed_edges. simpl. intuition (subst; auto).
    + intros n x. rewrite Hr, relaxed_reverse. simpl. intuition (subst; auto).
    + intros H. apply Hnd. now apply relaxed_reverse_nodup.
    + rewrite Hs. reflexivity.
    + rewrite Hl. simpl.
      destruct (remove Node_eq_dec node (dd_get (st_edges st) m));
        rewrite <- app_assoc; reflexivity.
    + destruct (remove Node_eq_dec node (dd_get (st_edges st) m)).
      * apply NoDup_app; auto.
        -- constructor; [intros []|constructor].
        -- intros x Hx [<-|[]]. apply Hp in Hx. tauto.
      * now rewrite app_nil_r.
    + intros x. rewrite in_app_iff, Hp. simpl.
      destruct (remove Node_eq_dec node (dd_get (st_edges st) m)) eqn:Hrem.
      * simpl. split.
        -- intros [[H1 H2]|[<-|[]]]; auto. split; auto. now apply Hnil.
        -- intros [[<-|H1] H2]; auto.
      * simpl. split.
        -- intros [[H1 H2]|[]]. auto.
        -- intros [[<-|H1] H2]; auto. apply Hnil in H2. discriminate.
    + rewrite length_app.
      destruct (remove Node_eq_dec node (dd_get (st_edges st) m)); simpl; lia.
Qed.

Lemma topological_nil (edges : Dict.t Node (list Node)) : topological edges [].
Proof. intros l1 n l2 E. destruct l1; discriminate. Qed.

Lemma topological_snoc (edges : Dict.t Node (list Node)) (l : list Node) (node : Node) :
  topological edges l ->
  (forall d, In d (dd_get edges node) -> In d l) ->
  topological edges (l ++ [node]).
Proof.
  intros Htopo Hnode l1 n l2 E d Hd.
  destruct l2 as [|y l2'] using rev_ind.
  - apply app_inj_tail in E. destruct E as [-> ->]. auto.
  - clear IHl2'. rewrite app_comm_cons, app_assoc in E.
    apply app_inj_tail in E. destruct E as [E _].
    apply (Htopo l1 n l2' E d Hd).
Qed.

Section SortInvariant.

Variable set_order : list Node -> list Node.
Hypothesis set_order_perm : forall l, Permutation (set_order l) l.

(** The nodes and the edges [_sort_dag] starts from. *)
Variable nodes : list Node.
Variable edges0 : Dict.t Node (list Node).

(** A node that has a dependency is one of the nodes. *)
Hypothesis sources_in_nodes : forall n d, In d (dd_get edges0 n) -> In n nodes.

Record sort_inv (st : SortState) : Prop := mkSortInv {
  si_consistent : consistent st;
  si_rev_nodup : forall n, NoDup (dd_get (st_reverse st) n);
  si_sub : forall n d, In d (dd_get (st_edges st) n) -> In d (dd_get edges0 n);
  si_done : forall n d,
      In d (dd_get edges0 n) -> In d (dd_get (st_edges st) n) \/ In d (sorted_nodes st);
  si_live : forall n d, In d (dd_get (st_edges st) n) -> ~ In d (sorted_nodes st);
  si_leaf : forall l, In l (leaf_nodes st) -> dd_get (st_edges st) l = [];
  si_sorted : forall s, In s (sorted_nodes st) -> dd_get (st_edges st) s = [];
  si_topo : topological edges0 (sorted_nodes st);
  si_all : forall n,
      In n nodes -> dd_get (st_edges st) n = [] ->
      In n (sorted_nodes st) \/ In n (leaf_nodes st);
  si_from : forall x, In x (sorted_nodes st) \/ In x (leaf_nodes st) -> In x nodes;
  si_nodup : NoDup nodes -> NoDup (sorted_nodes st ++ leaf_nodes st)
}.

(** One turn of the loop returns, keeps the invariant, and leaves fewer
    turns to take. *)
Lemma sort_step_inv (st : SortState) (node : Node) (rest : list Node) :
  sort_inv st -> leaf_nodes st = node :: rest ->
  exists st',
    sort_step set_order st node rest = Return st'
    /\ sort_inv st'
    /\ length (leaf_nodes st') + edge_count (st_edges st')
       < length (leaf_nodes st) + edge_count (st_edges st).
Proof.
  intros Hinv Hleaf.
  destruct Hinv as [Hcons Hrnd Hsub Hdone Hlive Hlf Hsorted Htopo Hall Hfrom Hnd].
  rewrite Hleaf in *.
  set (popped := mkSort (st_edges st) (st_reverse st) (sorted_nodes st ++ [node]) rest).
  destruct (sort_relax_fold node (set_order (dd_get (st_reverse st) node)) popped)
    as [st' [pushed [Hfold [Hcons' [He [Hr [Hnd' [Hs [Hl [Hpn [Hp Hc]]]]]]]]]]].
  { apply (set_order_nodup set_order set_order_perm). apply Hrnd. }
  { intros m Hm. rewrite (set_order_in set_order set_order_perm) in Hm. exact Hm. }
  { exact Hcons. }
  simpl in He, Hr, Hnd', Hs, Hl, Hc.
  assert (Hms : forall x, In x (set_order (dd_get (st_reverse st) node))
                          <-> In node (dd_get (st_edges st) x)).
  { intros x. rewrite (set_order_in set_order set_order_perm). apply Hcons. }
  assert (He' : forall x d, In d (dd_get (st_edges st') x)
                            <-> In d (dd_get (st_edges st) x) /\ d <> node).
  { intros x d. rewrite He, Hms. split.
    - intros [H1 H2]. split; auto. intros ->. tauto.
    - intros [H1 H2]. tauto. }
  assert (Hnil : forall x, dd_get (st_edges st) x = [] -> dd_get (st_edges st') x = []).
  { intros x Hx. apply nil_no_elements. intros d Hd. apply He' in Hd.
    rewrite Hx in Hd. tauto. }
  assert (Hnode : dd_get (st_edges st) node = []) by (apply Hlf; now left).
  exists st'. split; [exact Hfold|]. split.
  - constructor.
    + exact Hcons'.
    + apply Hnd'. exact Hrnd.
    + intros n d Hd. apply He' in Hd. apply Hsub. tauto.
    + intros n d Hd. rewrite Hs, in_app_iff, He'. simpl.
      destruct (Node_eq_dec d node) as [->|Hne]; [tauto|].
      destruct (Hdone n d Hd); tauto.
    + intros n d Hd. rewrite Hs, in_app_iff. simpl. apply He' in Hd.
      destruct Hd as [Hd Hne]. specialize (Hlive n d Hd).
      intros [H|[H|[]]]; [tauto|congruence].
    + intros l. rewrite Hl, in_app_iff. intros [H|H].
      * apply Hp in H. tauto.
      * apply Hnil, Hlf. now right.
    + intros s. rewrite Hs, in_app_iff. simpl. intros [H|[<-|[]]]; auto.
    + rewrite Hs. apply topological_snoc; auto.
      intros d Hd. destruct (Hdone node d Hd) as [H|H]; auto.
      rewrite Hnode in H. destruct H.
    + intros n Hn Hempty. rewrite Hs, Hl, !in_app_iff. simpl.
      destruct (dd_get (st_edges st) n) as [|x xs] eqn:Hold.
      * destruct (Hall n Hn Hold) as [H|[H|H]]; auto.
      * right. left. apply Hp. split; auto. apply Hms. rewrite Hold.
        destruct (Node_eq_dec x node) as [->|Hne]; [now left|].
        exfalso. assert (Hx : In x (dd_get (st_edges st') n)).
        { apply He'. rewrite Hold. split; [now left|exact Hne]. }
        rewrite Hempty in Hx. destruct Hx.
    + intros x. rewrite Hs, Hl, !in_app_iff. simpl.
      intros [[H|[<-|[]]]|[H|H]].
      * apply Hfrom. auto.
      * apply Hfrom. right. now left.
      * apply Hp in H. destruct H as [H _]. apply Hms in H.
        apply (sources_in_nodes x node). now apply Hsub.
      * apply Hfrom. right. now right.
    + intros Hnodes. specialize (Hnd Hnodes). rewrite Hs, Hl.
      apply Permutation_NoDup
        with (l := pushed ++ (sorted_nodes st ++ [node]) ++ rest).
      * apply Permutation_app_swap_app.
      * rewrite <- app_assoc. simpl. apply NoDup_app; auto.
        intros x Hx Hold. apply Hp in Hx. destruct Hx as [Hx _].
        apply Hms in Hx. apply in_app_or in Hold. destruct Hold as [H|H].
        -- rewrite (Hsorted x H) in Hx. destruct Hx.
        -- rewrite (Hlf x H) in Hx. destruct Hx.
  - rewrite Hl, length_app. simpl. lia.
Qed.

End SortInvariant.

(** The keys of [edges] stay distinct. *)
Definition keys_ok (acc : outcome SortState) : Prop :=
  match acc with
  | Return st => NoDup (Dict.keys (st_edges st))
  | _ => True
  end.

Lemma sort_relax_keys (node : Node) (acc : outcome SortState) (m : Node) :
  keys_ok acc -> keys_ok (sort_relax node acc m).
Proof.
  destruct acc as [st|e|]; simpl; auto. intros Hk.
  unfold sort_relax, set_remove. simpl.
  destruct (in_dec Node_eq_dec m (dd_get (st_reverse st) node)); simpl; auto.
  destruct (in_dec Node_eq_dec node (dd_get (st_edges st) m)); simpl; auto.
  now apply keys_set_nodup.
Qed.

Lemma sort_step_keys (set_order : list Node -> list Node)
    (st : SortState) (node : Node) (rest : list Node) :
  keys_ok (Return st) -> keys_ok (sort_step set_order st node rest).
Proof.
  intros Hk. unfold sort_step.
  assert (H : forall ms acc, keys_ok acc -> keys_ok (fold_left (sort_relax node) ms acc)).
  { induction ms as [|m ms IH]; intros acc Hacc; auto.
    cbn [fold_left]. apply IH. now apply sort_relax_keys. }
  apply H. exact Hk.
Qed.

Lemma sort_loop_keys (set_order : list Node -> list Node) (fuel : nat) :
  forall st, keys_ok (Return st) -> keys_ok (sort_loop set_order fuel st).
Proof.
  induction fuel as [|fuel IH]; intros st Hk; simpl.
  - destruct (leaf_nodes st); simpl; auto.
  - destruct (leaf_nodes st) as [|node rest]; simpl; auto.
    pose proof (sort_step_keys set_order st node rest Hk) as Hstep.
    destruct (sort_step set_order st node rest) as [st'|e|]; simpl; auto.
Qed.

Section SortLoop.

Variable set_order : list Node -> list Node.
Hypothesis set_order_perm : forall l, Permutation (set_order l) l.
Variable nodes : list Node.
Variable edges0 : Dict.t Node (list Node).
Hypothesis sources_in_nodes : forall n d, In d (dd_get edges0 n) -> In n nodes.

(** The loop returns within its budget, with no leaf left. *)
Lemma sort_loop_returns (fuel : nat) :
  forall st,
    sort_inv nodes edges0 st ->
    length (leaf_nodes st) + edge_count (st_edges st) <= fuel ->
    exists st',
      sort_loop set_order fuel st = Return st'
      /\ sort_inv nodes edges0 st'
      /\ leaf_nodes st' = [].
Proof.
  induction fuel as [|fuel IH]; intros st Hinv Hfuel.
  - destruct (leaf_nodes st) as [|node rest] eqn:Hleaf.
    + exists st. simpl. rewrite Hleaf. auto.
    + simpl in Hfuel. lia.
  - destruct (leaf_nodes st) as [|node rest] eqn:Hleaf.
    + exists st. simpl. rewrite Hleaf. auto.
    + destruct (sort_step_inv set_order set_order_perm nodes edges0 sources_in_nodes
                  st node rest Hinv Hleaf) as [st1 [Hstep [Hinv1 Hlt]]].
      simpl. rewrite Hleaf, Hstep. simpl. apply IH; auto.
      try rewrite Hleaf in Hlt. simpl in Hlt, Hfuel. lia.
Qed.

End SortLoop.

(** ** Cycles *)

(** [path edges n m]: [m] is a dependency of [n], direct or not. *)
Inductive path (edges : Dict.t Node (list Node)) : Node -> Node -> Prop :=
| path_edge n d : In d (dd_get edges n) -> path edges n d
| path_step n d m : In d (dd_get edges n) -> path edges d m -> path edges n m.

(** A graph is acyclic when no node depends on itself, directly or not. *)
Definition acyclic (edges : Dict.t Node (list Node)) : Prop :=
  forall n, ~ path edges n n.

Lemma path_snoc (edges : Dict.t Node (list Node)) (a n d : Node) :
  path edges a n -> In d (dd_get edges n) -> path edges a d.
Proof.
  induction 1 as [n m Hm|n m k Hm _ IH]; intros Hd.
  - apply path_step with (d := m); auto. now apply path_edge.
  - apply path_step with (d := m); auto.
Qed.

Lemma dd_get_key (edges : Dict.t Node (list Node)) (n d : Node) :
  In d (dd_get edges n) -> In n (Dict.keys edges).
Proof.
  intros H. destruct (get_none_or_key edges n) as [E|E]; auto.
  unfold dd_get in H. rewrite E in H. destruct H.
Qed.

(** In an acyclic graph every chain of dependencies ends: a chain without a
    repeated node is no longer than the number of keys. *)
Lemma acyclic_bound (edges : Dict.t Node (list Node)) :
  acyclic edges ->
  forall k anc n,
    NoDup anc ->
    (forall a, In a anc -> In a (Dict.keys edges) /\ path edges a n) ->
    length (Dict.keys edges) <= length anc + k ->
    Acc (fun d m => In d (dd_get edges m)) n.
Proof.
  intros Hacyc. induction k as [|k IH]; intros anc n Hnodup Hanc Hlen;
    constructor; intros d Hd.
  - exfalso.
    assert (Hn : ~ In n anc).
    { intros Hin. apply (Hacyc n). now apply Hanc. }
    assert (Hincl : incl (n :: anc) (Dict.keys edges)).
    { intros x [<-|Hx]; [now apply dd_get_key with (d := d)|now apply Hanc]. }
    assert (Hnd : NoDup (n :: anc)) by now constructor.
    pose proof (NoDup_incl_length Hnd Hincl) as Hle. simpl in Hle. lia.
  - assert (Hn : ~ In n anc).
    { intros Hin. apply (Hacyc n). now apply Hanc. }
    apply (IH (n :: anc) d).
    + now constructor.
    + intros a [<-|Ha].
      * split; [now apply dd_get_key with (d := d)|now apply path_edge].
      * split; [now apply Hanc|]. apply path_snoc with (n := n); auto.
        now apply Hanc.
    + simpl. lia.
Qed.

Lemma acyclic_acc (edges : Dict.t Node (list Node)) :
  acyclic edges -> forall n, Acc (fun d m => In d (dd_get edges m)) n.
Proof.
  intros Hacyc n.
  apply (acyclic_bound edges Hacyc (length (Dict.keys edges)) [] n).
  - constructor.
  - intros a [].
  - simpl. lia.
Qed.

Lemma path_ext (e1 e2 : Dict.t Node (list Node)) :
  (forall n d, In d (dd_get e1 n) -> In d (dd_get e2 n)) ->
  forall n m, path e1 n m -> path e2 n m.
Proof.
  intros H n m. induction 1 as [n d Hd|n d m Hd _ IH].
  - apply path_edge. auto.
  - apply path_step with (d := d); auto.
Qed.

(** ** [_sort_dag] *)

(** The test [not edges.get(n)] that picks the leaves. *)
Definition is_leaf (edges : Dict.t Node (list Node)) (n : Node) : bool :=
  match Dict.get Node_eq_dec edges n with
  | None | Some [] => true
  | Some _ => false
  end.

Lemma is_leaf_true (edges : Dict.t Node (list Node)) (n : Node) :
  is_leaf edges n = true <-> dd_get edges n = [].
Proof.
  unfold is_leaf, dd_get. destruct (Dict.get Node_eq_dec edges n) as [[|x l]|];
    split; intros H; auto; discriminate.
Qed.

Section SortRun.

Variable set_order : list Node -> list Node.
Hypothesis set_order_perm : forall l, Permutation (set_order l) l.
Variable nodes : list Node.
Variable edges_orig : Dict.t Node (list Node).
Hypothesis keys_distinct : NoDup (Dict.keys edges_orig).
Hypothesis sources_in_nodes : forall n d, In d (dd_get edges_orig n) -> In n nodes.

Lemma sort_inv_start :
  sort_inv nodes (copy_edges edges_orig)
    (mkSort (copy_edges edges_orig) (build_reverse set_order (copy_edges edges_orig)) []
            (rev (filter (is_leaf (copy_edges edges_orig)) nodes))).
Proof.
  destruct (build_reverse_in set_order set_order_perm (copy_edges edges_orig)
              (copy_edges_keys_nodup edges_orig)) as [Hrev Hnd].
  constructor; simpl.
  - intros m n. apply Hrev.
  - exact Hnd.
  - auto.
  - auto.
  - intros n d _ [].
  - intros l Hl. apply in_rev, filter_In in Hl. now apply is_leaf_true.
  - intros s [].
  - apply topological_nil.
  - intros n Hn Hempty. right. apply in_rev. rewrite rev_involutive.
    apply filter_In. split; auto. now apply is_leaf_true.
  - intros x [[]|Hx]. apply in_rev, filter_In in Hx. tauto.
  - intros Hnodes. apply NoDup_rev. now apply NoDup_filter.
Qed.

(** The loop of [_sort_dag] returns, in a state that satisfies the
    invariant and has no leaf left. *)
Lemma sort_dag_loop_returns :
  exists st,
    sort_loop set_order
      (length (filter (is_leaf (copy_edges edges_orig)) nodes)
       + edge_count (copy_edges edges_orig))
      (mkSort (copy_edges edges_orig) (build_reverse set_order (copy_edges edges_orig)) []
              (rev (filter (is_leaf (copy_edges edges_orig)) nodes)))
    = Return st
    /\ sort_inv nodes (copy_edges edges_orig) st
    /\ leaf_nodes st = []
    /\ NoDup (Dict.keys (st_edges st)).
Proof.
  assert (Hsrc : forall n d, In d (dd_get (copy_edges edges_orig) n) -> In n nodes).
  { intros n d Hd. apply (sources_in_nodes n d).
    exact (proj1 (copy_edges_in edges_orig n d keys_distinct) Hd). }
  destruct (sort_loop_returns set_order set_order_perm nodes (copy_edges edges_orig) Hsrc
              (length (filter (is_leaf (copy_edges edges_orig)) nodes)
               + edge_count (copy_edges edges_orig))
              _ sort_inv_start) as [st [Hloop [Hinv Hleaf]]].
  { simpl. rewrite length_rev. apply Nat.le_refl. }
  exists st. split; [exact Hloop|]. split; [exact Hinv|]. split; [exact Hleaf|].
  pose proof (sort_loop_keys set_order
                (length (filter (is_leaf (copy_edges edges_orig)) nodes)
                 + edge_count (copy_edges edges_orig))
                (mkSort (copy_edges edges_orig)
                   (build_reverse set_order (copy_edges edges_orig)) []
                   (rev (filter (is_leaf (copy_edges edges_orig)) nodes)))
                (copy_edges_keys_nodup edges_orig)) as Hk.
  rewrite Hloop in Hk. exact Hk.
Qed.

End SortRun.

Lemma no_edge_left (edges : Dict.t Node (list Node)) :
  NoDup (Dict.keys edges) ->
  (forall n, dd_get edges n = []) ->
  existsb (fun deps : list Node => match deps with [] => false | _ => true end)
          (Dict.values edges) = false.
Proof.
  intros Hkeys Hempty.
  destruct (existsb _ (Dict.values edges)) eqn:Hex; auto.
  apply existsb_exists in Hex. destruct Hex as [v [Hv Hne]].
  unfold Dict.values in Hv. apply in_map_iff in Hv. destruct Hv as [[k v'] [E Hin]].
  simpl in E. subst v'.
  pose proof (in_nodup_get _ edges k v Hkeys Hin) as Hget.
  specialize (Hempty k). unfold dd_get in Hempty. rewrite Hget in Hempty.
  subst v. discriminate.
Qed.

(** C2: for an acyclic graph, given as a list of nodes and a dictionary of
    the dependencies between them, [_sort_dag] returns a list in which,
    wherever a node stands, each of its dependencies stands before it, and
    which holds the nodes given and no others; when the nodes given are
    distinct, the list is a permutation of them. *)
Theorem sort_dag_topological
    (set_order : list Node -> list Node) (node_str : Node -> string)
    (nodes : list Node) (edges_orig : Dict.t Node (list Node)) :
  (forall l, Permutation (set_order l) l) ->
  NoDup (Dict.keys edges_orig) ->
  (forall n d, In d (dd_get edges_orig n) -> In n nodes /\ In d nodes) ->
  acyclic edges_orig ->
  exists sorted,
    _sort_dag set_order node_str nodes edges_orig = Return sorted
    /\ topological edges_orig sorted
    /\ (forall n, In n nodes <-> In n sorted)
    /\ (NoDup nodes -> Permutation nodes sorted).
Proof.
  intros Hperm Hkeys Hclosed Hacyc.
  destruct (sort_dag_loop_returns set_order Hperm nodes edges_orig Hkeys)
    as [st [Hloop [Hinv [Hleaf Hk]]]].
  { intros n d Hd. now apply (Hclosed n d). }
  assert (Hacc : forall n, Acc (fun d m => In d (dd_get (copy_edges edges_orig) m)) n).
  { apply acyclic_acc. intros n Hn. apply (Hacyc n).
    apply path_ext with (e1 := copy_edges edges_orig); auto.
    intros x d Hd. exact (proj1 (copy_edges_in edges_orig x d Hkeys) Hd). }
  assert (Hempty : forall n, dd_get (st_edges st) n = []).
  { intros n. induction (Hacc n) as [n _ IH].
    destruct (dd_get (st_edges st) n) as [|d ds] eqn:Hn; auto.
    exfalso.
    assert (Hd : In d (dd_get (st_edges st) n)) by (rewrite Hn; now left).
    pose proof (si_sub _ _ _ Hinv n d Hd) as Hd0.
    assert (Hdn : In d nodes).
    { apply (Hclosed n d). exact (proj1 (copy_edges_in edges_orig n d Hkeys) Hd0). }
    destruct (si_all _ _ _ Hinv d Hdn (IH d Hd0)) as [H|H].
    - apply (si_live _ _ _ Hinv n d Hd H).
    - rewrite Hleaf in H. destruct H. }
  assert (Hin : forall n, In n nodes <-> In n (sorted_nodes st)).
  { intros n. split.
    - intros Hn. destruct (si_all _ _ _ Hinv n Hn (Hempty n)) as [H|H]; auto.
      rewrite Hleaf in H. destruct H.
    - intros Hn. apply (si_from _ _ _ Hinv). now left. }
  exists (sorted_nodes st). split; [|split; [|split]].
  - unfold _sort_dag.
    change (filter _ nodes) with (filter (is_leaf (copy_edges edges_orig)) nodes).
    rewrite Hloop. simpl. rewrite (no_edge_left _ Hk Hempty). reflexivity.
  - intros l1 n l2 E d Hd.
    apply (si_topo _ _ _ Hinv l1 n l2 E).
    exact (proj2 (copy_edges_in edges_orig n d Hkeys) Hd).
  - exact Hin.
  - intros Hnodes. apply NoDup_Permutation; auto.
    pose proof (si_nodup _ _ _ Hinv Hnodes) as H.
    rewrite Hleaf, app_nil_r in H. exact H.
Qed.

(** A graph whose edges go down along a rank is acyclic. *)
Lemma ranked_acyclic (edges : Dict.t Node (list Node)) (rank : Node -> nat) :
  (forall n d, In d (dd_get edges n) -> rank d < rank n) -> acyclic edges.
Proof.
  intros Hrank.
  assert (H : forall n m, path edges n m -> rank m < rank n).
  { intros n m. induction 1 as [n d Hd|n d m Hd _ IH].
    - now apply Hrank.
    - apply Hrank in Hd. lia. }
  intros n Hn. apply H in Hn. lia.
Qed.

(** [b.o] is made from [a.c] and [c.h]. *)
Definition object_nodes : list Node := [File "b.o"; File "a.c"; File "c.h"].
Definition object_edges : Dict.t Node (list Node) :=
  [(File "b.o", [File "a.c"; File "c.h"])].

Definition object_rank (n : Node) : nat :=
  if Node_eq_dec n (File "b.o") then 1 else 0.

Lemma object_edges_ranked (n d : Node) :
  In d (dd_get object_edges n) ->
  (In n object_nodes /\ In d object_nodes) /\ object_rank d < object_rank n.
Proof.
  unfold dd_get, object_edges, object_rank, object_nodes. simpl.
  destruct (Node_eq_dec n (File "b.o")) as [->|Hne]; [|intros []].
  intros [<-|[<-|[]]]; (split; [split; simpl; auto|vm_compute; lia]).
Qed.

Lemma sort_dag_topological_witness :
  exists sorted,
    _sort_dag (fun l => l) (fun _ => "n"%string) object_nodes object_edges = Return sorted
    /\ topological object_edges sorted
    /\ (forall n, In n object_nodes <-> In n sorted)
    /\ (NoDup object_nodes -> Permutation object_nodes sorted).
Proof.
  apply (sort_dag_topological (fun l => l) (fun _ => "n"%string)
           object_nodes object_edges).
  - intros l. apply Permutation_refl.
  - simpl. constructor; [intros []|constructor].
  - intros n d Hd. apply (object_edges_ranked n d Hd).
  - apply ranked_acyclic with (rank := object_rank).
    intros n d Hd. apply (object_edges_ranked n d Hd).
Defined.

(** ** Cycles in the reachable graph *)

Lemma traverse_loop_keys (deps_of : Node -> list Node) (fuel : nat) :
  forall st all_nodes edges,
    NoDup (Dict.keys (tr_edges st)) ->
    traverse_loop deps_of fuel st = Return (all_nodes, edges) ->
    NoDup (Dict.keys edges).
Proof.
  assert (Hfold : forall v deps e,
             NoDup (Dict.keys e) ->
             NoDup (Dict.keys (fold_left (fun e d => dd_append e v d) deps e))).
  { intros v deps. induction deps as [|d deps IH]; simpl; intros e He; auto.
    apply IH. unfold dd_append. now apply keys_set_nodup. }
  induction fuel as [|fuel IH]; intros st all_nodes edges Hk Hrun; simpl in Hrun.
  - destruct (to_visit st); [|discriminate]. now injection Hrun as _ <-.
  - destruct (to_visit st) as [|v rest]; [now injection Hrun as _ <-|].
    rewrite traverse_step_eq in Hrun.
    eapply IH; [|exact Hrun]. simpl. apply Hfold. exact Hk.
Qed.

(** In a list in topological order no node lies on a cycle. *)
Lemma topological_path (edges : Dict.t Node (list Node)) (l : list Node) :
  topological edges l ->
  forall x y, path edges x y ->
  forall l1 l2, l = l1 ++ x :: l2 -> In y l1.
Proof.
  intros Htopo x y Hpath.
  induction Hpath as [x d Hd|x d y Hd _ IH]; intros l1 l2 E.
  - apply (Htopo l1 x l2 E d Hd).
  - pose proof (Htopo l1 x l2 E d Hd) as Hin.
    apply in_split in Hin. destruct Hin as [a [b Hl1]].
    rewrite Hl1. apply in_or_app. left.
    apply (IH a (b ++ x :: l2)). rewrite E, Hl1, <- app_assoc. reflexivity.
Qed.

Lemma topological_no_cycle (edges : Dict.t Node (list Node)) (l : list Node) :
  topological edges l ->
  forall x, In x l -> ~ path edges x x.
Proof.
  intros Htopo.
  assert (H : forall k l1 x l2, length l1 <= k -> l = l1 ++ x :: l2 -> ~ path edges x x).
  { induction k as [|k IH]; intros l1 x l2 Hlen E Hpath;
      pose proof (topological_path edges l Htopo x x Hpath l1 l2 E) as Hin.
    - destruct l1; [destruct Hin|simpl in Hlen; lia].
    - apply in_split in Hin. destruct Hin as [a [b Hl1]].
      apply (IH a x (b ++ x :: l2)); auto.
      + rewrite Hl1, length_app in Hlen. simpl in Hlen. lia.
      + rewrite E, Hl1, <- app_assoc. reflexivity. }
  intros x Hx. apply in_split in Hx. destruct Hx as [l1 [l2 E]].
  apply (H (length l1) l1 x l2); auto.
Qed.

(** [depends_on h n m]: [m] is an effective dependency of [n], direct or
    not. *)
Inductive depends_on (h : Heap) : Node -> Node -> Prop :=
| dep_direct n d : In d (dependencies h n) -> depends_on h n d
| dep_step n d m : In d (dependencies h n) -> depends_on h d m -> depends_on h n m.

Lemma depends_on_path (h : Heap) (targets : list Node) (edges : Dict.t Node (list Node)) :
  (forall n d, reachable (dependencies h) targets n ->
               In d (dependencies h n) -> In d (dd_get edges n)) ->
  forall n m, depends_on h n m -> reachable (dependencies h) targets n ->
              path edges n m /\ reachable (dependencies h) targets m.
Proof.
  intros Hedges n m. induction 1 as [n d Hd|n d m Hd _ IH]; intros Hn.
  - split.
    + apply path_edge. auto.
    + apply reach_dep with (n := n); auto.
  - destruct IH as [Hp Hm].
    + apply reach_dep with (n := n); auto.
    + split; auto. apply path_step with (d := d); auto.
Qed.

(** Every edge that is left has its line in the message. *)
Lemma cycle_lines_in (set_order : list Node -> list Node) (node_str : Node -> string)
    (edges : Dict.t Node (list Node)) (n d : Node) :
  (forall l, Permutation (set_order l) l) ->
  In d (dd_get edges n) ->
  In (node_str n ++ " → " ++ node_str d)%string (cycle_lines set_order node_str edges).
Proof.
  intros Hperm Hd. apply dd_get_in in Hd. destruct Hd as [deps [Hget Hd]].
  unfold cycle_lines. apply in_flat_map. exists (n, deps). split.
  - apply filter_In. split.
    + now apply Dict.get_some_in in Hget.
    + destruct deps; [destruct Hd|reflexivity].
  - apply in_map_iff. exists d. split; auto.
    now apply (set_order_in set_order Hperm).
Qed.

(** On a graph with a cycle [_sort_dag] raises; the edges that are left,
    which the message lists, are edges of the graph and include every edge
    that lies on a cycle. *)
Lemma sort_dag_cycle
    (set_order : list Node -> list Node) (node_str : Node -> string)
    (nodes : list Node) (edges_orig : Dict.t Node (list Node)) (c : Node) :
  (forall l, Permutation (set_order l) l) ->
  NoDup (Dict.keys edges_orig) ->
  (forall n d, In d (dd_get edges_orig n) -> In n nodes) ->
  path edges_orig c c ->
  exists remaining,
    _sort_dag set_order node_str nodes edges_orig
      = Raise (DependencyError (cycle_message set_order node_str remaining))
    /\ (forall n d, In d (dd_get edges_orig n) -> d = n \/ path edges_orig d n ->
                    In d (dd_get remaining n))
    /\ (forall n d, In d (dd_get remaining n) -> In d (dd_get edges_orig n)).
Proof.
  intros Hperm Hkeys Hsrc Hcycle.
  destruct (sort_dag_loop_returns set_order Hperm nodes edges_orig Hkeys Hsrc)
    as [st [Hloop [Hinv [Hleaf Hk]]]].
  assert (Hcopy : forall n d, In d (dd_get (copy_edges edges_orig) n)
                              <-> In d (dd_get edges_orig n)).
  { intros n d. now apply copy_edges_in. }
  assert (Hpath : forall n m, path edges_orig n m -> path (copy_edges edges_orig) n m).
  { apply path_ext. intros n d. apply Hcopy. }
  assert (Hremain : forall n d, In d (dd_get edges_orig n) ->
                                d = n \/ path edges_orig d n ->
                                In d (dd_get (st_edges st) n)).
  { intros n d Hd Hback. apply Hcopy in Hd.
    destruct (si_done _ _ _ Hinv n d Hd) as [H|H]; auto.
    exfalso. apply (topological_no_cycle _ _ (si_topo _ _ _ Hinv) d H).
    destruct Hback as [->|Hback].
    - now apply path_edge.
    - apply path_snoc with (n := n); auto. }
  exists (st_edges st). split; [|split].
  - unfold _sort_dag.
    change (filter _ nodes) with (filter (is_leaf (copy_edges edges_orig)) nodes).
    rewrite Hloop. simpl.
    assert (Hedge : exists d, In d (dd_get (st_edges st) c)).
    { inversion Hcycle as [n d Hd|n d m Hd Hrest]; subst.
      - exists c. apply Hremain; auto.
      - exists d. apply Hremain; auto. }
    destruct Hedge as [d Hd]. apply dd_get_in in Hd. destruct Hd as [deps [Hget Hd]].
    assert (Hex : existsb (fun deps : list Node => match deps with [] => false | _ => true end)
                          (Dict.values (st_edges st)) = true).
    { apply existsb_exists. exists deps. split.
      - apply Dict.get_some_in in Hget. unfold Dict.values.
        apply in_map_iff. exists (c, deps). auto.
      - destruct deps; [destruct Hd|reflexivity]. }
    rewrite Hex. reflexivity.
  - exact Hremain.
  - intros n d Hd. apply Hcopy. now apply (si_sub _ _ _ Hinv).
Qed.

(** Two files that depend on each other. *)
Definition loop_x : Node := File "x".
Definition loop_y : Node := File "y".
Definition loop_heap : Heap :=
  mkHeap [(loop_x, mkNodeObj [loop_y] None); (loop_y, mkNodeObj [loop_x] None)] [].

Definition path_str (n : Node) : string :=
  match path_of n with
  | Some p => p
  | None => "fileset"
  end.

(** The message for these two files. *)
Example prepare_build_cycle_message :
  prepare_build (fun l => l) path_str 0 loop_heap cold_execution empty_disk
    (ArgNode loop_x)
  = Raise (DependencyError
             ("Dependency graph has cycles:" ++ newline
              ++ "x → y" ++ newline ++ "y → x")).
Proof. vm_compute. reflexivity. Qed.

(** * Further properties of the code *)

(** ** The traversals *)



Lemma entry_dependencies_heap_nodes (h : Heap) (n : Node) :
  Init.entry_dependencies_of h n <> [] -> In n (heap_nodes h).
Proof.
  intros Hne. unfold heap_nodes. apply in_or_app.
  destruct (get_none_or_key (node_objs h) n) as [E|H]; auto.
  exfalso. apply Hne.
  unfold Init.entry_dependencies_of, node_builder, node_depends, node_obj.
  rewrite E. reflexivity.
Qed.

(** X2: [_traverse_entry_graph] of [__init__.py] returns on every heap and
    every list of targets, cycles included; it lists exactly the entries
    reachable along [depends] and the [depends] of builders, and the edges it
    records for such an entry are its own [depends] and those of its
    builder. *)
Theorem traverse_entry_graph_returns (h : Heap) (targets : list Node) :
  exists all_entries edges,
    Init._traverse_entry_graph h targets = Return (all_entries, edges)
    /\ (forall x, In x all_entries
                  <-> reachable (Init.entry_dependencies_of h) targets x)
    /\ forall n d,
         In d (dd_get edges n) <->
         In n all_entries
         /\ (In d (node_depends h n)
             \/ exists b, node_builder h n = Some b /\ In d (builder_depends h b)).
Proof.
  destruct (@traverse_returns (Init.entry_dependencies_of h) (heap_nodes h) targets
              (entry_dependencies_heap_nodes h))
    as [all_entries [edges [Htrav [Hreach [Hedges _]]]]].
  exists all_entries, edges. split; [exact Htrav|]. split; [exact Hreach|].
  intros n d. rewrite Hedges. unfold Init.entry_dependencies_of.
  rewrite in_app_iff. destruct (node_builder h n) as [b|].
  - split.
    + intros [Hn [H|H]]; eauto.
    + intros [Hn [H|[b' [[= <-] H]]]]; auto.
  - simpl. split.
    + intros [Hn [H|[]]]; auto.
    + intros [Hn [H|[b' [Hb _]]]]; [auto|discriminate].
Qed.

(** ** The outcome of [_sort_dag] *)

(** How [_sort_dag] ends, in terms of the state its loop stops in. *)
Lemma sort_dag_unfold
    (set_order : list Node -> list Node) (node_str : Node -> string)
    (nodes : list Node) (edges_orig : Dict.t Node (list Node)) :
  (forall l, Permutation (set_order l) l) ->
  NoDup (Dict.keys edges_orig) ->
  (forall n d, In d (dd_get edges_orig n) -> In n nodes) ->
  exists st,
    sort_inv nodes (copy_edges edges_orig) st
    /\ leaf_nodes st = []
    /\ NoDup (Dict.keys (st_edges st))
    /\ _sort_dag set_order node_str nodes edges_orig
       = if existsb (fun deps : list Node => match deps with [] => false | _ => true end)
                    (Dict.values (st_edges st))
         then Raise (DependencyError (cycle_message set_order node_str (st_edges st)))
         else Return (sorted_nodes st).
Proof.
  intros Hperm Hkeys Hsrc.
  destruct (sort_dag_loop_returns set_order Hperm nodes edges_orig Hkeys Hsrc)
    as [st [Hloop [Hinv [Hleaf Hk]]]].
  exists st. split; [exact Hinv|]. split; [exact Hleaf|]. split; [exact Hk|].
  unfold _sort_dag.
  change (filter _ nodes) with (filter (is_leaf (copy_edges edges_orig)) nodes).
  rewrite Hloop. reflexivity.
Qed.

Lemma all_values_empty (edges : Dict.t Node (list Node)) :
  existsb (fun deps : list Node => match deps with [] => false | _ => true end)
          (Dict.values edges) = false ->
  forall n, dd_get edges n = [].
Proof.
  intros Hex n. destruct (dd_get edges n) as [|x l] eqn:Hn; auto.
  assert (Hx : In x (dd_get edges n)) by (rewrite Hn; now left).
  apply dd_get_in in Hx. destruct Hx as [deps [Hget Hx]].
  assert (Htrue : existsb (fun deps : list Node => match deps with [] => false | _ => true end)
                          (Dict.values edges) = true).
  { apply existsb_exists. exists deps. split.
    - apply Dict.get_some_in in Hget. unfold Dict.values.
      apply in_map_iff. exists (n, deps). auto.
    - destruct deps; [destruct Hx|reflexivity]. }
  congruence.
Qed.

Lemma some_value_left (edges : Dict.t Node (list Node)) :
  existsb (fun deps : list Node => match deps with [] => false | _ => true end)
          (Dict.values edges) = true ->
  exists k deps d, In (k, deps) edges /\ In d deps.
Proof.
  intros Hex. apply existsb_exists in Hex. destruct Hex as [deps [Hin Hne]].
  unfold Dict.values in Hin. apply in_map_iff in Hin.
  destruct Hin as [[k v] [E Hin]]. simpl in E. subst v.
  destruct deps as [|d deps]; [discriminate|].
  exists k, (d :: deps), d. split; auto. now left.
Qed.

(** X3: on any graph whose edges run between the nodes given, whatever
    [_sort_dag] returns is right, without knowing beforehand that the graph
    is acyclic: the list is in topological order, holds exactly the nodes
    given, and the graph has no cycle.  And the function does not run
    forever. *)
Theorem sort_dag_returns_sound
    (set_order : list Node -> list Node) (node_str : Node -> string)
    (nodes : list Node) (edges_orig : Dict.t Node (list Node)) (sorted : list Node) :
  (forall l, Permutation (set_order l) l) ->
  NoDup (Dict.keys edges_orig) ->
  (forall n d, In d (dd_get edges_orig n) -> In n nodes /\ In d nodes) ->
  _sort_dag set_order node_str nodes edges_orig <> Diverges
  /\ (_sort_dag set_order node_str nodes edges_orig = Return sorted ->
      topological edges_orig sorted
      /\ (forall n, In n nodes <-> In n sorted)
      /\ acyclic edges_orig).
Proof.
  intros Hperm Hkeys Hclosed.
  destruct (sort_dag_unfold set_order node_str nodes edges_orig Hperm Hkeys)
    as [st [Hinv [Hleaf [_ Hrun]]]].
  { intros n d Hd. now apply (Hclosed n d). }
  rewrite Hrun.
  destruct (existsb _ (Dict.values (st_edges st))) eqn:Hex.
  - split; [discriminate|]. discriminate.
  - split; [discriminate|]. intros [= <-].
    pose proof (all_values_empty _ Hex) as Hempty.
    assert (Hin : forall n, In n nodes <-> In n (sorted_nodes st)).
    { intros n. split.
      - intros Hn. destruct (si_all _ _ _ Hinv n Hn (Hempty n)) as [H|H]; auto.
        rewrite Hleaf in H. destruct H.
      - intros Hn. apply (si_from _ _ _ Hinv). now left. }
    assert (Htopo : topological edges_orig (sorted_nodes st)).
    { intros l1 n l2 E d Hd. apply (si_topo _ _ _ Hinv l1 n l2 E).
      exact (proj2 (copy_edges_in edges_orig n d Hkeys) Hd). }
    split; [exact Htopo|]. split; [exact Hin|].
    intros n Hpath. apply (topological_no_cycle _ _ Htopo n); auto.
    assert (Hedge : exists d, In d (dd_get edges_orig n))
      by (inversion Hpath; eauto).
    destruct Hedge as [d Hd]. apply Hin. now apply (Hclosed n d).
Qed.

Lemma sort_dag_returns_sound_witness :
  _sort_dag (fun l => l) path_str object_nodes object_edges <> Diverges
  /\ (_sort_dag (fun l => l) path_str object_nodes object_edges
      = Return [File "c.h"; File "a.c"; File "b.o"] ->
      topological object_edges [File "c.h"; File "a.c"; File "b.o"]
      /\ (forall n, In n object_nodes <-> In n [File "c.h"; File "a.c"; File "b.o"])
      /\ acyclic object_edges).
Proof.
  apply (sort_dag_returns_sound (fun l => l) path_str object_nodes object_edges).
  - intros l. apply Permutation_refl.
  - simpl. constructor; [intros []|constructor].
  - intros n d Hd. apply (object_edges_ranked n d Hd).
Defined.

Example sort_dag_object_order :
  _sort_dag (fun l => l) path_str object_nodes object_edges
  = Return [File "c.h"; File "a.c"; File "b.o"].
Proof. vm_compute. reflexivity. Qed.

(** A list of nodes each of which has an edge to the next. *)
Inductive chain (edges : Dict.t Node (list Node)) : list Node -> Prop :=
| chain_one n : chain edges [n]
| chain_cons n d l :
    In d (dd_get edges n) -> chain edges (d :: l) -> chain edges (n :: d :: l).

Lemma chain_grows (edges : Dict.t Node (list Node)) :
  (forall n d, In d (dd_get edges n) -> exists d', In d' (dd_get edges d)) ->
  forall k n d, In d (dd_get edges n) ->
  exists l, length l = k /\ chain edges (n :: l)
            /\ forall x, In x (n :: l) -> In x (Dict.keys edges).
Proof.
  intros Hnext. induction k as [|k IH]; intros n d Hd.
  - exists []. split; [reflexivity|]. split; [constructor|].
    intros x [<-|[]]. now apply dd_get_key with (d := d).
  - destruct (Hnext n d Hd) as [d' Hd'].
    destruct (IH d d' Hd') as [l [Hlen [Hchain Hkeys]]].
    exists (d :: l). split; [simpl; now rewrite Hlen|]. split.
    + now constructor.
    + intros x [<-|Hx]; [now apply dd_get_key with (d := d)|now apply Hkeys].
Qed.

Lemma chain_suffix (edges : Dict.t Node (list Node)) (l1 l2 : list Node) :
  chain edges (l1 ++ l2) -> l2 <> [] -> chain edges l2.
Proof.
  induction l1 as [|x l1 IH]; simpl; intros Hc Hne; auto.
  apply IH; auto. inversion Hc as [n E|n d l Hd Hrest]; subst.
  - destruct l1; [|discriminate]. simpl in *. subst. congruence.
  - exact Hrest.
Qed.

Lemma chain_path (edges : Dict.t Node (list Node)) (l2 : list Node) :
  forall x y l3, chain edges (x :: l2 ++ y :: l3) -> path edges x y.
Proof.
  induction l2 as [|z l2 IH]; simpl; intros x y l3 Hc;
    inversion Hc as [|n d l Hd Hrest]; subst.
  - now apply path_edge.
  - apply path_step with (d := z); auto. apply (IH z y l3 Hrest).
Qed.

Lemma repeated_element (l : list Node) :
  ~ NoDup l -> exists x l1 l2 l3, l = l1 ++ x :: l2 ++ x :: l3.
Proof.
  induction l as [|a l IH]; intros Hnd.
  - exfalso. apply Hnd. constructor.
  - destruct (in_dec Node_eq_dec a l) as [Hin|Hnot].
    + apply in_split in Hin. destruct Hin as [l2 [l3 ->]].
      exists a, [], l2, l3. reflexivity.
    + destruct IH as [x [l1 [l2 [l3 ->]]]].
      * intros H. apply Hnd. now constructor.
      * exists x, (a :: l1), l2, l3. reflexivity.
Qed.

(** When every edge leads to a node that has an edge again, there is a
    cycle. *)
Lemma endless_edges_cycle (edges : Dict.t Node (list Node)) (n d : Node) :
  (forall n d, In d (dd_get edges n) -> exists d', In d' (dd_get edges d)) ->
  In d (dd_get edges n) ->
  exists c, path edges c c.
Proof.
  intros Hnext Hd.
  destruct (chain_grows edges Hnext (length (Dict.keys edges)) n d Hd)
    as [l [Hlen [Hchain Hkeys]]].
  assert (Hnd : ~ NoDup (n :: l)).
  { intros Hnd. pose proof (NoDup_incl_length Hnd Hkeys) as Hle.
    simpl in Hle. lia. }
  destruct (repeated_element _ Hnd) as [x [l1 [l2 [l3 E]]]].
  exists x. rewrite E in Hchain.
  apply chain_suffix in Hchain; [|discriminate].
  now apply chain_path in Hchain.
Qed.

(** X4: on a graph whose edges run between the nodes given, the only
    exception [_sort_dag] raises is the [DependencyError] for cycles, and it
    is no false alarm: the edges its message lists are edges of the graph,
    each of them leads to a node that has a listed edge again, and there is a
    cycle among them. *)
Theorem sort_dag_raises_only_cycles
    (set_order : list Node -> list Node) (node_str : Node -> string)
    (nodes : list Node) (edges_orig : Dict.t Node (list Node)) (ex : Exception) :
  (forall l, Permutation (set_order l) l) ->
  NoDup (Dict.keys edges_orig) ->
  (forall n d, In d (dd_get edges_orig n) -> In n nodes /\ In d nodes) ->
  _sort_dag set_order node_str nodes edges_orig = Raise ex ->
  exists remaining,
    ex = DependencyError (cycle_message set_order node_str remaining)
    /\ (forall n d, In d (dd_get remaining n) ->
                    In d (dd_get edges_orig n)
                    /\ exists d', In d' (dd_get remaining d))
    /\ exists c, path remaining c c /\ path edges_orig c c.
Proof.
  intros Hperm Hkeys Hclosed Hraise.
  destruct (sort_dag_unfold set_order node_str nodes edges_orig Hperm Hkeys)
    as [st [Hinv [Hleaf [Hk Hrun]]]].
  { intros n d Hd. now apply (Hclosed n d). }
  rewrite Hrun in Hraise.
  destruct (existsb _ (Dict.values (st_edges st))) eqn:Hex; [|discriminate].
  injection Hraise as <-.
  assert (Hsub : forall n d, In d (dd_get (st_edges st) n) -> In d (dd_get edges_orig n)).
  { intros n d Hd. apply (copy_edges_in edges_orig n d Hkeys).
    now apply (si_sub _ _ _ Hinv). }
  assert (Hnext : forall n d, In d (dd_get (st_edges st) n) ->
                              exists d', In d' (dd_get (st_edges st) d)).
  { intros n d Hd.
    destruct (dd_get (st_edges st) d) as [|d' l] eqn:Hdd; [|exists d'; now left].
    exfalso.
    assert (Hdn : In d nodes) by (apply (Hclosed n d); auto).
    destruct (si_all _ _ _ Hinv d Hdn Hdd) as [H|H].
    - apply (si_live _ _ _ Hinv n d Hd H).
    - rewrite Hleaf in H. destruct H. }
  exists (st_edges st). split; [reflexivity|]. split.
  - intros n d Hd. split; auto. apply (Hnext n d Hd).
  - destruct (some_value_left _ Hex) as [k [deps [d [Hin Hd]]]].
    assert (Hkd : In d (dd_get (st_edges st) k)).
    { unfold dd_get. now rewrite (in_nodup_get _ _ k deps Hk Hin). }
    destruct (endless_edges_cycle _ k d Hnext Hkd) as [c Hc].
    exists c. split; auto. apply path_ext with (e1 := st_edges st); auto.
Qed.

Definition loop_edges : Dict.t Node (list Node) :=
  [(loop_x, [loop_y]); (loop_y, [loop_x])].

Lemma sort_dag_raises_only_cycles_witness :
  exists remaining,
    DependencyError (cycle_message (fun l => l) path_str loop_edges)
    = DependencyError (cycle_message (fun l => l) path_str remaining)
    /\ (forall n d, In d (dd_get remaining n) ->
                    In d (dd_get loop_edges n)
                    /\ exists d', In d' (dd_get remaining d))
    /\ exists c, path remaining c c /\ path loop_edges c c.
Proof.
  apply (sort_dag_raises_only_cycles (fun l => l) path_str [loop_x; loop_y] loop_edges).
  - intros l. apply Permutation_refl.
  - simpl. constructor.
    + simpl. intros [H|[]]. discriminate.
    + constructor; [intros []|constructor].
  - intros n d. unfold dd_get, loop_edges. simpl.
    destruct (Node_eq_dec n loop_x) as [->|Hx].
    + intros [<-|[]]. simpl. auto.
    + destruct (Node_eq_dec n loop_y) as [->|Hy]; [|intros []].
      intros [<-|[]]. simpl. auto.
  - vm_compute. reflexivity.
Defined.

(** ** What [get_to_build] adds, and what a build then calls *)

Lemma downward_pass_origin (edges : Dict.t Node (list Node))
    (to_build : list Node) (l : list Node) (x : Node) :
  In x (downward_pass edges l to_build) ->
  In x to_build
  \/ (In x l /\ exists d, In d (dd_get edges x)
                          /\ In d (downward_pass edges l to_build)).
Proof.
  induction l as [|n l IH] using rev_ind; intros Hin.
  - now left.
  - apply downward_pass_last in Hin. destruct Hin as [Hin|[-> [d [Hd Hin]]]].
    + destruct (IH Hin) as [H|[Hl [d [Hd Hd']]]]; auto.
      right. split; [apply in_or_app; now left|].
      exists d. split; auto. rewrite downward_pass_app. now apply downward_pass_mono.
    + right. split; [apply in_or_app; right; now left|].
      exists d. split; auto. rewrite downward_pass_app. now apply downward_pass_mono.
Qed.

(** X5: nothing is set to build without a reason.  A node [get_to_build]
    returns is out of date, or is a node of the list with a dependency in
    the returned set, or is no entry (a file set) and a dependency of a node
    of the list that is in the returned set. *)
Theorem get_to_build_justified (pb : PreparedBuild) (x : Node) :
  In x (get_to_build pb) ->
  In x (out_of_date pb)
  \/ (In x (ordered_nodes pb)
      /\ exists d, In d (dd_get (edges pb) x) /\ In d (get_to_build pb))
  \/ (is_entry x = false
      /\ exists n, In n (ordered_nodes pb) /\ In n (get_to_build pb)
                   /\ In x (dd_get (edges pb) n)).
Proof.
  unfold get_to_build. rewrite upward_pass_from. intros Hin.
  destruct (upward_from_origin (edges pb) _ _ x Hin)
    as [Hdown|[r1 [m [r2 [E [Hm [Hx He]]]]]]].
  - destruct (downward_pass_origin (edges pb) _ _ x Hdown) as [H0|[Hl [d [Hd Hd']]]].
    + left. now apply set_of_in in H0.
    + right. left. split; auto. exists d. split; auto.
      now apply upward_from_mono.
  - right. right. split; auto. exists m. split; [|split; auto].
    + apply in_rev. rewrite E. apply in_or_app. right. now left.
    + rewrite E, upward_from_app. now apply upward_from_mono.
Qed.

Lemma get_to_build_justified_witness :
  In (File "b.o") (out_of_date small_build)
  \/ (In (File "b.o") (ordered_nodes small_build)
      /\ exists d, In d (dd_get (edges small_build) (File "b.o"))
                   /\ In d (get_to_build small_build))
  \/ (is_entry (File "b.o") = false
      /\ exists n, In n (ordered_nodes small_build) /\ In n (get_to_build small_build)
                   /\ In (File "b.o") (dd_get (edges small_build) n)).
Proof.
  apply (get_to_build_justified small_build (File "b.o")).
  vm_compute. auto.
Defined.

Lemma downward_pass_nil (edges : Dict.t Node (list Node)) (l : list Node) :
  downward_pass edges l [] = [].
Proof.
  unfold downward_pass. induction l as [|n l IH]; simpl; auto.
  replace (existsb (fun d => set_mem Node_eq_dec d []) (dd_get edges n)) with false;
    auto.
  induction (dd_get edges n) as [|d ds IHd]; simpl; auto.
Qed.

Lemma upward_from_nil (edges : Dict.t Node (list Node)) (r : list Node) :
  upward_from edges r [] = [].
Proof. unfold upward_from. induction r as [|n r IH]; simpl; auto. Qed.

(** X6: when nothing is out of date, [get_to_build] is empty and a build of
    the prepared build, serial and dry or not, calls no builder, ends
    normally and leaves the filesystem and the store as they were. *)
Theorem up_to_date_build_calls_nothing
    (set_order : list Node -> list Node) (node_str : Node -> string)
    (remove_entry prepare_entry : FileSystem -> Node -> FileSystem)
    (run_build : Builder -> FileSystem -> FileSystem * outcome unit)
    (builder_str : Builder -> string)
    (fuel : nat) (h : Heap) (e : Execution) (fs : FileSystem)
    (pb : PreparedBuild) (dry_run : bool) :
  out_of_date pb = [] ->
  get_to_build pb = []
  /\ build_targets set_order node_str remove_entry prepare_entry run_build builder_str
       fuel h e fs None (Some pb) dry_run
     = (mkBuild fs (metadata_db e) [] [] [], Return tt).
Proof.
  intros Hout.
  assert (Hempty : get_to_build pb = []).
  { unfold get_to_build. rewrite Hout, upward_pass_from.
    change (set_of Node_eq_dec []) with (@nil Node).
    now rewrite downward_pass_nil, upward_from_nil. }
  split; [exact Hempty|].
  unfold build_targets, build_prepared. now rewrite Hempty.
Qed.

Lemma up_to_date_build_calls_nothing_witness :
  get_to_build (mkPreparedBuild [File "a.c"; File "b.o"] [File "b.o"]
                  [(File "b.o", [File "a.c"])] [] [] [] [File "b.o"]) = []
  /\ build_targets (fun l => l) path_str (fun fs _ => fs) (fun fs _ => fs)
       (fun _ fs => (fs, Return tt)) (fun _ => "b"%string)
       0 pair_heap cold_execution empty_disk None
       (Some (mkPreparedBuild [File "a.c"; File "b.o"] [File "b.o"]
                [(File "b.o", [File "a.c"])] [] [] [] [File "b.o"])) false
     = (mkBuild empty_disk (metadata_db cold_execution) [] [] [], Return tt).
Proof.
  apply (up_to_date_build_calls_nothing (fun l => l) path_str (fun fs _ => fs)
           (fun fs _ => fs) (fun _ fs => (fs, Return tt)) (fun _ => "b"%string)
           0 pair_heap cold_execution empty_disk).
  reflexivity.
Defined.

Section SerialBuild.

Variable set_order : list Node -> list Node.
Variable node_str : Node -> string.
Variable remove_entry : FileSystem -> Node -> FileSystem.
Variable prepare_entry : FileSystem -> Node -> FileSystem.
Variable run_build : Builder -> FileSystem -> FileSystem * outcome unit.
Variable builder_str : Builder -> string.
Variable h : Heap.
Variable dry_run : bool.
Variable to_build : list Node.
Variable deps : Dict.t Node (list Node).

(** What one turn of the serial loop does: nothing, or one call of the
    builder of the node, whose outputs count as built if the turn ends
    normally. *)
Lemma serial_step_cases (st : BuildState) (node : Node) :
  serial_step set_order node_str remove_entry prepare_entry run_build builder_str
    h dry_run to_build deps (st, Return tt) node = (st, Return tt)
  \/ exists b,
       node_builder h node = Some b
       /\ In node to_build
       /\ ~ In node (built_nodes st)
       /\ calls (fst (serial_step set_order node_str remove_entry prepare_entry
                        run_build builder_str h dry_run to_build deps
                        (st, Return tt) node))
          = calls st ++ [b]
       /\ (snd (serial_step set_order node_str remove_entry prepare_entry
                  run_build builder_str h dry_run to_build deps
                  (st, Return tt) node) = Return tt ->
           built_nodes (fst (serial_step set_order node_str remove_entry prepare_entry
                               run_build builder_str h dry_run to_build deps
                               (st, Return tt) node))
           = set_update Node_eq_dec (built_nodes st) (builder_builds h b)).
Proof.
  unfold serial_step.
  destruct (node_builder h node) as [b|] eqn:Hb; [|now left].
  destruct (set_mem Node_eq_dec node to_build
            && negb (set_mem Node_eq_dec node (built_nodes st))) eqn:Hcond;
    [|now left].
  right. exists b. apply andb_true_iff in Hcond. destruct Hcond as [Hto Hnot].
  apply set_mem_true in Hto. apply negb_true_iff, set_mem_false in Hnot.
  split; [reflexivity|]. split; [exact Hto|]. split; [exact Hnot|].
  destruct (call_builder_calls node_str remove_entry prepare_entry run_build
              builder_str h b dry_run st) as [Hcalls Hnodes].
  destruct (_call_builder node_str remove_entry prepare_entry run_build builder_str
              h b dry_run st) as [st1 [[]|ex|]]; simpl in *.
  - destruct dry_run.
    + simpl. split; [exact Hcalls|]. intros _. now rewrite Hnodes.
    + match goal with |- context [_update_builder_metadata set_order h b deps ?s] =>
        destruct (update_metadata_calls set_order h b deps s) as [Hc2 Hn2] end.
      simpl in Hc2, Hn2. split; [now rewrite Hc2|]. intros _. now rewrite Hn2, Hnodes.
  - split; [exact Hcalls|discriminate].
  - split; [exact Hcalls|discriminate].
Qed.

Lemma serial_step_stopped (st : BuildState) (o : outcome unit) (node : Node) :
  o <> Return tt ->
  serial_step set_order node_str remove_entry prepare_entry run_build builder_str
    h dry_run to_build deps (st, o) node = (st, o).
Proof.
  intros Ho. unfold serial_step. destruct o as [[]|ex|]; auto. congruence.
Qed.

(** Every builder the loop has called is the builder of a node it walked
    that was to be built. *)
Lemma serial_loop_calls_needed (walked : list Node) :
  forall acc,
    (forall b, In b (calls (fst acc)) ->
               exists n, In n to_build /\ node_builder h n = Some b) ->
    forall b,
      In b (calls (fst (fold_left
                          (serial_step set_order node_str remove_entry prepare_entry
                             run_build builder_str h dry_run to_build deps)
                          walked acc))) ->
      (exists n, In n to_build /\ node_builder h n = Some b).
Proof.
  induction walked as [|node walked IH]; simpl; intros acc Hacc; auto.
  apply IH. destruct acc as [st o].
  destruct o as [[]|ex|].
  - destruct (serial_step_cases st node) as [E|[b' [Hb [Hto [_ [Hcalls _]]]]]].
    + rewrite E. exact Hacc.
    + intros b Hin. rewrite Hcalls in Hin. apply in_app_or in Hin.
      destruct Hin as [Hin|[<-|[]]]; [now apply Hacc|eauto].
  - rewrite serial_step_stopped by discriminate. exact Hacc.
  - rewrite serial_step_stopped by discriminate. exact Hacc.
Qed.

End SerialBuild.

(** X7: a serial build calls a builder only when one of its outputs is in
    the set [get_to_build] returns. *)
Theorem serial_build_calls_only_needed
    (set_order : list Node -> list Node) (node_str : Node -> string)
    (remove_entry prepare_entry : FileSystem -> Node -> FileSystem)
    (run_build : Builder -> FileSystem -> FileSystem * outcome unit)
    (builder_str : Builder -> string)
    (fuel : nat) (h : Heap) (e : Execution) (fs : FileSystem)
    (pb : PreparedBuild) (dry_run : bool) (b : Builder) :
  In b (calls (fst (build_targets set_order node_str remove_entry prepare_entry
                      run_build builder_str fuel h e fs None (Some pb) dry_run))) ->
  exists n, In n (get_to_build pb) /\ node_builder h n = Some b.
Proof.
  unfold build_targets, build_prepared.
  destruct (get_to_build pb) as [|x l] eqn:Hto; [intros []|].
  rewrite <- Hto. apply serial_loop_calls_needed. intros b' [].
Qed.

Lemma serial_build_calls_only_needed_witness :
  exists n, In n (get_to_build pair_build) /\ node_builder pair_heap n = Some 0.
Proof.
  apply (serial_build_calls_only_needed (fun l => l) path_str (fun fs _ => fs)
           (fun fs _ => fs) (fun _ fs => (fs, Return tt)) (fun _ => "b"%string)
           0 pair_heap cold_execution empty_disk pair_build true 0).
  vm_compute. auto.
Defined.

(** ** Dry runs and the outputs of a builder *)

Section DryRun.

Variable set_order : list Node -> list Node.
Variable node_str : Node -> string.
Variable remove_entry : FileSystem -> Node -> FileSystem.
Variable prepare_entry : FileSystem -> Node -> FileSystem.
Variable run_build : Builder -> FileSystem -> FileSystem * outcome unit.
Variable builder_str : Builder -> string.
Variable h : Heap.
Variable to_build : list Node.
Variable deps : Dict.t Node (list Node).

(** A dry turn neither touches the filesystem or the store nor raises. *)
Lemma dry_step_untouched (st : BuildState) (node : Node) :
  bs_fs (fst (serial_step set_order node_str remove_entry prepare_entry run_build
                builder_str h true to_build deps (st, Return tt) node)) = bs_fs st
  /\ bs_db (fst (serial_step set_order node_str remove_entry prepare_entry run_build
                   builder_str h true to_build deps (st, Return tt) node)) = bs_db st
  /\ snd (serial_step set_order node_str remove_entry prepare_entry run_build
            builder_str h true to_build deps (st, Return tt) node) = Return tt.
Proof.
  unfold serial_step. destruct (node_builder h node) as [b|]; auto.
  destruct (set_mem Node_eq_dec node to_build
            && negb (set_mem Node_eq_dec node (built_nodes st))); auto.
Qed.

Lemma dry_loop_untouched (walked : list Node) :
  forall st,
    bs_fs (fst (fold_left
                  (serial_step set_order node_str remove_entry prepare_entry run_build
                     builder_str h true to_build deps) walked (st, Return tt)))
    = bs_fs st
    /\ bs_db (fst (fold_left
                     (serial_step set_order node_str remove_entry prepare_entry run_build
                        builder_str h true to_build deps) walked (st, Return tt)))
       = bs_db st
    /\ snd (fold_left
              (serial_step set_order node_str remove_entry prepare_entry run_build
                 builder_str h true to_build deps) walked (st, Return tt))
       = Return tt.
Proof.
  induction walked as [|node walked IH]; intros st; [simpl; auto|].
  cbn [fold_left].
  destruct (dry_step_untouched st node) as [Hfs [Hdb Hret]].
  destruct (serial_step set_order node_str remove_entry prepare_entry run_build
              builder_str h true to_build deps (st, Return tt) node) as [st1 o].
  simpl in Hfs, Hdb, Hret. subst o.
  destruct (IH st1) as [H1 [H2 H3]]. rewrite H1, H2, H3. auto.
Qed.

End DryRun.

(** X8: a dry run of a prepared build ends normally whatever the recipes
    would do, and leaves the filesystem and the metadata store as they
    were. *)
Theorem dry_run_changes_nothing
    (set_order : list Node -> list Node) (node_str : Node -> string)
    (remove_entry prepare_entry : FileSystem -> Node -> FileSystem)
    (run_build : Builder -> FileSystem -> FileSystem * outcome unit)
    (builder_str : Builder -> string)
    (fuel : nat) (h : Heap) (e : Execution) (fs : FileSystem) (pb : PreparedBuild) :
  bs_fs (fst (build_targets set_order node_str remove_entry prepare_entry run_build
                builder_str fuel h e fs None (Some pb) true)) = fs
  /\ bs_db (fst (build_targets set_order node_str remove_entry prepare_entry run_build
                   builder_str fuel h e fs None (Some pb) true)) = metadata_db e
  /\ snd (build_targets set_order node_str remove_entry prepare_entry run_build
            builder_str fuel h e fs None (Some pb) true) = Return tt.
Proof.
  unfold build_targets, build_prepared.
  destruct (get_to_build pb) as [|x l]; [simpl; auto|].
  apply (dry_loop_untouched set_order node_str remove_entry prepare_entry run_build
           builder_str h (x :: l) (entry_dependencies pb) (ordered_nodes pb)
           (mkBuild fs (metadata_db e) [] [] [])).
Qed.

(** X9: outside a dry run, once the recipe of a builder has returned,
    [_call_builder] checks its outputs on the filesystem the recipe left:
    either every entry among them is there and the call returns, or the call
    raises the [DependencyError] that names an output that is missing. *)
Theorem call_builder_checks_outputs
    (node_str : Node -> string)
    (remove_entry prepare_entry : FileSystem -> Node -> FileSystem)
    (run_build : Builder -> FileSystem -> FileSystem * outcome unit)
    (builder_str : Builder -> string)
    (h : Heap) (b : Builder) (st : BuildState) (fs2 : FileSystem) :
  run_build b
    (fold_left prepare_entry (filter is_entry (builder_builds h b))
       (fold_left remove_entry (filter is_entry (builder_builds h b)) (bs_fs st)))
  = (fs2, Return tt) ->
  bs_fs (fst (_call_builder node_str remove_entry prepare_entry run_build builder_str
                h b false st)) = fs2
  /\ ((snd (_call_builder node_str remove_entry prepare_entry run_build builder_str
              h b false st) = Return tt
       /\ forall entry, In entry (builder_builds h b) -> is_entry entry = true ->
                        node_exists fs2 entry = true)
      \/ exists missing,
           In missing (builder_builds h b) /\ is_entry missing = true
           /\ node_exists fs2 missing = false
           /\ snd (_call_builder node_str remove_entry prepare_entry run_build
                     builder_str h b false st)
              = Raise (DependencyError ("Builder " ++ builder_str b
                                        ++ " didn't output " ++ node_str missing))).
Proof.
  intros Hrun. unfold _call_builder. simpl. rewrite Hrun.
  destruct (find (fun entry => negb (node_exists fs2 entry))
                 (filter is_entry (builder_builds h b))) as [missing|] eqn:Hfind;
    simpl; (split; [reflexivity|]).
  - right. apply find_some in Hfind. destruct Hfind as [Hm Hneg].
    apply filter_In in Hm. apply negb_true_iff in Hneg.
    exists missing. tauto.
  - left. split; [reflexivity|]. intros entry Hin Hentry.
    pose proof (find_none _ _ Hfind entry) as Hnone. simpl in Hnone.
    apply negb_false_iff. apply Hnone. apply filter_In. auto.
Qed.

(** A recipe that writes nothing, on an empty disk. *)
Lemma call_builder_checks_outputs_witness :
  bs_fs (fst (_call_builder path_str (fun fs _ => fs) (fun fs _ => fs)
                (fun _ fs => (fs, Return tt)) (fun _ => "cc"%string)
                pair_heap 0 false (mkBuild empty_disk [] [] [] []))) = empty_disk
  /\ ((snd (_call_builder path_str (fun fs _ => fs) (fun fs _ => fs)
              (fun _ fs => (fs, Return tt)) (fun _ => "cc"%string)
              pair_heap 0 false (mkBuild empty_disk [] [] [] [])) = Return tt
       /\ forall entry, In entry (builder_builds pair_heap 0) -> is_entry entry = true ->
                        node_exists empty_disk entry = true)
      \/ exists missing,
           In missing (builder_builds pair_heap 0) /\ is_entry missing = true
           /\ node_exists empty_disk missing = false
           /\ snd (_call_builder path_str (fun fs _ => fs) (fun fs _ => fs)
                     (fun _ fs => (fs, Return tt)) (fun _ => "cc"%string)
                     pair_heap 0 false (mkBuild empty_disk [] [] [] []))
              = Raise (DependencyError ("Builder " ++ "cc"
                                        ++ " didn't output " ++ path_str missing))).
Proof.
  apply (call_builder_checks_outputs path_str (fun fs _ => fs) (fun fs _ => fs)
           (fun _ fs => (fs, Return tt)) (fun _ => "cc"%string)
           pair_heap 0 (mkBuild empty_disk [] [] [] []) empty_disk).
  reflexivity.
Defined.

(** ** What [prepare_build] returns *)

(** The stages [prepare_build] went through when it returns. *)
Lemma prepare_build_stages
    (set_order : list Node -> list Node) (node_str : Node -> string) (fuel : nat)
    (h : Heap) (e : Execution) (fs : FileSystem) (targets : Args) (pb : PreparedBuild) :
  prepare_build set_order node_str fuel h e fs targets = Return pb ->
  exists target_nodes all_nodes edges ordered all_dependencies metadata outdated changed,
    _args_to_nodes e targets = Return target_nodes
    /\ _traverse_node_graph set_order h target_nodes = Return (all_nodes, edges)
    /\ _sort_dag set_order node_str all_nodes edges = Return ordered
    /\ collect_dependencies fuel edges all_nodes = Return all_dependencies
    /\ gather_metadata set_order node_str h fs
         (set_of Node_eq_dec (filter is_entry all_nodes)) = Return metadata
    /\ fold_left (check_node set_order h e fs metadata all_dependencies) all_nodes
         (Return ([], [])) = Return (outdated, changed)
    /\ pb = mkPreparedBuild ordered
              (set_of Node_eq_dec
                 (filter (fun n => is_entry n
                                   && match node_builder h n with
                                      | Some _ => true
                                      | None => false
                                      end) ordered))
              edges outdated changed all_dependencies target_nodes.
Proof.
  unfold prepare_build. intros H.
  destruct (_args_to_nodes e targets) as [target_nodes|ex|] eqn:H1; try discriminate.
  simpl in H.
  destruct (_traverse_node_graph set_order h target_nodes) as [[all_nodes edges]|ex|]
    eqn:H2; try discriminate.
  simpl in H.
  destruct (_sort_dag set_order node_str all_nodes edges) as [ordered|ex|] eqn:H3;
    try discriminate.
  simpl in H.
  destruct (collect_dependencies fuel edges all_nodes) as [all_dependencies|ex|] eqn:H4;
    try discriminate.
  simpl in H.
  destruct (gather_metadata set_order node_str h fs
              (set_of Node_eq_dec (filter is_entry all_nodes))) as [metadata|ex|] eqn:H5;
    try discriminate.
  simpl in H.
  destruct (fold_left (check_node set_order h e fs metadata all_dependencies) all_nodes
              (Return ([], []))) as [[outdated changed]|ex|] eqn:H6; try discriminate.
  simpl in H. injection H as <-.
  exists target_nodes, all_nodes, edges, ordered, all_dependencies, metadata,
         outdated, changed.
  repeat split; assumption.
Qed.

(** What a list [_sort_dag] returned is like. *)
Lemma sort_dag_returned
    (set_order : list Node -> list Node) (node_str : Node -> string)
    (nodes : list Node) (edges_orig : Dict.t Node (list Node)) (sorted : list Node) :
  (forall l, Permutation (set_order l) l) ->
  NoDup (Dict.keys edges_orig) ->
  (forall n d, In d (dd_get edges_orig n) -> In n nodes /\ In d nodes) ->
  _sort_dag set_order node_str nodes edges_orig = Return sorted ->
  topological edges_orig sorted /\ (forall n, In n nodes <-> In n sorted).
Proof.
  intros Hperm Hkeys Hclosed Hrun.
  destruct (sort_dag_unfold set_order node_str nodes edges_orig Hperm Hkeys)
    as [st [Hinv [Hleaf [_ Hrun']]]].
  { intros n d Hd. now apply (Hclosed n d). }
  rewrite Hrun' in Hrun.
  destruct (existsb _ (Dict.values (st_edges st))) eqn:Hex; [discriminate|].
  injection Hrun as <-.
  pose proof (all_values_empty _ Hex) as Hempty. split.
  - intros l1 n l2 E d Hd. apply (si_topo _ _ _ Hinv l1 n l2 E).
    exact (proj2 (copy_edges_in edges_orig n d Hkeys) Hd).
  - intros n. split.
    + intros Hn. destruct (si_all _ _ _ Hinv n Hn (Hempty n)) as [H|H]; auto.
      rewrite Hleaf in H. destruct H.
    + intros Hn. apply (si_from _ _ _ Hinv). now left.
Qed.

(** The nodes the comparison loop marks are entries with a builder. *)
Lemma check_nodes_outdated
    (set_order : list Node -> list Node) (h : Heap) (e : Execution) (fs : FileSystem)
    (metadata : Dict.t Node Meta) (all_dependencies : Dict.t Node (list Node))
    (nodes : list Node) :
  forall acc outdated changed,
    fold_left (check_node set_order h e fs metadata all_dependencies) nodes acc
    = Return (outdated, changed) ->
    exists outdated0 changed0,
      acc = Return (outdated0, changed0)
      /\ forall n, In n outdated ->
           In n outdated0
           \/ (In n nodes /\ is_entry n = true /\ node_builder h n <> None).
Proof.
  induction nodes as [|node nodes IH]; simpl; intros acc outdated changed Hrun.
  - exists outdated, changed. auto.
  - destruct (IH _ _ _ Hrun) as [o1 [c1 [Hstep Hin]]].
    destruct acc as [[o0 c0]|ex|]; simpl in Hstep; try discriminate.
    exists o0, c0. split; [reflexivity|].
    assert (Ho1 : forall n, In n o1 ->
                  In n o0 \/ (n = node /\ is_entry n = true /\ node_builder h n <> None)).
    { unfold check_node in Hstep. simpl in Hstep.
      destruct (is_entry node) eqn:He; [|injection Hstep as <- _; auto].
      destruct (node_builder h node) as [b|] eqn:Hb; [|injection Hstep as <- _; auto].
      destruct (path_of node) as [p|]; [|injection Hstep as <- _; auto].
      assert (Hadd : forall n, In n (set_add Node_eq_dec node o0) ->
                In n o0 \/ (n = node /\ is_entry n = true /\ node_builder h n <> None)).
      { intros n Hn. apply set_add_in in Hn. destruct Hn as [->|Hn]; auto.
        right. rewrite He, Hb. repeat split; congruence. }
      destruct (negb (path_exists fs p)); [injection Hstep as <- _; exact Hadd|].
      destruct (dict_item all_dependencies node) as [found|ex|]; try discriminate.
      simpl in Hstep.
      destruct (_metadata_signature metadata (set_order found)) as [sig|ex|];
        try discriminate.
      simpl in Hstep.
      destruct (opt_meta_eqb _ sig); injection Hstep as <- _; auto. }
    intros n Hn. destruct (Hin n Hn) as [H|[H1 H2]].
    + destruct (Ho1 n H) as [H0|[-> H2]]; auto.
    + right. tauto.
Qed.

(** What the walk below one node finds: the entries among the nodes it
    starts from and among everything those depend on. *)
Lemma dependency_walk_found (edges : Dict.t Node (list Node)) (fuel : nat) :
  forall found to_visit result,
    dependency_walk fuel edges found to_visit = Return result ->
    forall x, In x result <->
      In x found
      \/ (is_entry x = true
          /\ exists v, In v to_visit /\ (x = v \/ path edges v x)).
Proof.
  induction fuel as [|fuel IH]; intros found to_visit result Hrun x;
    destruct to_visit as [|v rest]; simpl in Hrun; try discriminate.
  - injection Hrun as <-. split; auto. intros [H|[_ [v [[] _]]]]. exact H.
  - injection Hrun as <-. split; auto. intros [H|[_ [v [[] _]]]]. exact H.
  - rewrite (IH _ _ _ Hrun x). split.
    + intros [Hf|[He [v' [Hv' Hx]]]].
      * destruct (is_entry v) eqn:Hv; auto.
        apply set_add_in in Hf. destruct Hf as [->|Hf]; auto.
        right. split; auto. exists v. split; [now left|now left].
      * right. split; auto. apply in_app_or in Hv'. destruct Hv' as [Hv'|Hv'].
        -- apply in_rev in Hv'. exists v. split; [now left|]. right.
           destruct Hx as [->|Hx]; [now apply path_edge|].
           now apply path_step with (d := v').
        -- exists v'. split; [now right|exact Hx].
    + intros [Hf|[He [v' [[<-|Hv'] Hx]]]].
      * left. destruct (is_entry v); auto. apply set_add_in. auto.
      * destruct Hx as [->|Hx].
        -- left. rewrite He. apply set_add_in. auto.
        -- right. split; auto.
           inversion Hx as [n d Hd|n d m Hd Hrest]; subst.
           ++ exists x. split; [|now left]. apply in_or_app. left. now apply in_rev in Hd.
           ++ exists d. split; [|now right]. apply in_or_app. left.
              now apply in_rev in Hd.
      * right. split; auto. exists v'. split; auto. apply in_or_app. now right.
Qed.

Lemma collect_dependencies_get (fuel : nat) (edges : Dict.t Node (list Node))
    (nodes : list Node) :
  forall acc result,
    fold_left (fun acc node =>
                 do all_dependencies <- acc;
                 do found <- dependency_walk fuel edges [] (rev (dd_get edges node));
                 Return (Dict.set Node_eq_dec all_dependencies node found))
              nodes acc = Return result ->
    exists start,
      acc = Return start
      /\ forall n,
           (In n nodes ->
            exists found, Dict.get Node_eq_dec result n = Some found
                          /\ forall x, In x found
                                       <-> is_entry x = true /\ path edges n x)
           /\ (~ In n nodes ->
               Dict.get Node_eq_dec result n = Dict.get Node_eq_dec start n).
Proof.
  induction nodes as [|node nodes IH]; simpl; intros acc result Hrun.
  - exists result. split; auto. intros n. split; [intros []|auto].
  - destruct (IH _ _ Hrun) as [mid [Hstep Hmid]].
    destruct acc as [start|ex|]; simpl in Hstep; try discriminate.
    destruct (dependency_walk fuel edges [] (rev (dd_get edges node)))
      as [found|ex|] eqn:Hwalk; simpl in Hstep; try discriminate.
    injection Hstep as <-.
    exists start. split; [reflexivity|]. intros n. split.
    + intros Hn. destruct (in_dec Node_eq_dec n nodes) as [Hin|Hnot].
      * now apply (proj1 (Hmid n)).
      * destruct Hn as [->|Hn]; [|contradiction].
        rewrite (proj2 (Hmid n) Hnot), Dict.get_set_eq.
        exists found. split; [reflexivity|]. intros x.
        rewrite (dependency_walk_found edges fuel _ _ _ Hwalk x). split.
        -- intros [[]|[He [v [Hv Hx]]]]. split; auto. apply in_rev in Hv.
           destruct Hx as [->|Hx]; [now apply path_edge|].
           now apply path_step with (d := v).
        -- intros [He Hp]. right. split; auto.
           inversion Hp as [k d Hd|k d m Hd Hrest]; subst.
           ++ exists x. split; [now apply in_rev in Hd|now left].
           ++ exists d. split; [now apply in_rev in Hd|now right].
    + intros Hn. rewrite (proj2 (Hmid n)) by tauto.
      apply Dict.get_set_neq. intros ->. apply Hn. now left.
Qed.

Lemma path_depends_on (h : Heap) (edges : Dict.t Node (list Node)) :
  (forall n d, In d (dd_get edges n) -> In d (dependencies h n)) ->
  forall n m, path edges n m -> depends_on h n m.
Proof.
  intros Hsub n m. induction 1 as [n d Hd|n d m Hd _ IH].
  - apply dep_direct. auto.
  - apply dep_step with (d := d); auto.
Qed.

(** X10: a prepared build that [prepare_build] returns is well formed.  Its
    [targets] are the nodes the argument resolves to; [ordered_nodes] holds
    exactly the nodes reachable from them, in topological order for
    [edges]; [edges] holds, for each of these nodes, its effective
    dependencies; every node in [out_of_date] is a reachable entry that has
    a builder, so a file set is never out of date; and
    [buildable_entries] are the reachable entries that have a builder. *)
Theorem prepare_build_well_formed
    (set_order : list Node -> list Node) (node_str : Node -> string) (fuel : nat)
    (h : Heap) (e : Execution) (fs : FileSystem) (args : Args) (pb : PreparedBuild) :
  (forall l, Permutation (set_order l) l) ->
  prepare_build set_order node_str fuel h e fs args = Return pb ->
  _args_to_nodes e args = Return (targets pb)
  /\ topological (edges pb) (ordered_nodes pb)
  /\ (forall n, In n (ordered_nodes pb)
                <-> reachable (dependencies h) (targets pb) n)
  /\ (forall n d, In d (dd_get (edges pb) n)
                  <-> In n (ordered_nodes pb) /\ In d (dependencies h n))
  /\ (forall n, In n (out_of_date pb) ->
                In n (ordered_nodes pb) /\ is_entry n = true /\ node_builder h n <> None)
  /\ (forall n, In n (buildable_entries pb)
                <-> In n (ordered_nodes pb) /\ is_entry n = true
                    /\ node_builder h n <> None).
Proof.
  intros Hperm Hprep.
  destruct (prepare_build_stages set_order node_str fuel h e fs args pb Hprep)
    as [tn [all_nodes [edges [ordered [all_deps [metadata [outdated [changed
        [Hargs [Htrav [Hsort [_ [_ [Hcheck ->]]]]]]]]]]]]]].
  simpl.
  destruct (@traverse_node_graph_returns set_order Hperm h tn)
    as [all_nodes' [edges' [Htrav' [Hreach [Hedges _]]]]].
  rewrite Htrav in Htrav'. injection Htrav' as <- <-.
  assert (Hkeys : NoDup (Dict.keys edges)).
  { unfold _traverse_node_graph, traverse in Htrav.
    eapply traverse_loop_keys; [|exact Htrav]. simpl. constructor. }
  assert (Hclosed : forall n d, In d (dd_get edges n) -> In n all_nodes /\ In d all_nodes).
  { intros n d Hd. apply Hedges in Hd. destruct Hd as [Hn Hd]. split; auto.
    apply Hreach. apply reach_dep with (n := n); auto. now apply Hreach. }
  destruct (sort_dag_returned set_order node_str all_nodes edges ordered
              Hperm Hkeys Hclosed Hsort) as [Htopo Hsame].
  split; [exact Hargs|]. split; [exact Htopo|].
  split; [|split; [|split]].
  - intros n. rewrite <- Hsame. apply Hreach.
  - intros n d. rewrite <- Hsame. apply Hedges.
  - intros n Hn.
    destruct (check_nodes_outdated set_order h e fs metadata all_deps all_nodes
                _ _ _ Hcheck) as [o0 [c0 [E Hin]]].
    injection E as <- <-.
    destruct (Hin n Hn) as [[]|[H1 H2]]. split; [now apply Hsame|exact H2].
  - intros n. rewrite set_of_in, filter_In, andb_true_iff.
    destruct (node_builder h n); split; intros [H1 H2]; repeat split; try tauto;
      try congruence; try discriminate.
    destruct H2 as [_ H2]. congruence.
Qed.

Lemma prepare_build_well_formed_witness :
  exists pb,
    prepare_build (fun l => l) path_str 5 twice_heap cold_execution
      (mkFS (fun _ => Some (mkStat 1 true false)) (fun _ => Return (MDict [])))
      (ArgNode twice_b) = Return pb
    /\ topological (edges pb) (ordered_nodes pb)
    /\ ordered_nodes pb = [twice_c; twice_b].
Proof.
  eexists. split; [vm_compute; reflexivity|]. split; [|reflexivity].
  apply (prepare_build_well_formed (fun l => l) path_str 5 twice_heap cold_execution
           (mkFS (fun _ => Some (mkStat 1 true false)) (fun _ => Return (MDict [])))
           (ArgNode twice_b)).
  - intros l. apply Permutation_refl.
  - vm_compute. reflexivity.
Defined.

(** X11: in a prepared build that [prepare_build] returns,
    [entry_dependencies] has an item for every reachable node, and the set
    under a node holds exactly the entries the node depends on, directly or
    through other nodes (file sets included). *)
Theorem prepare_build_entry_dependencies
    (set_order : list Node -> list Node) (node_str : Node -> string) (fuel : nat)
    (h : Heap) (e : Execution) (fs : FileSystem) (args : Args) (pb : PreparedBuild)
    (n : Node) :
  (forall l, Permutation (set_order l) l) ->
  prepare_build set_order node_str fuel h e fs args = Return pb ->
  In n (ordered_nodes pb) ->
  exists found,
    Dict.get Node_eq_dec (entry_dependencies pb) n = Some found
    /\ forall x, In x found <-> is_entry x = true /\ depends_on h n x.
Proof.
  intros Hperm Hprep Hn.
  destruct (prepare_build_stages set_order node_str fuel h e fs args pb Hprep)
    as [tn [all_nodes [edges [ordered [all_deps [metadata [outdated [changed
        [Hargs [Htrav [Hsort [Hdeps [_ [_ ->]]]]]]]]]]]]]].
  simpl in *.
  destruct (@traverse_node_graph_returns set_order Hperm h tn)
    as [all_nodes' [edges' [Htrav' [Hreach [Hedges _]]]]].
  rewrite Htrav in Htrav'. injection Htrav' as <- <-.
  assert (Hkeys : NoDup (Dict.keys edges)).
  { unfold _traverse_node_graph, traverse in Htrav.
    eapply traverse_loop_keys; [|exact Htrav]. simpl. constructor. }
  assert (Hclosed : forall n d, In d (dd_get edges n) -> In n all_nodes /\ In d all_nodes).
  { intros k d Hd. apply Hedges in Hd. destruct Hd as [Hk Hd]. split; auto.
    apply Hreach. apply reach_dep with (n := k); auto. now apply Hreach. }
  destruct (sort_dag_returned set_order node_str all_nodes edges ordered
              Hperm Hkeys Hclosed Hsort) as [_ Hsame].
  apply Hsame in Hn.
  unfold collect_dependencies in Hdeps.
  destruct (collect_dependencies_get fuel edges all_nodes _ _ Hdeps) as [start [_ Hget]].
  destruct (proj1 (Hget n) Hn) as [found [Hfound Hin]].
  exists found. split; [exact Hfound|]. intros x. rewrite Hin. split.
  - intros [He Hp]. split; auto. apply path_depends_on with (edges := edges); auto.
    intros k d Hd. apply Hedges in Hd. tauto.
  - intros [He Hd]. split; auto.
    apply (depends_on_path h tn edges) with (n := n); auto.
    + intros k d Hk Hkd. apply Hedges. split; auto. now apply Hreach.
    + now apply Hreach.
Qed.

Lemma prepare_build_entry_dependencies_witness :
  exists pb found,
    prepare_build (fun l => l) path_str 5 twice_heap cold_execution
      (mkFS (fun _ => Some (mkStat 1 true false)) (fun _ => Return (MDict [])))
      (ArgNode twice_b) = Return pb
    /\ Dict.get Node_eq_dec (entry_dependencies pb) twice_b = Some found
    /\ forall x, In x found <-> is_entry x = true /\ depends_on twice_heap twice_b x.
Proof.
  eexists.
  assert (H := prepare_build_entry_dependencies (fun l => l) path_str 5 twice_heap
                 cold_execution
                 (mkFS (fun _ => Some (mkStat 1 true false)) (fun _ => Return (MDict [])))
                 (ArgNode twice_b)).
  match type of H with
  | forall pb n, _ -> ?run = Return pb -> _ =>
      let r := eval vm_compute in run in
      match r with
      | Return ?pb0 =>
          destruct (H pb0 twice_b) as [found [Hget Hin]];
          [intros l; apply Permutation_refl
          |vm_compute; reflexivity
          |vm_compute; auto
          |exists found; split; [vm_compute; reflexivity|split; [exact Hget|exact Hin]]]
      end
  end.
Defined.

(** ** Targets and aliases *)

(** [Execution.register_alias]: the nodes the argument resolves to are
    stored under the alias. *)
Definition register_alias (e : Execution) (alias : string) (args : Args)
    : outcome Execution :=
  do nodes <- _args_to_nodes e args;
  Return (mkExecution (root e) (Dict.set string_dec (aliases e) alias nodes)
                      (entries e) (metadata_db e)).

Lemma args_iter_cons (e : Execution) (a : Args) (l : list Args) :
  _args_to_nodes e (ArgIter (a :: l))
  = do ns <- _args_to_nodes e a;
    do ns' <- _args_to_nodes e (ArgIter l);
    Return (ns ++ ns').
Proof. reflexivity. Qed.

Lemma args_iter_app (e : Execution) (l1 l2 : list Args) :
  _args_to_nodes e (ArgIter (l1 ++ l2))
  = do ns1 <- _args_to_nodes e (ArgIter l1);
    do ns2 <- _args_to_nodes e (ArgIter l2);
    Return (ns1 ++ ns2).
Proof.
  induction l1 as [|a l1 IH].
  - simpl app. change (_args_to_nodes e (ArgIter [])) with (@Return (list Node) []).
    set (m := _args_to_nodes e (ArgIter l2)). destruct m; reflexivity.
  - simpl app. rewrite !args_iter_cons, IH.
    set (m := _args_to_nodes e a). set (m1 := _args_to_nodes e (ArgIter l1)).
    set (m2 := _args_to_nodes e (ArgIter l2)).
    destruct m as [ns|ex|]; [|reflexivity|reflexivity].
    destruct m1 as [ns1|ex|]; [|reflexivity|reflexivity].
    destruct m2 as [ns2|ex|]; [|reflexivity|reflexivity].
    unfold bind. now rewrite app_assoc.
Qed.

Lemma args_nodes (e : Execution) (nodes : list Node) :
  _args_to_nodes e (ArgIter (map ArgNode nodes)) = Return nodes.
Proof.
  induction nodes as [|n nodes IH]; [reflexivity|].
  simpl map. rewrite args_iter_cons, IH. reflexivity.
Qed.

(** X12: iterables of targets are flattened.  A nested iterable resolves as
    if its items stood in the enclosing one, an object with a [target]
    attribute resolves as that attribute, and the nodes (or the exception of
    the first item that fails) are the same. *)
Theorem args_to_nodes_flattens (e : Execution) (l1 l2 : list Args) (a : Args) :
  _args_to_nodes e (ArgIter (ArgIter l1 :: l2)) = _args_to_nodes e (ArgIter (l1 ++ l2))
  /\ _args_to_nodes e (ArgIter [ArgTarget a]) = _args_to_nodes e (ArgIter [a])
  /\ _args_to_nodes e (ArgIter [a]) = _args_to_nodes e a.
Proof.
  split; [|split].
  - rewrite args_iter_cons, args_iter_app. reflexivity.
  - reflexivity.
  - rewrite args_iter_cons.
    change (_args_to_nodes e (ArgIter [])) with (@Return (list Node) []).
    set (m := _args_to_nodes e a). destruct m as [ns|ex|]; [|reflexivity|reflexivity].
    unfold bind. now rewrite app_nil_r.
Qed.

(** X13: aliases are transparent.  A string that names an alias resolves to
    the nodes stored under it, also when a path of that name is registered;
    preparing a build for the alias is preparing it for those nodes. *)
Theorem alias_transparent
    (set_order : list Node -> list Node) (node_str : Node -> string) (fuel : nat)
    (h : Heap) (e : Execution) (fs : FileSystem) (alias : string) (nodes : list Node) :
  Dict.get string_dec (aliases e) alias = Some nodes ->
  _args_to_nodes e (ArgStr alias) = Return nodes
  /\ prepare_build set_order node_str fuel h e fs (ArgStr alias)
     = prepare_build set_order node_str fuel h e fs (ArgIter (map ArgNode nodes)).
Proof.
  intros Halias.
  assert (H : _args_to_nodes e (ArgStr alias) = Return nodes).
  { simpl. now rewrite Halias. }
  split; [exact H|].
  unfold prepare_build. rewrite H, args_nodes. reflexivity.
Qed.

Lemma alias_transparent_witness :
  _args_to_nodes (mkExecution "/src" [("all"%string, [twice_b; twice_c])]
                    [("/src/all"%string, File "/src/all")] [])
    (ArgStr "all") = Return [twice_b; twice_c]
  /\ prepare_build (fun l => l) path_str 0 twice_heap
       (mkExecution "/src" [("all"%string, [twice_b; twice_c])]
          [("/src/all"%string, File "/src/all")] [])
       empty_disk (ArgStr "all")
     = prepare_build (fun l => l) path_str 0 twice_heap
         (mkExecution "/src" [("all"%string, [twice_b; twice_c])]
            [("/src/all"%string, File "/src/all")] [])
         empty_disk (ArgIter (map ArgNode [twice_b; twice_c])).
Proof.
  apply (alias_transparent (fun l => l) path_str 0 twice_heap
           (mkExecution "/src" [("all"%string, [twice_b; twice_c])]
              [("/src/all"%string, File "/src/all")] [])
           empty_disk "all" [twice_b; twice_c]).
  reflexivity.
Defined.

(** X14: [register_alias] and the resolution of targets round-trip.  After
    an alias was registered for an argument, the alias resolves to the nodes
    the argument resolved to; the other aliases, the entries and the store
    are as before. *)
Theorem register_alias_resolves (e e' : Execution) (alias : string) (args : Args) :
  register_alias e alias args = Return e' ->
  _args_to_nodes e' (ArgStr alias) = _args_to_nodes e args
  /\ (forall other, other <> alias ->
        Dict.get string_dec (aliases e') other = Dict.get string_dec (aliases e) other)
  /\ entries e' = entries e
  /\ metadata_db e' = metadata_db e
  /\ root e' = root e.
Proof.
  unfold register_alias. intros H.
  destruct (_args_to_nodes e args) as [nodes|ex|] eqn:Hargs; try discriminate.
  simpl in H. injection H as <-. simpl. split; [|split; [|auto]].
  - now rewrite Dict.get_set_eq.
  - intros other Hne. now apply Dict.get_set_neq.
Qed.

Lemma register_alias_resolves_witness :
  exists e',
    register_alias cold_execution "all" (ArgIter [ArgNode twice_b; ArgNode twice_c])
    = Return e'
    /\ _args_to_nodes e' (ArgStr "all") = Return [twice_b; twice_c].
Proof.
  eexists. split; [reflexivity|].
  apply (register_alias_resolves cold_execution _ "all"
           (ArgIter [ArgNode twice_b; ArgNode twice_c])).
  reflexivity.
Defined.

(** ** The rows of the metadata store *)

Lemma delete_row_keys (t : Table) (path k : string) :
  In k (Dict.keys (delete_row t path)) <-> In k (Dict.keys t) /\ k <> path.
Proof.
  unfold Dict.keys, delete_row. induction t as [|[k' v] t IH]; simpl.
  - tauto.
  - destruct (string_dec k' path) as [->|Hne]; simpl; rewrite IH.
    + split; [tauto|]. intros [[<-|H] Hk]; [congruence|tauto].
    + split; [intros [<-|H]; tauto|tauto].
Qed.

Lemma delete_row_nodup (t : Table) (path : string) :
  NoDup (Dict.keys t) -> NoDup (Dict.keys (delete_row t path)).
Proof.
  induction t as [|[k v] t IH]; simpl; intros Hnd; [constructor|].
  inversion Hnd as [|? ? Hnot Hrest]; subst.
  destruct (string_dec k path); simpl; auto.
  constructor; auto. intros Hin.
  apply (delete_row_keys t path k) in Hin. tauto.
Qed.

(** X15: [_set_metadata] of [execution.py] keeps the table a table: with one
    row per path before, there is one row per path after; the paths that
    have a row are those that had one and the path written; and the row of
    every other path is unchanged. *)
Theorem set_metadata_keeps_primary_key
    (db db' : Table) (path : string) (metadata : Meta) :
  NoDup (Dict.keys db) ->
  _set_metadata db path metadata = Return db' ->
  NoDup (Dict.keys db')
  /\ (forall k, In k (Dict.keys db') <-> k = path \/ In k (Dict.keys db))
  /\ (forall other, other <> path -> _get_metadata db' other = _get_metadata db other).
Proof.
  intros Hnd Hput. unfold _set_metadata, insert_or in Hput. simpl in Hput.
  injection Hput as <-. split; [|split].
  - unfold Dict.keys. rewrite map_app. simpl. apply NoDup_app.
    + now apply delete_row_nodup.
    + constructor; [intros []|constructor].
    + intros k Hk [<-|[]]. apply (delete_row_keys db path path) in Hk. tauto.
  - intros k. unfold Dict.keys. rewrite map_app, in_app_iff. simpl.
    fold (Dict.keys (delete_row db path)). rewrite delete_row_keys.
    fold (Dict.keys db).
    destruct (string_dec k path) as [->|Hne]; intuition congruence.
  - intros other Hne. unfold _get_metadata, select_metadata.
    rewrite get_app_new, get_delete_row_neq by assumption.
    destruct (Dict.get string_dec db other); auto.
    destruct (string_dec other path); congruence.
Qed.

Lemma set_metadata_keeps_primary_key_witness :
  exists db',
    _set_metadata [("/src/a.o"%string, MDict [])] "/src/a.o" (MDict [("k"%string, MNum 1)])
    = Return db'
    /\ NoDup (Dict.keys db').
Proof.
  eexists. split; [reflexivity|].
  apply (set_metadata_keeps_primary_key [("/src/a.o"%string, MDict [])] _ "/src/a.o"
           (MDict [("k"%string, MNum 1)])).
  - simpl. constructor; [intros []|constructor].
  - reflexivity.
Defined.

(** ** What registrations keep *)

(** [extends h h']: the heap [h'] has everything [h] had.  No builder of a
    node was changed or removed, no output of a builder was dropped, and the
    dependencies of nodes and builders are the same. *)
Definition extends (h h' : Heap) : Prop :=
  (forall n b, node_builder h n = Some b -> node_builder h' n = Some b)
  /\ (forall b n, In n (builder_builds h b) -> In n (builder_builds h' b))
  /\ (forall n, node_depends h' n = node_depends h n)
  /\ (forall b, builder_depends h' b = builder_depends h b).

Lemma extends_refl (h : Heap) : extends h h.
Proof. repeat split; auto. Qed.

Lemma extends_trans (h1 h2 h3 : Heap) :
  extends h1 h2 -> extends h2 h3 -> extends h1 h3.
Proof.
  intros [A1 [B1 [C1 D1]]] [A2 [B2 [C2 D2]]]. repeat split; auto.
  - intros n. now rewrite C2, C1.
  - intros b. now rewrite D2, D1.
Qed.

Lemma extends_bind (h : Heap) (e : Node) (b : Builder) :
  Init.built_by_other h e b = false ->
  extends h (Init.append_builds (Init.set_builder h e b) b e).
Proof.
  intros Hother. split; [|split; [|split]].
  - intros n b' Hn. rewrite node_builder_bind.
    destruct (Node_eq_dec n e) as [->|Hne]; auto.
    destruct (built_by_other_false h e b Hother) as [H|H]; congruence.
  - intros b' n Hn. rewrite builder_builds_bind.
    destruct (Nat.eq_dec b' b) as [->|]; auto. apply in_or_app. now left.
  - intros n. unfold node_depends, node_obj, Init.append_builds, Init.set_builder.
    simpl. rewrite Dict.get_set. destruct (Node_eq_dec n e) as [->|]; reflexivity.
  - intros b'. unfold builder_depends, builder_obj, Init.append_builds.
    simpl. rewrite Dict.get_set. destruct (Nat.eq_dec b' b) as [->|]; reflexivity.
Qed.

Lemma side_effect_extends (b : Builder) (entries : list Node) :
  forall h, extends h (fst (Init.side_effect h b entries)).
Proof.
  induction entries as [|e rest IH]; simpl; intros h; [apply extends_refl|].
  destruct (Init.built_by_other h e b) eqn:Hother; simpl; [apply extends_refl|].
  eapply extends_trans; [apply extends_bind; exact Hother|apply IH].
Qed.

Lemma register_targets_extends (b : Builder) (entries : list Node) :
  forall h, extends h (fst (Init.register_targets h b entries)).
Proof.
  induction entries as [|e rest IH]; simpl; intros h; [apply extends_refl|].
  destruct (is_entry e); simpl; [|apply extends_refl].
  destruct (Init.built_by_other h e b) eqn:Hother; simpl; [apply extends_refl|].
  eapply extends_trans; [apply extends_bind; exact Hother|apply IH].
Qed.

Lemma register_extends (get_targets : Builder -> Init.Targets)
    (r : Init.Registry) (c : Init.Registration) :
  extends (Init.heap r) (Init.heap (Init.register get_targets r c)).
Proof.
  destruct c as [b|b entries]; simpl.
  - unfold Init._resolve_builder.
    destruct (Dict.get Nat.eq_dec (Init.builders r) b); simpl; [apply extends_refl|].
    match goal with |- context [if ?c then _ else _] => destruct c end; simpl;
      [apply extends_refl|].
    match goal with |- context [Init.register_targets ?h ?b ?l] =>
      pose proof (register_targets_extends b l h) as H;
      destruct (Init.register_targets h b l) as [h' [u|ex|]]
    end; simpl in *; exact H.
  - apply side_effect_extends.
Qed.

(** X16: a registration never takes anything back.  After any sequence of
    [_resolve_builder] and [side_effect] calls, whether they returned or
    raised, a node that had a builder still has that same builder, every
    output of a builder is still one, and the [depends] of every node and
    builder are untouched. *)
Theorem registrations_only_extend (get_targets : Builder -> Init.Targets)
    (cs : list Init.Registration) (r : Init.Registry) :
  (forall n b, node_builder (Init.heap r) n = Some b ->
               node_builder (Init.heap (Init.register_all get_targets r cs)) n = Some b)
  /\ (forall b n, In n (builder_builds (Init.heap r) b) ->
                  In n (builder_builds (Init.heap (Init.register_all get_targets r cs)) b))
  /\ (forall n, node_depends (Init.heap (Init.register_all get_targets r cs)) n
                = node_depends (Init.heap r) n)
  /\ (forall b, builder_depends (Init.heap (Init.register_all get_targets r cs)) b
                = builder_depends (Init.heap r) b).
Proof.
  unfold Init.register_all.
  change (extends (Init.heap r) (Init.heap (fold_left (Init.register get_targets) cs r))).
  revert r. induction cs as [|c cs IH]; simpl; intros r; [apply extends_refl|].
  eapply extends_trans; [apply register_extends|apply IH].
Qed.

(** ** The memo of [_resolve_builder] *)

Lemma resolve_builder_memo (get_targets : Builder -> Init.Targets)
    (r r1 : Init.Registry) (b : Builder) (entries : list Node) :
  Init._resolve_builder get_targets r b = (r1, Return entries) ->
  Dict.get Nat.eq_dec (Init.builders r1) b = Some entries.
Proof.
  unfold Init._resolve_builder.
  destruct (Dict.get Nat.eq_dec (Init.builders r) b) as [es|] eqn:Hget.
  - intros [= <- <-]. exact Hget.
  - match goal with |- context [if ?c then _ else _] => destruct c end;
      [discriminate|].
    match goal with |- context [Init.register_targets ?h ?b ?l] =>
      destruct (Init.register_targets h b l) as [h' [u|ex|]]
    end; try discriminate.
    intros [= <- <-]. simpl. rewrite Dict.get_set.
    destruct (Nat.eq_dec b b); congruence.
Qed.

Lemma register_keeps_memo (get_targets : Builder -> Init.Targets)
    (r : Init.Registry) (c : Init.Registration) (b : Builder) (entries : list Node) :
  Dict.get Nat.eq_dec (Init.builders r) b = Some entries ->
  Dict.get Nat.eq_dec (Init.builders (Init.register get_targets r c)) b = Some entries.
Proof.
  intros Hget. destruct c as [b'|b' es]; simpl; auto.
  unfold Init._resolve_builder.
  destruct (Dict.get Nat.eq_dec (Init.builders r) b') as [es'|] eqn:Hget'; simpl; auto.
  match goal with |- context [if ?c then _ else _] => destruct c end; simpl; auto.
  match goal with |- context [Init.register_targets ?h ?b ?l] =>
    destruct (Init.register_targets h b l) as [h' [u|ex|]]
  end; simpl; auto.
  rewrite Dict.get_set. destruct (Nat.eq_dec b b') as [->|]; congruence.
Qed.

(** X17: [_resolve_builder] asks a builder for its targets once.  When it
    has returned the entries of a builder, every later call for that builder,
    after any other registrations and whatever [get_targets] would answer
    then, returns the same entries and changes nothing. *)
Theorem resolve_builder_memoized (get_targets get_targets' : Builder -> Init.Targets)
    (r r1 : Init.Registry) (b : Builder) (entries : list Node)
    (cs : list Init.Registration) :
  Init._resolve_builder get_targets r b = (r1, Return entries) ->
  Init._resolve_builder get_targets' (Init.register_all get_targets r1 cs) b
  = (Init.register_all get_targets r1 cs, Return entries).
Proof.
  intros Hres. apply resolve_builder_memo in Hres.
  assert (Hmemo : Dict.get Nat.eq_dec
                    (Init.builders (Init.register_all get_targets r1 cs)) b
                  = Some entries).
  { unfold Init.register_all. revert r1 Hres.
    induction cs as [|c cs IH]; simpl; intros r1 Hres; auto.
    apply IH. now apply register_keeps_memo. }
  unfold Init._resolve_builder. now rewrite Hmemo.
Qed.

Lemma resolve_builder_memoized_witness :
  exists r1,
    Init._resolve_builder (fun _ => Init.Several [File "a.o"])
      (Init.mkRegistry (mkHeap [] []) []) 1 = (r1, Return [File "a.o"])
    /\ Init._resolve_builder (fun _ => Init.Several [])
         (Init.register_all (fun _ => Init.Several [File "a.o"]) r1
            [Init.SideEffect 1 [File "a.d"]; Init.Resolve 2]) 1
       = (Init.register_all (fun _ => Init.Several [File "a.o"]) r1
            [Init.SideEffect 1 [File "a.d"]; Init.Resolve 2],
          Return [File "a.o"]).
Proof.
  eexists. split; [reflexivity|].
  apply (resolve_builder_memoized (fun _ => Init.Several [File "a.o"])
           (fun _ => Init.Several []) (Init.mkRegistry (mkHeap [] []) []) _ 1
           [File "a.o"] [Init.SideEffect 1 [File "a.d"]; Init.Resolve 2]).
  reflexivity.
Defined.

(** ** [Builder.side_effect] *)

Lemma built_by_other_bind (h : Heap) (e : Node) (b : Builder) (n : Node) :
  Init.built_by_other h e b = false ->
  Init.built_by_other (Init.append_builds (Init.set_builder h e b) b e) n b
  = Init.built_by_other h n b.
Proof.
  intros Hother. unfold Init.built_by_other at 1. rewrite node_builder_bind.
  destruct (Node_eq_dec n e) as [->|]; [|reflexivity].
  rewrite Nat.eqb_refl. simpl. now rewrite Hother.
Qed.

(** The heap after the entries of [done] were bound to [b], one by one. *)
Definition bind_all (h : Heap) (b : Builder) (done : list Node) : Heap :=
  fold_left (fun h e => Init.append_builds (Init.set_builder h e b) b e) done h.

Lemma bind_all_builds (b : Builder) (done : list Node) :
  forall h b',
    builder_builds (bind_all h b done) b'
    = if Nat.eq_dec b' b then builder_builds h b ++ done else builder_builds h b'.
Proof.
  unfold bind_all.
  induction done as [|e done IH]; simpl; intros h b'.
  - destruct (Nat.eq_dec b' b) as [->|]; [now rewrite app_nil_r|reflexivity].
  - rewrite IH, !builder_builds_bind.
    destruct (Nat.eq_dec b' b) as [->|]; [|reflexivity].
    destruct (Nat.eq_dec b b); [|congruence]. now rewrite <- app_assoc.
Qed.

Lemma bind_all_builder (b : Builder) (done : list Node) :
  forall h n,
    node_builder (bind_all h b done) n
    = if in_dec Node_eq_dec n done then Some b else node_builder h n.
Proof.
  unfold bind_all.
  induction done as [|e done IH]; simpl; intros h n; [reflexivity|].
  rewrite IH, node_builder_bind.
  destruct (in_dec Node_eq_dec n done) as [Hin|Hnot];
    destruct (Node_eq_dec e n) as [->|Hne]; try reflexivity.
  - destruct (Node_eq_dec n n); congruence.
  - destruct (Node_eq_dec n e); congruence.
Qed.

Lemma side_effect_app (b : Builder) (done rest : list Node) :
  forall h,
    (forall e, In e done -> Init.built_by_other h e b = false) ->
    Init.side_effect h b (done ++ rest) = Init.side_effect (bind_all h b done) b rest
    /\ forall n, Init.built_by_other (bind_all h b done) n b = Init.built_by_other h n b.
Proof.
  unfold bind_all.
  induction done as [|e done IH]; simpl; intros h Hfree; [auto|].
  assert (He : Init.built_by_other h e b = false) by auto.
  rewrite He.
  destruct (IH (Init.append_builds (Init.set_builder h e b) b e)) as [IH1 IH2].
  { intros e' He'. rewrite built_by_other_bind; auto. }
  split; [exact IH1|].
  intros n. rewrite IH2. now apply built_by_other_bind.
Qed.

(** X18: [side_effect] returns exactly when none of the entries belongs to
    another builder.  All of them are then outputs of the builder: they are
    appended to its [builds] in the order given, each has it as its builder,
    and no other node or builder is changed. *)
Theorem side_effect_returns (h : Heap) (b : Builder) (entries : list Node) :
  (forall e, In e entries -> Init.built_by_other h e b = false) ->
  exists h',
    Init.side_effect h b entries = (h', Return tt)
    /\ builder_builds h' b = builder_builds h b ++ entries
    /\ (forall e, In e entries -> node_builder h' e = Some b)
    /\ (forall n, ~ In n entries -> node_builder h' n = node_builder h n)
    /\ (forall b', b' <> b -> builder_builds h' b' = builder_builds h b').
Proof.
  intros Hfree. exists (bind_all h b entries).
  destruct (side_effect_app b entries [] h Hfree) as [Happ _].
  rewrite app_nil_r in Happ. split; [exact Happ|].
  split; [|split; [|split]].
  - rewrite bind_all_builds. destruct (Nat.eq_dec b b); congruence.
  - intros e He. rewrite bind_all_builder.
    destruct (in_dec Node_eq_dec e entries); congruence.
  - intros n Hn. rewrite bind_all_builder.
    destruct (in_dec Node_eq_dec n entries); congruence.
  - intros b' Hb. rewrite bind_all_builds.
    destruct (Nat.eq_dec b' b); congruence.
Qed.

Lemma side_effect_returns_witness :
  exists h',
    Init.side_effect (mkHeap [] []) 1 [File "a.o"; File "a.d"] = (h', Return tt)
    /\ builder_builds h' 1 = builder_builds (mkHeap [] []) 1 ++ [File "a.o"; File "a.d"]
    /\ (forall e, In e [File "a.o"; File "a.d"] -> node_builder h' e = Some 1)
    /\ (forall n, ~ In n [File "a.o"; File "a.d"] ->
                  node_builder h' n = node_builder (mkHeap [] []) n)
    /\ (forall b', b' <> 1 -> builder_builds h' b' = builder_builds (mkHeap [] []) b').
Proof.
  apply (side_effect_returns (mkHeap [] []) 1 [File "a.o"; File "a.d"]).
  intros e _. reflexivity.
Defined.

(** X19: [side_effect] does not undo what it did when it raises.  When an
    entry belongs to another builder, the call raises [ValueError], and the
    entries given before it stay outputs of the builder: they are in its
    [builds] and have it as their builder. *)
Theorem side_effect_raises_keeps_earlier
    (h : Heap) (b : Builder) (done : list Node) (bad : Node) (rest : list Node) :
  (forall e, In e done -> Init.built_by_other h e b = false) ->
  Init.built_by_other h bad b = true ->
  exists h',
    Init.side_effect h b (done ++ bad :: rest) = (h', Raise ValueError)
    /\ builder_builds h' b = builder_builds h b ++ done
    /\ (forall e, In e done -> node_builder h' e = Some b)
    /\ node_builder h' bad = node_builder h bad.
Proof.
  intros Hfree Hbad. exists (bind_all h b done).
  destruct (side_effect_app b done (bad :: rest) h Hfree) as [Happ Hsame].
  rewrite Happ. simpl. rewrite Hsame, Hbad.
  split; [reflexivity|]. split; [|split].
  - rewrite bind_all_builds. destruct (Nat.eq_dec b b); congruence.
  - intros e He. rewrite bind_all_builder.
    destruct (in_dec Node_eq_dec e done); congruence.
  - rewrite bind_all_builder.
    destruct (in_dec Node_eq_dec bad done) as [Hin|]; [|reflexivity].
    apply Hfree in Hin. congruence.
Qed.

Lemma side_effect_raises_keeps_earlier_witness :
  exists h',
    Init.side_effect (Init.set_builder (mkHeap [] []) (File "b.o") 2) 1
                     ([File "a.o"] ++ File "b.o" :: [File "c.o"])
    = (h', Raise ValueError)
    /\ builder_builds h' 1
       = builder_builds (Init.set_builder (mkHeap [] []) (File "b.o") 2) 1 ++ [File "a.o"]
    /\ (forall e, In e [File "a.o"] -> node_builder h' e = Some 1)
    /\ node_builder h' (File "b.o")
       = node_builder (Init.set_builder (mkHeap [] []) (File "b.o") 2) (File "b.o").
Proof.
  apply (side_effect_raises_keeps_earlier
           (Init.set_builder (mkHeap [] []) (File "b.o") 2) 1
           [File "a.o"] (File "b.o") [File "c.o"]).
  - intros e [<-|[]]. reflexivity.
  - reflexivity.
Defined.

(** ** The targets of [build_targets] in [__init__.py] *)

Lemma target_entries_fold (key_str : string -> string) (entries : Dict.t string Node)
    (paths : list string) :
  forall acc,
    fold_left (fun acc p =>
                 do found <- acc;
                 match Dict.get string_dec entries p with
                 | Some n => Return (found ++ [n])
                 | None => Raise (DependencyError ("Target not found: " ++ key_str p))
                 end) paths acc
    = match acc with
      | Return found =>
          match Init.target_entries key_str entries paths with
          | Return ns => Return (found ++ ns)
          | other => other
          end
      | other => other
      end.
Proof.
  unfold Init.target_entries.
  induction paths as [|p paths IH]; intros acc; cbn [fold_left].
  - destruct acc; auto. now rewrite app_nil_r.
  - destruct acc as [found|ex|]; cbn [bind].
    + destruct (Dict.get string_dec entries p) as [n|]; cbn [app].
      * rewrite (IH (Return (found ++ [n]))), (IH (Return [n])).
        match goal with |- context [fold_left ?f paths (Return [])] =>
          destruct (fold_left f paths (Return [])) as [ns| |]
        end; auto.
        now rewrite <- app_assoc.
      * now rewrite !IH.
    + now rewrite IH.
    + now rewrite IH.
Qed.

Lemma target_entries_cons (key_str : string -> string) (entries : Dict.t string Node)
    (p : string) (paths : list string) :
  Init.target_entries key_str entries (p :: paths)
  = match Dict.get string_dec entries p with
    | Some n =>
        match Init.target_entries key_str entries paths with
        | Return ns => Return (n :: ns)
        | other => other
        end
    | None => Raise (DependencyError ("Target not found: " ++ key_str p))
    end.
Proof.
  unfold Init.target_entries at 1. cbn [fold_left bind]. rewrite target_entries_fold.
  destruct (Dict.get string_dec entries p) as [n|]; auto.
Qed.

(** X20: the targets of the old [build_targets] are looked up in [entries]
    one by one.  The lookup returns the entries of the paths, in the order of
    the paths, when every path is a key; otherwise it raises a
    [DependencyError] for a path that is no key.  A [KeyError] never
    escapes. *)
Theorem target_entries_lookup (key_str : string -> string) (entries : Dict.t string Node)
    (paths : list string) :
  match Init.target_entries key_str entries paths with
  | Return ns => map Some ns = map (Dict.get string_dec entries) paths
  | Raise e =>
      exists p msg, In p paths /\ Dict.get string_dec entries p = None
                    /\ e = DependencyError msg
  | Diverges => False
  end.
Proof.
  induction paths as [|p paths IH]; [reflexivity|].
  rewrite target_entries_cons.
  destruct (Dict.get string_dec entries p) as [n|] eqn:Hget.
  - destruct (Init.target_entries key_str entries paths) as [ns|e|]; simpl; auto.
    + now rewrite Hget, IH.
    + destruct IH as [q [msg [Hq [Hnone He]]]]. exists q, msg. auto.
  - exists p. eexists. simpl. auto.
Qed.

(** ** The order of the calls in a serial build *)

Section SerialOrder.

Variable set_order : list Node -> list Node.
Variable node_str : Node -> string.
Variable remove_entry : FileSystem -> Node -> FileSystem.
Variable prepare_entry : FileSystem -> Node -> FileSystem.
Variable run_build : Builder -> FileSystem -> FileSystem * outcome unit.
Variable builder_str : Builder -> string.
Variable h : Heap.
Variable dry_run : bool.
Variable to_build : list Node.
Variable deps : Dict.t Node (list Node).
Variable edges : Dict.t Node (list Node).

(** Every output of a builder has that builder. *)
Hypothesis builds_owned :
  forall n b, In n (builder_builds h b) -> node_builder h n = Some b.

(** A turn for a node that has no builder, is not to be built or counts as
    built does nothing. *)
Lemma serial_step_idle (st : BuildState) (node : Node) :
  node_builder h node = None \/ ~ In node to_build \/ In node (built_nodes st) ->
  serial_step set_order node_str remove_entry prepare_entry run_build builder_str
    h dry_run to_build deps (st, Return tt) node = (st, Return tt).
Proof.
  intros Hidle. unfold serial_step.
  destruct (node_builder h node) as [b|]; [|reflexivity].
  destruct (set_mem Node_eq_dec node to_build) eqn:Hto; [|reflexivity].
  destruct (set_mem Node_eq_dec node (built_nodes st)) eqn:Hbuilt; [reflexivity|].
  apply set_mem_true in Hto. apply set_mem_false in Hbuilt.
  destruct Hidle as [H|[H|H]]; [discriminate|contradiction|contradiction].
Qed.

(** A turn for a node that is to be built, has a builder and does not count
    as built calls the builder. *)
Lemma serial_step_called (st : BuildState) (node : Node) (b : Builder) :
  node_builder h node = Some b -> In node to_build -> ~ In node (built_nodes st) ->
  calls (fst (serial_step set_order node_str remove_entry prepare_entry
                run_build builder_str h dry_run to_build deps (st, Return tt) node))
  = calls st ++ [b]
  /\ (snd (serial_step set_order node_str remove_entry prepare_entry
             run_build builder_str h dry_run to_build deps (st, Return tt) node)
      = Return tt ->
      built_nodes (fst (serial_step set_order node_str remove_entry prepare_entry
                          run_build builder_str h dry_run to_build deps
                          (st, Return tt) node))
      = set_update Node_eq_dec (built_nodes st) (builder_builds h b)).
Proof.
  intros Hb Hto Hnot. unfold serial_step. rewrite Hb.
  apply (proj2 (@set_mem_true _ Node_eq_dec node to_build)) in Hto.
  apply (proj2 (@set_mem_false _ Node_eq_dec node (built_nodes st))) in Hnot.
  rewrite Hto, Hnot. cbn [negb andb].
  destruct (call_builder_calls node_str remove_entry prepare_entry run_build
              builder_str h b dry_run st) as [Hcalls Hnodes].
  destruct (_call_builder node_str remove_entry prepare_entry run_build builder_str
              h b dry_run st) as [st1 [[]|ex|]]; simpl in *.
  - destruct dry_run.
    + simpl. split; [exact Hcalls|]. intros _. now rewrite Hnodes.
    + match goal with |- context [_update_builder_metadata set_order h b deps ?s] =>
        destruct (update_metadata_calls set_order h b deps s) as [Hc2 Hn2] end.
      simpl in Hc2, Hn2. split; [now rewrite Hc2|]. intros _. now rewrite Hn2, Hnodes.
  - split; [exact Hcalls|discriminate].
  - split; [exact Hcalls|discriminate].
Qed.

(** What the loop keeps true after the turns of the nodes [seen].  While
    nothing has raised, a node counts as built only as an output of a builder
    that was called, and the builder of every node of [seen] to be built was
    called.  And every builder that was called was called in the turn of one
    of its nodes, after the builders of the dependencies of that node that
    were to be built. *)
Definition order_inv (seen : list Node) (acc : BuildState * outcome unit) : Prop :=
  (snd acc = Return tt ->
   (forall n, In n (built_nodes (fst acc)) ->
              exists b, In b (calls (fst acc)) /\ In n (builder_builds h b))
   /\ (forall n b, In n seen -> In n to_build -> node_builder h n = Some b ->
                   In b (calls (fst acc))))
  /\ (forall b2, In b2 (calls (fst acc)) ->
      exists earlier later n,
        calls (fst acc) = earlier ++ b2 :: later
        /\ In n seen /\ In n to_build /\ node_builder h n = Some b2
        /\ forall d b1, In d (dd_get edges n) -> In d to_build ->
                        node_builder h d = Some b1 -> In b1 earlier).

Lemma order_inv_step (seen : list Node) (node : Node) (rest : list Node)
    (acc : BuildState * outcome unit) :
  topological edges (seen ++ node :: rest) ->
  order_inv seen acc ->
  order_inv (seen ++ [node])
    (serial_step set_order node_str remove_entry prepare_entry run_build builder_str
       h dry_run to_build deps acc node).
Proof.
  intros Htopo [Hret Hcalls]. destruct acc as [st o]. simpl in Hret, Hcalls.
  assert (Hkeep : forall b2, In b2 (calls st) ->
            exists earlier later n,
              calls st = earlier ++ b2 :: later
              /\ In n (seen ++ [node]) /\ In n to_build /\ node_builder h n = Some b2
              /\ forall d b1, In d (dd_get edges n) -> In d to_build ->
                              node_builder h d = Some b1 -> In b1 earlier).
  { intros b2 Hb2. destruct (Hcalls b2 Hb2) as [l1 [l2 [n [E [Hn Hrest]]]]].
    exists l1, l2, n. split; [exact E|]. split; [|exact Hrest].
    apply in_or_app. now left. }
  destruct o as [[]|ex|].
  2: { rewrite serial_step_stopped by discriminate.
       split; simpl; [discriminate|exact Hkeep]. }
  2: { rewrite serial_step_stopped by discriminate.
       split; simpl; [discriminate|exact Hkeep]. }
  destruct (Hret eq_refl) as [Hbuilt Hseen].
  destruct (node_builder h node) as [b|] eqn:Hb.
  2: { rewrite serial_step_idle by auto. split; simpl; [|exact Hkeep].
       intros _. split; [exact Hbuilt|].
       intros n b0 Hn Hto Hnb. apply in_app_or in Hn.
       destruct Hn as [Hn|[<-|[]]]; [eauto|congruence]. }
  destruct (in_dec Node_eq_dec node to_build) as [Hto|Hto].
  2: { rewrite serial_step_idle by auto. split; simpl; [|exact Hkeep].
       intros _. split; [exact Hbuilt|].
       intros n b0 Hn Hto' Hnb. apply in_app_or in Hn.
       destruct Hn as [Hn|[<-|[]]]; [eauto|contradiction]. }
  destruct (in_dec Node_eq_dec node (built_nodes st)) as [Hin|Hnot].
  { rewrite serial_step_idle by auto. split; simpl; [|exact Hkeep].
    intros _. split; [exact Hbuilt|].
    intros n b0 Hn Hto' Hnb. apply in_app_or in Hn.
    destruct Hn as [Hn|[<-|[]]]; [eauto|].
    destruct (Hbuilt node Hin) as [b' [Hb' Hout]].
    apply builds_owned in Hout. congruence. }
  destruct (serial_step_called st node b Hb Hto Hnot) as [Hc Hbn].
  split.
  - intros Hr. specialize (Hbn Hr). split.
    + intros n Hn. rewrite Hbn in Hn. apply set_update_in in Hn. rewrite Hc.
      destruct Hn as [Hn|Hn].
      * destruct (Hbuilt n Hn) as [b' [Hb' Hout]]. exists b'. split; [|exact Hout].
        apply in_or_app. now left.
      * exists b. split; [|exact Hn]. apply in_or_app. right. now left.
    + intros n b0 Hn Hto' Hnb. rewrite Hc. apply in_app_or in Hn.
      apply in_or_app. destruct Hn as [Hn|[<-|[]]].
      * left. eauto.
      * right. left. congruence.
  - intros b2 Hb2. rewrite Hc in Hb2 |- *. apply in_app_or in Hb2.
    destruct Hb2 as [Hb2|[<-|[]]].
    + destruct (Hkeep b2 Hb2) as [l1 [l2 [n [E Hrest]]]].
      exists l1, (l2 ++ [b]), n. split; [|exact Hrest].
      rewrite E, <- app_assoc. reflexivity.
    + exists (calls st), [], node. split; [reflexivity|].
      split; [apply in_or_app; right; now left|].
      split; [exact Hto|]. split; [exact Hb|].
      intros d b1 Hd Hdto Hdb. apply (Hseen d b1); auto.
      exact (Htopo seen node rest eq_refl d Hd).
Qed.

Lemma order_inv_loop (rest : list Node) :
  forall seen acc,
    topological edges (seen ++ rest) ->
    order_inv seen acc ->
    order_inv (seen ++ rest)
      (fold_left (serial_step set_order node_str remove_entry prepare_entry run_build
                    builder_str h dry_run to_build deps) rest acc).
Proof.
  induction rest as [|node rest IH]; intros seen acc Htopo Hinv.
  - simpl. now rewrite app_nil_r.
  - cbn [fold_left].
    replace (seen ++ node :: rest) with ((seen ++ [node]) ++ rest)
      by (rewrite <- app_assoc; reflexivity).
    apply IH.
    + rewrite <- app_assoc. exact Htopo.
    + apply order_inv_step with (rest := rest); assumption.
Qed.

Lemma order_inv_start (fs : FileSystem) (db : Table) (o : outcome unit) :
  order_inv [] (mkBuild fs db [] [] [], o).
Proof.
  split; simpl.
  - intros _. split; [intros n []|intros n b []].
  - intros b2 [].
Qed.

End SerialOrder.

Lemma topological_no_edges (l : list Node) : topological [] l.
Proof. intros l1 n l2 _ d []. Qed.

(** X21: a serial build that ends normally has called the builder of every
    node of [ordered_nodes] that [get_to_build] returns and that has a
    builder, provided every output of a builder has that builder. *)
Theorem serial_build_calls_all_needed
    (set_order : list Node -> list Node) (node_str : Node -> string)
    (remove_entry prepare_entry : FileSystem -> Node -> FileSystem)
    (run_build : Builder -> FileSystem -> FileSystem * outcome unit)
    (builder_str : Builder -> string)
    (fuel : nat) (h : Heap) (e : Execution) (fs : FileSystem)
    (pb : PreparedBuild) (dry_run : bool) (n : Node) (b : Builder) :
  (forall n b, In n (builder_builds h b) -> node_builder h n = Some b) ->
  snd (build_targets set_order node_str remove_entry prepare_entry run_build
         builder_str fuel h e fs None (Some pb) dry_run) = Return tt ->
  In n (ordered_nodes pb) -> In n (get_to_build pb) -> node_builder h n = Some b ->
  In b (calls (fst (build_targets set_order node_str remove_entry prepare_entry
                      run_build builder_str fuel h e fs None (Some pb) dry_run))).
Proof.
  intros Hown. unfold build_targets, build_prepared.
  destruct (get_to_build pb) as [|x l] eqn:Hto; [intros _ _ []|].
  rewrite <- Hto. intros Hret Hn Hnto Hnb.
  destruct (order_inv_loop set_order node_str remove_entry prepare_entry run_build
              builder_str h dry_run (get_to_build pb) (entry_dependencies pb) []
              Hown (ordered_nodes pb) [] _
              (topological_no_edges _)
              (order_inv_start h (get_to_build pb) [] fs (metadata_db e) (Return tt)))
    as [Hinv _].
  destruct (Hinv Hret) as [_ Hseen]. apply (Hseen n b); assumption.
Qed.

Lemma pair_heap_builds_owned :
  forall n b, In n (builder_builds pair_heap b) -> node_builder pair_heap n = Some b.
Proof.
  intros n b. unfold builder_builds, builder_obj, node_builder, node_obj. simpl.
  destruct (Nat.eq_dec b 0) as [->|]; simpl; [|intros []].
  intros [<-|[<-|[]]]; reflexivity.
Qed.

Lemma serial_build_calls_all_needed_witness :
  In 0 (calls (fst (build_targets (fun l => l) path_str (fun fs _ => fs) (fun fs _ => fs)
                      (fun _ fs => (fs, Return tt)) (fun _ => "b"%string)
                      0 pair_heap cold_execution empty_disk None (Some pair_build) true))).
Proof.
  apply (serial_build_calls_all_needed (fun l => l) path_str (fun fs _ => fs)
           (fun fs _ => fs) (fun _ fs => (fs, Return tt)) (fun _ => "b"%string)
           0 pair_heap cold_execution empty_disk pair_build true (File "b.o") 0
           pair_heap_builds_owned).
  - reflexivity.
  - simpl. auto.
  - vm_compute. auto.
  - reflexivity.
Defined.

(** X22: in a serial build of a prepared build whose nodes are in
    topological order, a builder is called in the turn of one of its own
    nodes that is to be built, and not before the builder of every
    dependency of that node that is to be built has been called. *)
Theorem serial_build_dependencies_first
    (set_order : list Node -> list Node) (node_str : Node -> string)
    (remove_entry prepare_entry : FileSystem -> Node -> FileSystem)
    (run_build : Builder -> FileSystem -> FileSystem * outcome unit)
    (builder_str : Builder -> string)
    (fuel : nat) (h : Heap) (e : Execution) (fs : FileSystem)
    (pb : PreparedBuild) (dry_run : bool) (b2 : Builder) :
  (forall n b, In n (builder_builds h b) -> node_builder h n = Some b) ->
  topological (edges pb) (ordered_nodes pb) ->
  In b2 (calls (fst (build_targets set_order node_str remove_entry prepare_entry
                       run_build builder_str fuel h e fs None (Some pb) dry_run))) ->
  exists earlier later n,
    calls (fst (build_targets set_order node_str remove_entry prepare_entry
                  run_build builder_str fuel h e fs None (Some pb) dry_run))
    = earlier ++ b2 :: later
    /\ In n (ordered_nodes pb) /\ In n (get_to_build pb) /\ node_builder h n = Some b2
    /\ forall d b1, In d (dd_get (edges pb) n) -> In d (get_to_build pb) ->
                    node_builder h d = Some b1 -> In b1 earlier.
Proof.
  intros Hown Htopo. unfold build_targets, build_prepared.
  destruct (get_to_build pb) as [|x l] eqn:Hto; [intros []|].
  rewrite <- Hto. intros Hb2.
  destruct (order_inv_loop set_order node_str remove_entry prepare_entry run_build
              builder_str h dry_run (get_to_build pb) (entry_dependencies pb) (edges pb)
              Hown (ordered_nodes pb) [] _ Htopo
              (order_inv_start h (get_to_build pb) (edges pb) fs (metadata_db e)
                 (Return tt)))
    as [_ Hcalls].
  exact (Hcalls b2 Hb2).
Qed.

(** Two builders: [0] makes [a.o], and [1] makes [prog] from it. *)
Definition chain_heap : Heap :=
  mkHeap [(File "a.o", mkNodeObj [] (Some 0)); (File "prog", mkNodeObj [File "a.o"] (Some 1))]
         [(0, mkBuilderObj [] [File "a.o"]); (1, mkBuilderObj [] [File "prog"])].

Definition chain_build : PreparedBuild :=
  mkPreparedBuild [File "a.o"; File "prog"] [File "a.o"; File "prog"]
                  [(File "prog", [File "a.o"])] [File "a.o"] [] [] [File "prog"].

Lemma chain_heap_builds_owned :
  forall n b, In n (builder_builds chain_heap b) -> node_builder chain_heap n = Some b.
Proof.
  intros n b. unfold builder_builds, builder_obj, node_builder, node_obj. simpl.
  destruct (Nat.eq_dec b 0) as [->|]; simpl; [intros [<-|[]]; reflexivity|].
  destruct (Nat.eq_dec b 1) as [->|]; simpl; [intros [<-|[]]; reflexivity|intros []].
Qed.

Lemma serial_build_dependencies_first_witness :
  calls (fst (build_targets (fun l => l) path_str (fun fs _ => fs) (fun fs _ => fs)
                (fun _ fs => (fs, Return tt)) (fun _ => "b"%string)
                0 chain_heap cold_execution empty_disk None (Some chain_build) true))
  = [0; 1]
  /\ exists earlier later n,
       calls (fst (build_targets (fun l => l) path_str (fun fs _ => fs) (fun fs _ => fs)
                     (fun _ fs => (fs, Return tt)) (fun _ => "b"%string)
                     0 chain_heap cold_execution empty_disk None (Some chain_build) true))
       = earlier ++ 1 :: later
       /\ In n (ordered_nodes chain_build) /\ In n (get_to_build chain_build)
       /\ node_builder chain_heap n = Some 1
       /\ forall d b1, In d (dd_get (edges chain_build) n) ->
                       In d (get_to_build chain_build) ->
                       node_builder chain_heap d = Some b1 -> In b1 earlier.
Proof.
  split; [reflexivity|].
  apply (serial_build_dependencies_first (fun l => l) path_str (fun fs _ => fs)
           (fun fs _ => fs) (fun _ fs => (fs, Return tt)) (fun _ => "b"%string)
           0 chain_heap cold_execution empty_disk chain_build true 1
           chain_heap_builds_owned).
  - apply topologicalb_topological. reflexivity.
  - vm_compute. auto.
Defined.

(** * [Environment]: entries and the dependencies of builders ([__init__.py]) *)

Module Environment.

(** The classes [create_entry] is called with. *)
Inductive Factory : Type := FileClass | DirClass.

(** [factory(self, path)] *)
Definition make (factory : Factory) (path : string) : Node :=
  match factory with
  | FileClass => File path
  | DirClass => Dir path
  end.

(** [isinstance(entry, factory)] *)
Definition isinstance (entry : Node) (factory : Factory) : bool :=
  match entry, factory with
  | File _, FileClass => true
  | Dir _, DirClass => true
  | _, _ => false
  end.

(** [Environment.create_entry]: the dictionary [execution.entries] it leaves
    and how it ended. *)
Definition create_entry (root : string) (entries : Dict.t string Node)
    (path : string) (factory : Factory) : Dict.t string Node * outcome Node :=
  let path := joinpath root path in
  match Dict.get string_dec entries path with
  | Some entry =>
      if isinstance entry factory then (entries, Return entry)
      else (entries, Raise TypeError)
  | None =>
      let entry := make factory path in
      (Dict.set string_dec entries path entry, Return entry)
  end.

(** What [file], [dir] and the [depends_*] methods are given: a builder, a
    string or [Path], or an entry. *)
Inductive Source : Type :=
| SBuilder (b : Builder)
| SPath (p : string)
| SEntry (e : Node).

(** [Environment.file] and [Environment.dir]: an entry of the class asked
    for is returned as it is; a path goes to [create_entry]; for anything
    else [root.joinpath] raises [TypeError]. *)
Definition entry_of (factory : Factory) (root : string) (entries : Dict.t string Node)
    (path : Source) : Dict.t string Node * outcome Node :=
  match path with
  | SPath p => create_entry root entries p factory
  | SEntry e =>
      if isinstance e factory then (entries, Return e) else (entries, Raise TypeError)
  | SBuilder _ => (entries, Raise TypeError)
  end.

Definition file : string -> Dict.t string Node -> Source -> Dict.t string Node * outcome Node :=
  entry_of FileClass.

Definition dir : string -> Dict.t string Node -> Source -> Dict.t string Node * outcome Node :=
  entry_of DirClass.

(** [isinstance(t, File)] *)
Definition is_file (n : Node) : bool :=
  match n with
  | File _ => true
  | _ => false
  end.

(** What the methods of an environment work on: the registry of builders
    and [execution.entries]. *)
Record State : Type := mkState {
  env_registry : Init.Registry;
  env_entries : Dict.t string Node
}.

(** [target.depends.append(d)] *)
Definition append_depends (r : Init.Registry) (target : Builder) (d : Node)
    : Init.Registry :=
  Init.mkRegistry
    (mkHeap (node_objs (Init.heap r))
            (Dict.set Nat.eq_dec (builder_objs (Init.heap r)) target
               (mkBuilderObj (builder_depends (Init.heap r) target ++ [d])
                             (builder_builds (Init.heap r) target))))
    (Init.builders r).

Section Depends.

Variable get_targets : Builder -> Init.Targets.
Variable root : string.

(** [Environment.depends_file] *)
Definition depends_file (s : State) (target : Builder) (source : Source)
    : State * outcome Node :=
  match source with
  | SBuilder b =>
      match Init._resolve_builder get_targets (env_registry s) b with
      | (r, Return b_targets) =>
          match filter is_file b_targets with
          | [f] => (mkState (append_depends r target f) (env_entries s), Return f)
          | _ => (mkState r (env_entries s), Raise ValueError)
          end
      | (r, Raise e) => (mkState r (env_entries s), Raise e)
      | (r, Diverges) => (mkState r (env_entries s), Diverges)
      end
  | _ =>
      match file root (env_entries s) source with
      | (entries, Return f) =>
          (mkState (append_depends (env_registry s) target f) entries, Return f)
      | (entries, Raise e) => (mkState (env_registry s) entries, Raise e)
      | (entries, Diverges) => (mkState (env_registry s) entries, Diverges)
      end
  end.

(** [Environment.depends_dir] *)
Definition depends_dir (s : State) (target : Builder) (source : Source)
    : State * outcome Node :=
  match source with
  | SBuilder b =>
      match Init._resolve_builder get_targets (env_registry s) b with
      | (r, Return b_targets) =>
          match b_targets with
          | [d] =>
              if is_dir d
              then (mkState (append_depends r target d) (env_entries s), Return d)
              else (mkState r (env_entries s), Raise ValueError)
          | _ => (mkState r (env_entries s), Raise ValueError)
          end
      | (r, Raise e) => (mkState r (env_entries s), Raise e)
      | (r, Diverges) => (mkState r (env_entries s), Diverges)
      end
  | _ =>
      match dir root (env_entries s) source with
      | (entries, Return d) =>
          (mkState (append_depends (env_registry s) target d) entries, Return d)
      | (entries, Raise e) => (mkState (env_registry s) entries, Raise e)
      | (entries, Diverges) => (mkState (env_registry s) entries, Diverges)
      end
  end.

End Depends.

End Environment.

(** ** The interning of entries *)

(** Every key of [execution.entries] is the path of its entry. *)
Definition keyed (entries : Dict.t string Node) : Prop :=
  forall p n, Dict.get string_dec entries p = Some n -> path_of n = Some p.

(** X23: [create_entry] interns entries by their absolute path.  On a
    dictionary whose keys are the paths of their entries, a call that
    returns gives the entry of the class asked for at the path joined to the
    root, which is then the entry under that path; no other key changes and
    the keys are still the paths of their entries.  Asking again for the same
    path returns the same entry, and asking for it with the other class
    raises [TypeError]; neither changes the dictionary. *)
Theorem create_entry_interns (root : string) (entries entries' : Dict.t string Node)
    (path : string) (factory : Environment.Factory) (entry : Node) :
  keyed entries ->
  Environment.create_entry root entries path factory = (entries', Return entry) ->
  entry = Environment.make factory (joinpath root path)
  /\ Dict.get string_dec entries' (joinpath root path) = Some entry
  /\ (forall other, other <> joinpath root path ->
        Dict.get string_dec entries' other = Dict.get string_dec entries other)
  /\ keyed entries'
  /\ (forall factory',
        Environment.create_entry root entries' path factory'
        = (entries', if Environment.isinstance entry factory'
                     then Return entry else Raise TypeError)).
Proof.
  intros Hkeyed. unfold Environment.create_entry. cbv zeta.
  destruct (Dict.get string_dec entries (joinpath root path)) as [found|] eqn:Hget.
  - destruct (Environment.isinstance found factory) eqn:Hinst; [|discriminate].
    intros [= <- <-]. split; [|split; [|split; [|split]]]; auto.
    + apply Hkeyed in Hget.
      destruct found, factory; simpl in *; congruence.
    + intros factory'. rewrite Hget.
      destruct (Environment.isinstance found factory'); reflexivity.
  - intros [= <- <-]. split; [reflexivity|]. split; [apply Dict.get_set_eq|].
    split; [|split].
    + intros other Hne. now apply Dict.get_set_neq.
    + intros p n. rewrite Dict.get_set.
      destruct (string_dec p (joinpath root path)) as [->|]; [|apply Hkeyed].
      intros [= <-]. destruct factory; reflexivity.
    + intros factory'. rewrite Dict.get_set_eq.
      destruct (Environment.isinstance _ factory'); reflexivity.
Qed.

Lemma create_entry_interns_witness :
  Environment.create_entry "/src" [] "a.c" Environment.FileClass
  = ([("/src/a.c"%string, File "/src/a.c")], Return (File "/src/a.c"))
  /\ Environment.create_entry "/src" [("/src/a.c"%string, File "/src/a.c")] "a.c"
       Environment.DirClass
     = ([("/src/a.c"%string, File "/src/a.c")], Raise TypeError).
Proof.
  split; [reflexivity|].
  apply (create_entry_interns "/src" [] [("/src/a.c"%string, File "/src/a.c")] "a.c"
           Environment.FileClass (File "/src/a.c")).
  - intros p n. discriminate.
  - reflexivity.
Defined.

(** ** The dependencies a builder declares *)

Lemma append_depends_depends (r : Init.Registry) (target : Builder) (d : Node)
    (b : Builder) :
  builder_depends (Init.heap (Environment.append_depends r target d)) b
  = if Nat.eq_dec b target then builder_depends (Init.heap r) target ++ [d]
    else builder_depends (Init.heap r) b.
Proof.
  unfold Environment.append_depends, builder_depends at 1, builder_obj. simpl.
  rewrite Dict.get_set. destruct (Nat.eq_dec b target); reflexivity.
Qed.

Lemma resolve_builder_depends (get_targets : Builder -> Init.Targets)
    (r : Init.Registry) (b b' : Builder) :
  builder_depends (Init.heap (fst (Init._resolve_builder get_targets r b))) b'
  = builder_depends (Init.heap r) b'.
Proof.
  destruct (register_extends get_targets r (Init.Resolve b)) as [_ [_ [_ H]]].
  apply H.
Qed.

(** What [depends_file] and [depends_dir] do to the dependencies of the
    builders: the entry returned, of the class [kind], is appended to those
    of [target]; when the call raises, they are as before. *)
Definition records_dependency (kind : Node -> bool) (h h' : Heap) (target : Builder)
    (o : outcome Node) : Prop :=
  match o with
  | Return d =>
      kind d = true
      /\ forall b, builder_depends h' b
                   = if Nat.eq_dec b target then builder_depends h target ++ [d]
                     else builder_depends h b
  | _ => forall b, builder_depends h' b = builder_depends h b
  end.

(** X24: [depends_file] returns nothing but a [File] and [depends_dir]
    nothing but a [Dir], whatever the source is (a path, an entry or a
    builder), and the entry returned is appended to the [depends] of the
    target builder and of no other.  When either raises, no [depends] has
    changed. *)
Theorem depends_records_result (get_targets : Builder -> Init.Targets) (root : string)
    (s : Environment.State) (target : Builder) (source : Environment.Source) :
  records_dependency Environment.is_file
    (Init.heap (Environment.env_registry s))
    (Init.heap (Environment.env_registry
                  (fst (Environment.depends_file get_targets root s target source))))
    target
    (snd (Environment.depends_file get_targets root s target source))
  /\ records_dependency is_dir
       (Init.heap (Environment.env_registry s))
       (Init.heap (Environment.env_registry
                     (fst (Environment.depends_dir get_targets root s target source))))
       target
       (snd (Environment.depends_dir get_targets root s target source)).
Proof.
  assert (Hcreate : forall entries p factory,
            match snd (Environment.create_entry root entries p factory) with
            | Return d => Environment.isinstance d factory = true
            | _ => True
            end).
  { intros entries p factory. unfold Environment.create_entry. cbv zeta.
    destruct (Dict.get string_dec entries (joinpath root p)) as [found|].
    - destruct (Environment.isinstance found factory) eqn:E; simpl; auto.
    - simpl. destruct factory; reflexivity. }
  assert (Hentry : forall factory entries src,
            match snd (Environment.entry_of factory root entries src) with
            | Return d => Environment.isinstance d factory = true
            | _ => True
            end).
  { intros factory entries [b|p|e]; simpl; auto.
    - apply Hcreate.
    - destruct (Environment.isinstance e factory) eqn:E; simpl; auto. }
  assert (Hfile : forall d, Environment.isinstance d Environment.FileClass = true ->
                            Environment.is_file d = true).
  { intros [p|p|i]; simpl; auto. }
  assert (Hdir : forall d, Environment.isinstance d Environment.DirClass = true ->
                           is_dir d = true).
  { intros [p|p|i]; simpl; auto. }
  split.
  - destruct source as [b|p|e].
    + unfold Environment.depends_file.
      pose proof (resolve_builder_depends get_targets (Environment.env_registry s) b)
        as Hres.
      destruct (Init._resolve_builder get_targets (Environment.env_registry s) b)
        as [r [b_targets|ex|]]; cbn [fst] in Hres; cbn [fst snd Environment.env_registry records_dependency]; auto.
      destruct (filter Environment.is_file b_targets) as [|f [|f' fs]] eqn:Hfilter;
        cbn [fst snd Environment.env_registry records_dependency]; auto.
      split.
      * assert (Hin : In f (filter Environment.is_file b_targets))
          by (rewrite Hfilter; now left).
        apply filter_In in Hin. tauto.
      * intros b0. rewrite append_depends_depends, !Hres. reflexivity.
    + unfold Environment.depends_file.
      pose proof (Hentry Environment.FileClass (Environment.env_entries s)
                    (Environment.SPath p)) as Hk.
      unfold Environment.file.
      destruct (Environment.entry_of Environment.FileClass root
                  (Environment.env_entries s) (Environment.SPath p))
        as [entries [d|ex|]]; cbn [fst snd Environment.env_registry records_dependency] in *; auto.
      split; [auto|]. intros b0. apply append_depends_depends.
    + unfold Environment.depends_file.
      pose proof (Hentry Environment.FileClass (Environment.env_entries s)
                    (Environment.SEntry e)) as Hk.
      unfold Environment.file.
      destruct (Environment.entry_of Environment.FileClass root
                  (Environment.env_entries s) (Environment.SEntry e))
        as [entries [d|ex|]]; cbn [fst snd Environment.env_registry records_dependency] in *; auto.
      split; [auto|]. intros b0. apply append_depends_depends.
  - destruct source as [b|p|e].
    + unfold Environment.depends_dir.
      pose proof (resolve_builder_depends get_targets (Environment.env_registry s) b)
        as Hres.
      destruct (Init._resolve_builder get_targets (Environment.env_registry s) b)
        as [r [b_targets|ex|]]; cbn [fst] in Hres; cbn [fst snd Environment.env_registry records_dependency]; auto.
      destruct b_targets as [|d [|d' ds]]; cbn [fst snd Environment.env_registry records_dependency]; auto.
      destruct (is_dir d) eqn:Hd; cbn [fst snd Environment.env_registry records_dependency]; auto.
      split; [exact Hd|].
      intros b0. rewrite append_depends_depends, !Hres. reflexivity.
    + unfold Environment.depends_dir.
      pose proof (Hentry Environment.DirClass (Environment.env_entries s)
                    (Environment.SPath p)) as Hk.
      unfold Environment.dir.
      destruct (Environment.entry_of Environment.DirClass root
                  (Environment.env_entries s) (Environment.SPath p))
        as [entries [d|ex|]]; cbn [fst snd Environment.env_registry records_dependency] in *; auto.
      split; [auto|]. intros b0. apply append_depends_depends.
    + unfold Environment.depends_dir.
      pose proof (Hentry Environment.DirClass (Environment.env_entries s)
                    (Environment.SEntry e)) as Hk.
      unfold Environment.dir.
      destruct (Environment.entry_of Environment.DirClass root
                  (Environment.env_entries s) (Environment.SEntry e))
        as [entries [d|ex|]]; cbn [fst snd Environment.env_registry records_dependency] in *; auto.
      split; [auto|]. intros b0. apply append_depends_depends.
Qed.

(** X25: a builder whose [get_targets] returns one entry, not a list of
    entries, is registered with no output.  [_resolve_builder] returns the
    empty list and remembers it, the entry does not get the builder, and
    [depends_file] and [depends_dir] on that builder raise [ValueError],
    adding no dependency. *)
Theorem single_entry_builder_registers_nothing
    (get_targets : Builder -> Init.Targets) (root : string)
    (s : Environment.State) (target b : Builder) (e : Node) :
  Dict.get Nat.eq_dec (Init.builders (Environment.env_registry s)) b = None ->
  get_targets b = Init.OneEntry e ->
  Init._resolve_builder get_targets (Environment.env_registry s) b
  = (Init.mkRegistry (Init.heap (Environment.env_registry s))
       (Dict.set Nat.eq_dec (Init.builders (Environment.env_registry s)) b []),
     Return [])
  /\ snd (Environment.depends_file get_targets root s target (Environment.SBuilder b))
     = Raise ValueError
  /\ snd (Environment.depends_dir get_targets root s target (Environment.SBuilder b))
     = Raise ValueError
  /\ Init.heap (Environment.env_registry
                  (fst (Environment.depends_file get_targets root s target
                          (Environment.SBuilder b))))
     = Init.heap (Environment.env_registry s)
  /\ Init.heap (Environment.env_registry
                  (fst (Environment.depends_dir get_targets root s target
                          (Environment.SBuilder b))))
     = Init.heap (Environment.env_registry s).
Proof.
  intros Hmemo Htargets.
  assert (Hres : Init._resolve_builder get_targets (Environment.env_registry s) b
                 = (Init.mkRegistry (Init.heap (Environment.env_registry s))
                      (Dict.set Nat.eq_dec
                         (Init.builders (Environment.env_registry s)) b []),
                    Return [])).
  { unfold Init._resolve_builder. rewrite Hmemo, Htargets. reflexivity. }
  split; [exact Hres|].
  unfold Environment.depends_file, Environment.depends_dir. rewrite Hres. simpl.
  repeat split.
Qed.

Lemma single_entry_builder_registers_nothing_witness :
  snd (Environment.depends_dir (fun _ => Init.OneEntry (Dir "/src/out")) "/src"
         (Environment.mkState (Init.mkRegistry (mkHeap [] []) []) []) 2
         (Environment.SBuilder 1))
  = Raise ValueError.
Proof.
  apply (single_entry_builder_registers_nothing
           (fun _ => Init.OneEntry (Dir "/src/out")) "/src"
           (Environment.mkState (Init.mkRegistry (mkHeap [] []) []) []) 2 1
           (Dir "/src/out")); reflexivity.
Defined.

(** ** When an entry is out of date *)

(** Why the loop of [prepare_build] that compares signatures adds a node to
    [outdated]: it is an entry with a builder, and either nothing is at its
    path, or the row stored for its path is not the signature of its
    dependencies computed from [metadata]. *)
Definition outdated_now (set_order : list Node -> list Node) (h : Heap) (e : Execution)
    (fs : FileSystem) (metadata : Dict.t Node Meta)
    (all_dependencies : Dict.t Node (list Node)) (n : Node) : Prop :=
  is_entry n = true /\ node_builder h n <> None
  /\ exists path,
       path_of n = Some path
       /\ (path_exists fs path = false
           \/ exists found sig,
                Dict.get Node_eq_dec all_dependencies n = Some found
                /\ _metadata_signature metadata (set_order found) = Return sig
                /\ opt_meta_eqb (_get_metadata (metadata_db e) path) sig = false).

Lemma check_node_outdated
    (set_order : list Node -> list Node) (h : Heap) (e : Execution) (fs : FileSystem)
    (metadata : Dict.t Node Meta) (all_dependencies : Dict.t Node (list Node))
    (o0 c0 o1 c1 : list Node) (node : Node) :
  check_node set_order h e fs metadata all_dependencies (Return (o0, c0)) node
  = Return (o1, c1) ->
  forall n, In n o1 <->
            In n o0
            \/ (n = node /\ outdated_now set_order h e fs metadata all_dependencies node).
Proof.
  unfold check_node, outdated_now. cbn [bind].
  destruct (is_entry node) eqn:He.
  2: { intros [= <- _] n. split; [auto|]. intros [H|[_ [H _]]]; [exact H|discriminate]. }
  destruct (node_builder h node) as [b|] eqn:Hb.
  2: { intros [= <- _] n. split; [auto|].
       intros [H|[_ [_ [H _]]]]; [exact H|congruence]. }
  destruct (path_of node) as [p|] eqn:Hp.
  2: { intros [= <- _] n. split; [auto|].
       intros [H|[_ [_ [_ [path [H _]]]]]]; [exact H|discriminate]. }
  destruct (path_exists fs p) eqn:Hexists; cbn [negb].
  2: { intros [= <- _] n. rewrite set_add_in. split.
       - intros [->|H]; [|auto]. right. split; [reflexivity|].
         split; [reflexivity|]. split; [discriminate|]. exists p. auto.
       - intros [H|[-> _]]; auto. }
  unfold dict_item.
  destruct (Dict.get Node_eq_dec all_dependencies node) as [found|] eqn:Hfound;
    [|discriminate].
  cbn [bind].
  destruct (_metadata_signature metadata (set_order found)) as [sig|ex|] eqn:Hsig;
    try discriminate.
  cbn [bind].
  destruct (opt_meta_eqb (_get_metadata (metadata_db e) p) sig) eqn:Heq.
  - intros [= <- _] n. split; [auto|].
    intros [H|[_ [_ [_ [path [Hpath [Hmiss|[found' [sig' [H1 [H2 H3]]]]]]]]]]].
    + exact H.
    + injection Hpath as <-. congruence.
    + injection Hpath as <-. injection H1 as <-. rewrite Hsig in H2.
      injection H2 as <-. congruence.
  - intros [= <- _] n. rewrite set_add_in. split.
    + intros [->|H]; [|auto]. right. split; [reflexivity|].
      split; [reflexivity|]. split; [discriminate|]. exists p.
      split; [reflexivity|]. right. exists found, sig. auto.
    + intros [H|[-> _]]; auto.
Qed.

Lemma check_nodes_outdated_iff
    (set_order : list Node -> list Node) (h : Heap) (e : Execution) (fs : FileSystem)
    (metadata : Dict.t Node Meta) (all_dependencies : Dict.t Node (list Node))
    (nodes : list Node) :
  forall acc outdated changed,
    fold_left (check_node set_order h e fs metadata all_dependencies) nodes acc
    = Return (outdated, changed) ->
    exists outdated0 changed0,
      acc = Return (outdated0, changed0)
      /\ forall n, In n outdated <->
           In n outdated0
           \/ (In n nodes
               /\ outdated_now set_order h e fs metadata all_dependencies n).
Proof.
  induction nodes as [|node nodes IH]; cbn [fold_left]; intros acc outdated changed Hrun.
  - exists outdated, changed. split; [exact Hrun|]. intros n. split; [auto|].
    intros [H|[[] _]]. exact H.
  - destruct (IH _ _ _ Hrun) as [o1 [c1 [Hstep Hin]]].
    destruct acc as [[o0 c0]|ex|]; try discriminate.
    exists o0, c0. split; [reflexivity|].
    intros n. rewrite Hin.
    rewrite (check_node_outdated set_order h e fs metadata all_dependencies
               o0 c0 o1 c1 node Hstep n).
    simpl. split.
    + intros [[H|[-> H]]|[H1 H2]]; auto.
    + intros [H|[[<-|H1] H2]]; auto.
Qed.

(** What [metadata] holds once the loop that gathers it has returned: for
    every entry it walked, what [get_metadata] returns now. *)
Lemma gather_metadata_get
    (set_order : list Node -> list Node) (node_str : Node -> string)
    (h : Heap) (fs : FileSystem) (entry_nodes : list Node) (metadata : Dict.t Node Meta) :
  (forall l, Permutation (set_order l) l) ->
  gather_metadata set_order node_str h fs entry_nodes = Return metadata ->
  forall x, In x entry_nodes ->
            exists m, Dict.get Node_eq_dec metadata x = Some m
                      /\ get_metadata fs x = Return m.
Proof.
  intros Hperm. unfold gather_metadata.
  set (step := fun (acc : outcome (Dict.t Node Meta)) (entry : Node) => _).
  assert (Hstep : forall acc entry acc1,
            step acc entry = Return acc1 ->
            exists acc0 m, acc = Return acc0 /\ get_metadata fs entry = Return m
                           /\ acc1 = Dict.set Node_eq_dec acc0 entry m).
  { intros acc entry acc1. unfold step. destruct acc as [acc0|ex|]; try discriminate.
    cbn [bind]. intros H. exists acc0.
    destruct (node_builder h entry).
    - destruct (get_metadata fs entry) as [m|ex|]; try discriminate.
      cbn [bind] in H. injection H as <-. eauto.
    - destruct (negb (node_exists fs entry)); try discriminate.
      destruct (get_metadata fs entry) as [m|ex|]; try discriminate.
      cbn [bind] in H. injection H as <-. eauto. }
  assert (Hgen : forall l acc,
            fold_left step l acc = Return metadata ->
            exists acc0, acc = Return acc0
              /\ (forall x, ~ In x l ->
                    Dict.get Node_eq_dec metadata x = Dict.get Node_eq_dec acc0 x)
              /\ (forall x, In x l ->
                    exists m, Dict.get Node_eq_dec metadata x = Some m
                              /\ get_metadata fs x = Return m)).
  { induction l as [|a l IH]; cbn [fold_left]; intros acc Hrun.
    - exists metadata. split; [exact Hrun|]. split; [reflexivity|intros x []].
    - destruct (IH _ Hrun) as [acc1 [Hacc1 [Hout Hin]]].
      destruct (Hstep _ _ _ Hacc1) as [acc0 [m [-> [Hm ->]]]].
      exists acc0. split; [reflexivity|]. split.
      + intros x Hx. rewrite Hout by (intros H; apply Hx; now right).
        apply Dict.get_set_neq. intros ->. apply Hx. now left.
      + intros x [<-|Hx]; [|now apply Hin].
        destruct (in_dec Node_eq_dec a l) as [Hal|Hal]; [now apply Hin|].
        exists m. split; [|exact Hm]. rewrite Hout by exact Hal.
        apply Dict.get_set_eq. }
  intros Hrun x Hx. destruct (Hgen _ _ Hrun) as [acc0 [_ [_ Hin]]].
  apply Hin. now apply (set_order_in set_order Hperm).
Qed.

(** X26: what [out_of_date] means.  When [prepare_build] returns, there is
    the metadata it gathered, which holds for every reachable entry what
    [get_metadata] returned for it; and a node is in [out_of_date] exactly
    when it is a reachable entry with a builder for which nothing exists at
    its path, or for which the row stored under its path is missing or is not
    equal to the signature of its [entry_dependencies] computed from that
    metadata. *)
Theorem out_of_date_iff_signature_differs
    (set_order : list Node -> list Node) (node_str : Node -> string) (fuel : nat)
    (h : Heap) (e : Execution) (fs : FileSystem) (args : Args) (pb : PreparedBuild) :
  (forall l, Permutation (set_order l) l) ->
  prepare_build set_order node_str fuel h e fs args = Return pb ->
  exists metadata,
    (forall x, In x (ordered_nodes pb) -> is_entry x = true ->
               exists m, Dict.get Node_eq_dec metadata x = Some m
                         /\ get_metadata fs x = Return m)
    /\ forall n,
         In n (out_of_date pb) <->
         In n (ordered_nodes pb) /\ is_entry n = true /\ node_builder h n <> None
         /\ exists path,
              path_of n = Some path
              /\ (path_exists fs path = false
                  \/ exists found sig,
                       Dict.get Node_eq_dec (entry_dependencies pb) n = Some found
                       /\ _metadata_signature metadata (set_order found) = Return sig
                       /\ opt_meta_eqb (_get_metadata (metadata_db e) path) sig = false).
Proof.
  intros Hperm Hprep.
  destruct (prepare_build_stages set_order node_str fuel h e fs args pb Hprep)
    as [tn [all_nodes [edges [ordered [all_deps [metadata [outdated [changed
        [Hargs [Htrav [Hsort [_ [Hgather [Hcheck Hpb]]]]]]]]]]]]]].
  subst pb. simpl.
  destruct (@traverse_node_graph_returns set_order Hperm h tn)
    as [all_nodes' [edges' [Htrav' [Hreach [Hedges _]]]]].
  rewrite Htrav in Htrav'. injection Htrav' as <- <-.
  assert (Hkeys : NoDup (Dict.keys edges)).
  { unfold _traverse_node_graph, traverse in Htrav.
    eapply traverse_loop_keys; [|exact Htrav]. simpl. constructor. }
  assert (Hclosed : forall n d, In d (dd_get edges n) -> In n all_nodes /\ In d all_nodes).
  { intros k d Hd. apply Hedges in Hd. destruct Hd as [Hk Hd]. split; auto.
    apply Hreach. apply reach_dep with (n := k); auto. now apply Hreach. }
  destruct (sort_dag_returned set_order node_str all_nodes edges ordered
              Hperm Hkeys Hclosed Hsort) as [_ Hsame].
  exists metadata. split.
  - intros x Hx He. apply Hsame in Hx.
    apply (gather_metadata_get set_order node_str h fs
             (set_of Node_eq_dec (filter is_entry all_nodes)) metadata Hperm Hgather).
    apply set_of_in, filter_In. auto.
  - intros n.
    destruct (check_nodes_outdated_iff set_order h e fs metadata all_deps all_nodes
                _ _ _ Hcheck) as [o0 [c0 [E Hiff]]].
    injection E as <- <-. rewrite Hiff. unfold outdated_now. split.
    + intros [[]|[Hn [He [Hb Hwhy]]]].
      split; [now apply Hsame|]. split; [exact He|]. split; [exact Hb|exact Hwhy].
    + intros [Hn [He [Hb Hwhy]]].
      right. split; [now apply Hsame|]. split; [exact He|]. split; [exact Hb|exact Hwhy].
Qed.

Lemma out_of_date_iff_signature_differs_witness :
  exists pb,
    prepare_build (fun l => l) path_str 5 cold_heap cold_execution
      (mkFS (fun _ => Some (mkStat 1 true false)) (fun _ => Return (MDict [])))
      (ArgNode cold_out) = Return pb
    /\ In cold_out (out_of_date pb)
    /\ exists metadata,
         (forall x, In x (ordered_nodes pb) -> is_entry x = true ->
                    exists m,
                      Dict.get Node_eq_dec metadata x = Some m
                      /\ get_metadata
                           (mkFS (fun _ => Some (mkStat 1 true false))
                                 (fun _ => Return (MDict []))) x
                         = Return m)
         /\ forall n,
              In n (out_of_date pb) <->
              In n (ordered_nodes pb) /\ is_entry n = true
              /\ node_builder cold_heap n <> None
              /\ exists path,
                   path_of n = Some path
                   /\ (path_exists
                         (mkFS (fun _ => Some (mkStat 1 true false))
                               (fun _ => Return (MDict []))) path = false
                       \/ exists found sig,
                            Dict.get Node_eq_dec (entry_dependencies pb) n = Some found
                            /\ _metadata_signature metadata ((fun l => l) found)
                               = Return sig
                            /\ opt_meta_eqb
                                 (_get_metadata (metadata_db cold_execution) path) sig
                               = false).
Proof.
  eexists. split; [vm_compute; reflexivity|]. split; [simpl; auto|].
  apply (out_of_date_iff_signature_differs (fun l => l) path_str 5 cold_heap
           cold_execution
           (mkFS (fun _ => Some (mkStat 1 true false)) (fun _ => Return (MDict [])))
           (ArgNode cold_out)).
  - intros l. apply Permutation_refl.
  - vm_compute. reflexivity.
Defined.

(** ** The rows a build writes *)

(** [c'] holds what [c] held, and what it holds besides was read from the
    filesystem [fs]. *)
Definition cache_grows (fs : FileSystem) (c c' : Dict.t Node Meta) : Prop :=
  (forall d m, Dict.get Node_eq_dec c d = Some m -> Dict.get Node_eq_dec c' d = Some m)
  /\ (forall d m, Dict.get Node_eq_dec c' d = Some m ->
                  Dict.get Node_eq_dec c d = Some m \/ get_metadata fs d = Return m).

Lemma cache_grows_refl (fs : FileSystem) (c : Dict.t Node Meta) : cache_grows fs c c.
Proof. split; auto. Qed.

Lemma cache_grows_trans (fs : FileSystem) (c1 c2 c3 : Dict.t Node Meta) :
  cache_grows fs c1 c2 -> cache_grows fs c2 c3 -> cache_grows fs c1 c3.
Proof.
  intros [A1 B1] [A2 B2]. split; auto.
  intros d m H. destruct (B2 d m H) as [H2|H2]; auto.
Qed.

(** The loop that fills the cache for the dependencies of one output. *)
Lemma fill_cache_grows (fs : FileSystem) (deps : list Node) :
  forall acc cache,
    fold_left (fun acc dep =>
                 do cache <- acc;
                 match Dict.get Node_eq_dec cache dep with
                 | Some _ => Return cache
                 | None => do m <- get_metadata fs dep;
                           Return (Dict.set Node_eq_dec cache dep m)
                 end) deps acc = Return cache ->
    exists cache0, acc = Return cache0 /\ cache_grows fs cache0 cache.
Proof.
  induction deps as [|dep deps IH]; cbn [fold_left]; intros acc cache Hrun.
  - exists cache. split; [exact Hrun|apply cache_grows_refl].
  - destruct (IH _ _ Hrun) as [cache1 [Hstep Hgrow]].
    destruct acc as [cache0|ex|]; try discriminate. cbn [bind] in Hstep.
    exists cache0. split; [reflexivity|].
    destruct (Dict.get Node_eq_dec cache0 dep) as [m0|] eqn:Hget.
    + injection Hstep as <-. exact Hgrow.
    + destruct (get_metadata fs dep) as [m|ex|] eqn:Hm; try discriminate.
      cbn [bind] in Hstep. injection Hstep as <-.
      apply cache_grows_trans with (c2 := Dict.set Node_eq_dec cache0 dep m);
        [|exact Hgrow].
      split; intros d m'; rewrite Dict.get_set;
        destruct (Node_eq_dec d dep) as [->|]; auto.
      * congruence.
      * intros [= <-]. now right.
Qed.

(** A signature reads the cache only at the nodes it is made for. *)
Lemma metadata_signature_stable (cache cache' : Dict.t Node Meta) (nodes : list Node)
    (sig : Meta) :
  (forall d m, Dict.get Node_eq_dec cache d = Some m ->
               Dict.get Node_eq_dec cache' d = Some m) ->
  _metadata_signature cache nodes = Return sig ->
  _metadata_signature cache' nodes = Return sig.
Proof.
  intros Hmono. unfold _metadata_signature.
  assert (Hgen : forall l acc r,
            fold_left (fun acc e =>
                         do sig <- acc;
                         match Dict.get Node_eq_dec cache e, path_of e with
                         | Some m, Some p => Return (Dict.set string_dec sig p m)
                         | _, _ => Raise KeyError
                         end) l acc = Return r ->
            (exists a0, acc = Return a0)
            /\ fold_left (fun acc e =>
                            do sig <- acc;
                            match Dict.get Node_eq_dec cache' e, path_of e with
                            | Some m, Some p => Return (Dict.set string_dec sig p m)
                            | _, _ => Raise KeyError
                            end) l acc = Return r).
  { induction l as [|a l IH]; cbn [fold_left]; intros acc r Hrun.
    - split; [eauto|exact Hrun].
    - destruct (IH _ _ Hrun) as [[a1 Hstep] Hrest].
      destruct acc as [a0|ex|]; try discriminate. split; [eauto|].
      cbn [bind] in *.
      destruct (Dict.get Node_eq_dec cache a) as [m|] eqn:Hget; try discriminate.
      rewrite (Hmono a m Hget). exact Hrest. }
  intros Hsig.
  match type of Hsig with
  | bind ?m _ = _ => destruct m as [items|ex|] eqn:Hfold
  end; try discriminate.
  destruct (Hgen _ _ _ Hfold) as [_ Hfold']. rewrite Hfold'. exact Hsig.
Qed.

Lemma update_entry_metadata_stopped (set_order : list Node -> list Node)
    (deps : Dict.t Node (list Node)) (st : BuildState) (o : outcome unit) (entry : Node) :
  o <> Return tt ->
  update_entry_metadata set_order deps (st, o) entry = (st, o).
Proof.
  intros Ho. unfold update_entry_metadata.
  destruct o as [[]|ex|]; [congruence| |];
    destruct (path_of entry); try reflexivity;
    destruct (dict_item deps entry); reflexivity.
Qed.

(** What one turn of [for built_entry in builder.builds] has done when it
    ends normally. *)
Lemma update_entry_metadata_returns (set_order : list Node -> list Node)
    (deps : Dict.t Node (list Node)) (st st1 : BuildState) (entry : Node) :
  update_entry_metadata set_order deps (st, Return tt) entry = (st1, Return tt) ->
  bs_fs st1 = bs_fs st
  /\ cache_grows (bs_fs st) (metadata_cache st) (metadata_cache st1)
  /\ match path_of entry with
     | None => bs_db st1 = bs_db st
     | Some path =>
         exists found sig,
           Dict.get Node_eq_dec deps entry = Some found
           /\ _metadata_signature (metadata_cache st1) (set_order found) = Return sig
           /\ _set_metadata (bs_db st) path sig = Return (bs_db st1)
     end.
Proof.
  unfold update_entry_metadata.
  destruct (path_of entry) as [path|].
  2: { intros [= <-]. split; [reflexivity|]. split; [apply cache_grows_refl|reflexivity]. }
  unfold dict_item.
  destruct (Dict.get Node_eq_dec deps entry) as [found|]; [|discriminate].
  match goal with |- context [fold_left ?f (set_order found) ?a] =>
    destruct (fold_left f (set_order found) a) as [cache|ex|] eqn:Hfill
  end; try discriminate.
  apply fill_cache_grows in Hfill. destruct Hfill as [cache0 [[= <-] Hgrow]].
  destruct (_metadata_signature cache (set_order found)) as [sig|ex|] eqn:Hsig;
    cbn [bind]; try discriminate.
  destruct (_set_metadata (bs_db st) path sig) as [db|ex|] eqn:Hset; try discriminate.
  intros [= <-]. simpl. split; [reflexivity|]. split; [exact Hgrow|].
  exists found, sig. auto.
Qed.

Lemma update_metadata_loop (set_order : list Node -> list Node)
    (deps : Dict.t Node (list Node)) (outputs : list Node) :
  forall st st',
    fold_left (update_entry_metadata set_order deps) outputs (st, Return tt)
    = (st', Return tt) ->
    bs_fs st' = bs_fs st
    /\ cache_grows (bs_fs st) (metadata_cache st) (metadata_cache st')
    /\ (forall path, (forall out, In out outputs -> path_of out <> Some path) ->
                     _get_metadata (bs_db st') path = _get_metadata (bs_db st) path)
    /\ (forall out path, In out outputs -> path_of out = Some path ->
          exists out' found sig,
            In out' outputs /\ path_of out' = Some path
            /\ Dict.get Node_eq_dec deps out' = Some found
            /\ _metadata_signature (metadata_cache st') (set_order found) = Return sig
            /\ _get_metadata (bs_db st') path = Some sig).
Proof.
  induction outputs as [|a outputs IH]; cbn [fold_left]; intros st st' Hrun.
  - injection Hrun as <-. split; [reflexivity|]. split; [apply cache_grows_refl|].
    split; [reflexivity|intros out path []].
  - destruct (update_entry_metadata set_order deps (st, Return tt) a) as [st1 o1]
      eqn:Hstep.
    assert (Ho1 : o1 = Return tt).
    { destruct o1 as [[]|ex|]; [reflexivity| |]; exfalso.
      - assert (Hstuck : forall l, fold_left (update_entry_metadata set_order deps) l
                                     (st1, Raise ex) = (st1, Raise ex)).
        { induction l as [|x l IHl]; cbn [fold_left]; [reflexivity|].
          rewrite update_entry_metadata_stopped by discriminate. exact IHl. }
        rewrite Hstuck in Hrun. discriminate.
      - assert (Hstuck : forall l, fold_left (update_entry_metadata set_order deps) l
                                     (st1, Diverges) = (st1, Diverges)).
        { induction l as [|x l IHl]; cbn [fold_left]; [reflexivity|].
          rewrite update_entry_metadata_stopped by discriminate. exact IHl. }
        rewrite Hstuck in Hrun. discriminate. }
    subst o1.
    destruct (update_entry_metadata_returns set_order deps st st1 a Hstep)
      as [Hfs1 [Hgrow1 Hrow1]].
    destruct (IH st1 st' Hrun) as [Hfs [Hgrow [Hother Hrows]]].
    rewrite Hfs1 in Hfs, Hgrow.
    split; [exact Hfs|].
    split; [exact (cache_grows_trans _ _ _ _ Hgrow1 Hgrow)|].
    split.
    + intros path Hnone. rewrite Hother by (intros out Hout; apply Hnone; now right).
      assert (Ha : path_of a <> Some path) by (apply Hnone; now left).
      destruct (path_of a) as [pa|]; [|now rewrite Hrow1].
      destruct Hrow1 as [found [sig [_ [_ Hset]]]].
      destruct (set_metadata_upsert (bs_db st) pa sig) as [db' [Hset' [_ Hrest]]].
      rewrite Hset in Hset'. injection Hset' as <-.
      apply Hrest. congruence.
    + intros out path Hout Hpath.
      destruct (existsb (fun o => match path_of o with
                                  | Some q => if string_dec q path then true else false
                                  | None => false
                                  end) outputs) eqn:Hlater.
      * apply existsb_exists in Hlater. destruct Hlater as [o [Ho Hq]].
        assert (Hop : path_of o = Some path).
        { destruct (path_of o) as [q|]; [|discriminate].
          destruct (string_dec q path); [congruence|discriminate]. }
        destruct (Hrows o path Ho Hop) as [out' [found [sig [H1 H2]]]].
        exists out', found, sig. split; [now right|exact H2].
      * assert (Hnone : forall o, In o outputs -> path_of o <> Some path).
        { intros o Ho Hop.
          assert (Hex : existsb (fun o => match path_of o with
                                          | Some q => if string_dec q path then true else false
                                          | None => false
                                          end) outputs = true).
          { apply existsb_exists. exists o. split; [exact Ho|]. rewrite Hop.
            destruct (string_dec path path); congruence. }
          congruence. }
        destruct Hout as [<-|Hout]; [|now destruct (Hnone out Hout)].
        rewrite Hpath in Hrow1. destruct Hrow1 as [found [sig [Hfound [Hsig Hset]]]].
        exists a, found, sig. split; [now left|]. split; [exact Hpath|].
        split; [exact Hfound|]. split.
        -- apply metadata_signature_stable with (cache := metadata_cache st1);
             [apply Hgrow|exact Hsig].
        -- rewrite (Hother path Hnone).
           destruct (set_metadata_upsert (bs_db st) path sig) as [db' [Hset' [Hget _]]].
           rewrite Hset in Hset'. injection Hset' as <-. exact Hget.
Qed.

(** X27: what [_update_builder_metadata] has written when it returns.  The
    filesystem is untouched.  The metadata cache only grows: what it held it
    still holds, and what was added was read from the filesystem during the
    call.  Only rows of the builder's own outputs are written: the row of
    any other path is as before.  And the row under the path of an entry
    output is the signature, over the cache, of the [entry_dependencies] of an
    entry output with that path. *)
Theorem update_builder_metadata_rows (set_order : list Node -> list Node)
    (h : Heap) (b : Builder) (deps : Dict.t Node (list Node)) (st st' : BuildState) :
  _update_builder_metadata set_order h b deps st = (st', Return tt) ->
  bs_fs st' = bs_fs st
  /\ (forall d m, Dict.get Node_eq_dec (metadata_cache st) d = Some m ->
                  Dict.get Node_eq_dec (metadata_cache st') d = Some m)
  /\ (forall d m, Dict.get Node_eq_dec (metadata_cache st') d = Some m ->
                  Dict.get Node_eq_dec (metadata_cache st) d = Some m
                  \/ get_metadata (bs_fs st) d = Return m)
  /\ (forall path, (forall out, In out (builder_builds h b) -> path_of out <> Some path) ->
                   _get_metadata (bs_db st') path = _get_metadata (bs_db st) path)
  /\ (forall out path, In out (builder_builds h b) -> path_of out = Some path ->
        exists out' found sig,
          In out' (builder_builds h b) /\ path_of out' = Some path
          /\ Dict.get Node_eq_dec deps out' = Some found
          /\ _metadata_signature (metadata_cache st') (set_order found) = Return sig
          /\ _get_metadata (bs_db st') path = Some sig).
Proof.
  unfold _update_builder_metadata. intros Hrun.
  destruct (update_metadata_loop set_order deps (builder_builds h b) st st' Hrun)
    as [Hfs [[Hkeep Hnew] [Hother Hrows]]].
  split; [exact Hfs|]. split; [exact Hkeep|]. split; [exact Hnew|].
  split; [exact Hother|exact Hrows].
Qed.

Lemma update_builder_metadata_rows_witness :
  exists st',
    _update_builder_metadata (fun l => l) cold_heap 0 [(cold_out, [])]
      (mkBuild (mkFS (fun _ => Some (mkStat 1 true false)) (fun _ => Return (MDict []))) [] [] [] [])
    = (st', Return tt)
    /\ bs_fs st' = mkFS (fun _ => Some (mkStat 1 true false)) (fun _ => Return (MDict []))
    /\ exists path, path_of cold_out = Some path
                    /\ _get_metadata (bs_db st') path = Some (MDict []).
Proof.
  eexists. split; [vm_compute; reflexivity|]. split.
  - apply (update_builder_metadata_rows (fun l => l) cold_heap 0 [(cold_out, [])]
             (mkBuild (mkFS (fun _ => Some (mkStat 1 true false)) (fun _ => Return (MDict []))) [] [] [] [])).
    vm_compute. reflexivity.
  - eexists. split; vm_compute; reflexivity.
Defined.

(** * Cycles *)

(** When every edge leads to a node that has an edge again, every node that
    has an edge reaches a cycle. *)
Lemma endless_edges_reach_cycle (edges : Dict.t Node (list Node)) (d d' : Node) :
  (forall n d, In d (dd_get edges n) -> exists d', In d' (dd_get edges d)) ->
  In d' (dd_get edges d) ->
  exists c, (d = c \/ path edges d c) /\ path edges c c.
Proof.
  intros Hnext Hd.
  destruct (chain_grows edges Hnext (length (Dict.keys edges)) d d' Hd)
    as [l [Hlen [Hchain Hkeys]]].
  assert (Hnd : ~ NoDup (d :: l)).
  { intros Hnd. pose proof (NoDup_incl_length Hnd Hkeys) as Hle.
    simpl in Hle. lia. }
  destruct (repeated_element _ Hnd) as [x [l1 [l2 [l3 E]]]].
  exists x. split.
  - destruct l1 as [|a l1]; simpl in E.
    + left. congruence.
    + right. injection E as <- E'. rewrite E' in Hchain.
      exact (chain_path edges l1 d x (l2 ++ x :: l3) Hchain).
  - rewrite E in Hchain. apply chain_suffix in Hchain; [|discriminate].
    now apply chain_path in Hchain.
Qed.

(** The lines of the message are the lines of the edges that are left. *)
Lemma cycle_lines_iff (set_order : list Node -> list Node) (node_str : Node -> string)
    (edges : Dict.t Node (list Node)) (line : string) :
  (forall l, Permutation (set_order l) l) ->
  NoDup (Dict.keys edges) ->
  In line (cycle_lines set_order node_str edges) <->
  exists n d, In d (dd_get edges n)
              /\ line = (node_str n ++ " → " ++ node_str d)%string.
Proof.
  intros Hperm Hkeys. split.
  - unfold cycle_lines. intros Hin. apply in_flat_map in Hin.
    destruct Hin as [[n deps] [Hrow Hline]].
    apply filter_In in Hrow. destruct Hrow as [Hrow _].
    apply in_map_iff in Hline. destruct Hline as [d [<- Hd]].
    rewrite (set_order_in set_order Hperm) in Hd.
    exists n, d. split; [|reflexivity].
    unfold dd_get. rewrite (in_nodup_get _ edges n deps Hkeys Hrow). exact Hd.
  - intros [n [d [Hd ->]]]. now apply cycle_lines_in.
Qed.

(** On a graph with a cycle [_sort_dag] raises, and the edges that are left
    when it stops, which the message lists, are the edges of the graph that
    lead to a node from which a cycle can be reached. *)
Lemma sort_dag_cycle_edges
    (set_order : list Node -> list Node) (node_str : Node -> string)
    (nodes : list Node) (edges_orig : Dict.t Node (list Node)) (c : Node) :
  (forall l, Permutation (set_order l) l) ->
  NoDup (Dict.keys edges_orig) ->
  (forall n d, In d (dd_get edges_orig n) -> In n nodes /\ In d nodes) ->
  path edges_orig c c ->
  exists remaining,
    NoDup (Dict.keys remaining)
    /\ _sort_dag set_order node_str nodes edges_orig
       = Raise (DependencyError (cycle_message set_order node_str remaining))
    /\ forall n d,
         In d (dd_get remaining n) <->
         In d (dd_get edges_orig n)
         /\ exists c', (d = c' \/ path edges_orig d c') /\ path edges_orig c' c'.
Proof.
  intros Hperm Hkeys Hclosed Hcycle.
  assert (Hsrc : forall n d, In d (dd_get edges_orig n) -> In n nodes).
  { intros n d Hd. now apply (Hclosed n d). }
  destruct (sort_dag_loop_returns set_order Hperm nodes edges_orig Hkeys Hsrc)
    as [st [Hloop [Hinv [Hleaf Hk]]]].
  assert (Hcopy : forall n d, In d (dd_get (copy_edges edges_orig) n)
                              <-> In d (dd_get edges_orig n)).
  { intros n d. now apply copy_edges_in. }
  assert (Hpath : forall n m, path edges_orig n m -> path (copy_edges edges_orig) n m).
  { apply path_ext. intros n d. apply Hcopy. }
  assert (Hleft : forall n m, path (st_edges st) n m -> path edges_orig n m).
  { apply path_ext. intros n d Hd. apply Hcopy. now apply (si_sub _ _ _ Hinv). }
  assert (Hsorted : forall d c', In d (sorted_nodes st) ->
                                 d = c' \/ path edges_orig d c' ->
                                 path edges_orig c' c' -> False).
  { intros d c' Hd Hreach Hloop'.
    apply (topological_no_cycle _ _ (si_topo _ _ _ Hinv) c'); [|now apply Hpath].
    destruct Hreach as [<-|Hreach]; [exact Hd|].
    apply in_split in Hd. destruct Hd as [l1 [l2 E]].
    rewrite E. apply in_or_app. left.
    exact (topological_path _ _ (si_topo _ _ _ Hinv) d c' (Hpath _ _ Hreach) l1 l2 E). }
  assert (Hremain : forall n d, In d (dd_get edges_orig n) ->
                      (exists c', (d = c' \/ path edges_orig d c') /\ path edges_orig c' c') ->
                      In d (dd_get (st_edges st) n)).
  { intros n d Hd [c' [Hreach Hloop']]. apply Hcopy in Hd.
    destruct (si_done _ _ _ Hinv n d Hd) as [H|H]; auto.
    destruct (Hsorted d c' H Hreach Hloop'). }
  assert (Hnext : forall n d, In d (dd_get (st_edges st) n) ->
                              exists d', In d' (dd_get (st_edges st) d)).
  { intros n d Hd.
    destruct (dd_get (st_edges st) d) as [|d' ds] eqn:Hnone; [|exists d'; now left].
    exfalso.
    assert (Hdn : In d nodes).
    { apply (Hclosed n d). apply Hcopy. now apply (si_sub _ _ _ Hinv). }
    destruct (si_all _ _ _ Hinv d Hdn Hnone) as [H|H].
    - exact (si_live _ _ _ Hinv n d Hd H).
    - rewrite Hleaf in H. destruct H. }
  exists (st_edges st). split; [exact Hk|]. split.
  - unfold _sort_dag.
    change (filter _ nodes) with (filter (is_leaf (copy_edges edges_orig)) nodes).
    rewrite Hloop. simpl.
    assert (Hedge : exists d, In d (dd_get (st_edges st) c)).
    { inversion Hcycle as [n d Hd|n d m Hd Hrest]; subst.
      - exists c. apply Hremain; auto. exists c. split; [now left|exact Hcycle].
      - exists d. apply Hremain; auto. exists c. split; [now right|exact Hcycle]. }
    destruct Hedge as [d Hd]. apply dd_get_in in Hd. destruct Hd as [deps [Hget Hd]].
    assert (Hex : existsb (fun deps : list Node => match deps with [] => false | _ => true end)
                          (Dict.values (st_edges st)) = true).
    { apply existsb_exists. exists deps. split.
      - apply Dict.get_some_in in Hget. unfold Dict.values.
        apply in_map_iff. exists (c, deps). auto.
      - destruct deps; [destruct Hd|reflexivity]. }
    rewrite Hex. reflexivity.
  - intros n d. split.
    + intros Hd. split; [apply Hcopy; now apply (si_sub _ _ _ Hinv)|].
      destruct (Hnext n d Hd) as [d' Hd'].
      destruct (endless_edges_reach_cycle (st_edges st) d d' Hnext Hd')
        as [c' [Hreach Hloop']].
      exists c'. split; [|now apply Hleft].
      destruct Hreach as [->|Hreach]; auto.
    + intros [Hd Hstuck]. now apply Hremain.
Qed.

(** C3: when a node reachable from the targets depends on itself, directly
    or not, [prepare_build] raises [DependencyError].  Its message is the
    heading followed by lines separated by newlines, and the lines are those
    of the edges that are left when the sort stops, one [source → target]
    for each: the edges of the reachable graph that lead to a node on a
    cycle or to a node that depends on one.  No builder has been called by
    then: a [build_targets] on these targets ends with that error, has called
    no builder and has left the filesystem and the store as they were. *)
Theorem prepare_build_cycle_raises
    (set_order : list Node -> list Node) (node_str : Node -> string)
    (fuel : nat) (h : Heap) (e : Execution) (fs : FileSystem)
    (targets : Args) (target_nodes : list Node) (c : Node) :
  (forall l, Permutation (set_order l) l) ->
  _args_to_nodes e targets = Return target_nodes ->
  reachable (dependencies h) target_nodes c ->
  depends_on h c c ->
  exists remaining,
    prepare_build set_order node_str fuel h e fs targets
      = Raise (DependencyError
                 ("Dependency graph has cycles:" ++ newline
                  ++ String.concat newline (cycle_lines set_order node_str remaining)))
    /\ (forall n d,
          In d (dd_get remaining n) <->
          reachable (dependencies h) target_nodes n
          /\ In d (dependencies h n)
          /\ exists c', (d = c' \/ depends_on h d c') /\ depends_on h c' c')
    /\ (forall line,
          In line (cycle_lines set_order node_str remaining) <->
          exists n d, In d (dd_get remaining n)
                      /\ line = (node_str n ++ " → " ++ node_str d)%string)
    /\ forall remove_entry prepare_entry run_build builder_str dry_run,
         build_targets set_order node_str remove_entry prepare_entry run_build
           builder_str fuel h e fs (Some targets) None dry_run
         = (mkBuild fs (metadata_db e) [] [] [],
            Raise (DependencyError
                     ("Dependency graph has cycles:" ++ newline
                      ++ String.concat newline
                           (cycle_lines set_order node_str remaining)))).
Proof.
  intros Hperm Hargs Hc Hcycle.
  destruct (@traverse_node_graph_returns set_order Hperm h target_nodes)
    as [all_nodes [edges [Htrav [Hreach [Hedges _]]]]].
  assert (Hkeys : NoDup (Dict.keys edges)).
  { unfold _traverse_node_graph, traverse in Htrav.
    eapply traverse_loop_keys; [|exact Htrav]. simpl. constructor. }
  assert (Hin : forall n d, reachable (dependencies h) target_nodes n ->
                            In d (dependencies h n) -> In d (dd_get edges n)).
  { intros n d Hn Hd. apply Hedges. split; auto. now apply Hreach. }
  assert (Hsub : forall n d, In d (dd_get edges n) -> In d (dependencies h n)).
  { intros n d Hd. apply Hedges in Hd. tauto. }
  assert (Hclosed : forall n d, In d (dd_get edges n) -> In n all_nodes /\ In d all_nodes).
  { intros n d Hd. apply Hedges in Hd. destruct Hd as [Hn Hd]. split; auto.
    apply Hreach. apply reach_dep with (n := n); auto. now apply Hreach. }
  assert (Hloop : path edges c c).
  { now apply (depends_on_path h target_nodes edges Hin c c Hcycle Hc). }
  destruct (sort_dag_cycle_edges set_order node_str all_nodes edges c Hperm Hkeys
              Hclosed Hloop) as [remaining [Hk [Hsort Hremain]]].
  assert (Hprep : prepare_build set_order node_str fuel h e fs targets
                  = Raise (DependencyError (cycle_message set_order node_str remaining))).
  { unfold prepare_build. rewrite Hargs. simpl. rewrite Htrav. simpl.
    rewrite Hsort. reflexivity. }
  exists remaining. split; [exact Hprep|]. split; [|split].
  - intros n d. rewrite Hremain. split.
    + intros [Hd [c' [Hto Hloop']]].
      split; [apply Hreach; apply (Hclosed n d Hd)|]. split; [now apply Hsub|].
      exists c'. split.
      * destruct Hto as [->|Hto]; auto. right.
        now apply (path_depends_on h edges Hsub).
      * now apply (path_depends_on h edges Hsub).
    + intros [Hn [Hd [c' [Hto Hloop']]]].
      assert (Hdr : reachable (dependencies h) target_nodes d).
      { apply reach_dep with (n := n); auto. }
      split; [now apply Hin|].
      exists c'. destruct Hto as [<-|Hto].
      * split; [now left|].
        now apply (depends_on_path h target_nodes edges Hin d d Hloop' Hdr).
      * destruct (depends_on_path h target_nodes edges Hin d c' Hto Hdr) as [Hp Hcr].
        split; [now right|].
        now apply (depends_on_path h target_nodes edges Hin c' c' Hloop' Hcr).
  - intros line. now apply cycle_lines_iff.
  - intros remove_entry prepare_entry run_build builder_str dry_run.
    unfold build_targets. rewrite Hprep. reflexivity.
Qed.

(** A target [t] that depends on [x], where [x] and [y] depend on each
    other. *)
Definition tail_heap : Heap :=
  mkHeap [(File "t", mkNodeObj [File "x"] None);
          (File "x", mkNodeObj [File "y"] None);
          (File "y", mkNodeObj [File "x"] None)] [].

Lemma prepare_build_cycle_raises_witness :
  exists remaining,
    prepare_build (fun l => l) path_str 0 tail_heap cold_execution empty_disk
      (ArgNode (File "t"))
    = Raise (DependencyError
               ("Dependency graph has cycles:" ++ newline
                ++ String.concat newline (cycle_lines (fun l => l) path_str remaining)))
    /\ In ("t → x")%string (cycle_lines (fun l => l) path_str remaining)
    /\ In ("x → y")%string (cycle_lines (fun l => l) path_str remaining)
    /\ In ("y → x")%string (cycle_lines (fun l => l) path_str remaining).
Proof.
  destruct (prepare_build_cycle_raises (fun l => l) path_str 0 tail_heap cold_execution
              empty_disk (ArgNode (File "t")) [File "t"] (File "x"))
    as [remaining [Hprep [Hrem [Hlines _]]]].
  - intros l. apply Permutation_refl.
  - reflexivity.
  - apply reach_dep with (n := File "t"); [apply reach_target; simpl; auto|].
    vm_compute. auto.
  - apply dep_step with (d := File "y"); [vm_compute; auto|].
    apply dep_direct. vm_compute. auto.
  - assert (Hx : depends_on tail_heap (File "x") (File "x")).
    { apply dep_step with (d := File "y"); [vm_compute; auto|].
      apply dep_direct. vm_compute. auto. }
    assert (Hy : depends_on tail_heap (File "y") (File "y")).
    { apply dep_step with (d := File "x"); [vm_compute; auto|].
      apply dep_direct. vm_compute. auto. }
    assert (Ht : reachable (dependencies tail_heap) [File "t"] (File "t")).
    { apply reach_target. simpl. auto. }
    assert (Hrx : reachable (dependencies tail_heap) [File "t"] (File "x")).
    { apply reach_dep with (n := File "t"); [exact Ht|vm_compute; auto]. }
    assert (Hry : reachable (dependencies tail_heap) [File "t"] (File "y")).
    { apply reach_dep with (n := File "x"); [exact Hrx|vm_compute; auto]. }
    exists remaining. split; [exact Hprep|]. split; [|split].
    + apply Hlines. exists (File "t"), (File "x"). split; [|reflexivity].
      apply Hrem. split; [exact Ht|]. split; [vm_compute; auto|].
      exists (File "x"). split; [now left|exact Hx].
    + apply Hlines. exists (File "x"), (File "y"). split; [|reflexivity].
      apply Hrem. split; [exact Hrx|]. split; [vm_compute; auto|].
      exists (File "y"). split; [now left|exact Hy].
    + apply Hlines. exists (File "y"), (File "x"). split; [|reflexivity].
      apply Hrem. split; [exact Hry|]. split; [vm_compute; auto|].
      exists (File "x"). split; [now left|exact Hx].
Defined.

(** The message for these three files. *)
Example prepare_build_tail_message :
  prepare_build (fun l => l) path_str 0 tail_heap cold_execution empty_disk
    (ArgNode (File "t"))
  = Raise (DependencyError
             ("Dependency graph has cycles:" ++ newline
              ++ "t → x" ++ newline ++ "x → y" ++ newline ++ "y → x")).
Proof. vm_compute. reflexivity. Qed.

(** * A first build *)

(** ** The stages of [prepare_build] return *)













